(** * ClipBook: rate limiter, rule-based responder, tag pipeline, context
      builders and embed-URL lookup, embedded from the JavaScript sources.

    Source files embedded here (paths under [src/]; a file that holds
    several sources is named with the source meant):
    - [Backup/functions/hfChat.js]: the rule-based callable (rate
      limiter, intent router, summarize / recommend / quiz / plan /
      search);
    - [unnamed/part_001] (functions/src/hfChat.ts): the Hugging Face
      callable (rate limiter, [buildPlaylistContext]);
    - [src/Login.jsx], part src/DailymotionSearch.jsx: [normalizeTag] and
      the tag pipeline of [saveResult];
    - [src/ChatAI_HF.jsx]: [truncate], [buildProfileContext],
      [callProxy];
    - [clipbook/src/ChatAI_free.jsx]: the browser rule-based assistant;
    - [unnamed/part_002] (src/Dashboard.jsx): [getEmbedInfo].

    Strings are sequences of UTF-16 code units, and [toLowerCase] is the
    case conversion of the Unicode Character Database. *)

From Stdlib Require Import ZArith NArith List Ascii String Lia.
From stdpp Require Import gmap list sorting.

Local Open Scope Z_scope.

(** ** JavaScript strings

    A JavaScript string is a sequence of UTF-16 code units; [length],
    [slice], [indexOf] and [split] all count code units, so a string is a
    list of code units here. *)

Definition jsstring : Type := list N.

(** A literal of the source written with ASCII characters only. *)
Definition lit (s : string) : jsstring :=
  map N_of_ascii (list_ascii_of_string s).

(** ** Case data of the Unicode Character Database, version 14.0

    [String.prototype.toLowerCase] maps the code points of a string by
    the locale-insensitive lower-case mappings of the database.  The
    three tables are ascending and their entries do not overlap. *)

Module Unicode.

(** The code points with a lower-case mapping other than themselves
    (UnicodeData.txt).  An entry [(first, last, step, image)] stands for
    the code points [first, first + step, ..., last], mapped to [image],
    [image + step], ...  LATIN CAPITAL LETTER I WITH DOT ABOVE, whose
    mapping has two code points (SpecialCasing.txt), is not in the
    table. *)
Definition lowerRuns : list (N * N * N * N) :=
  [
   (0x41, 0x5a, 1, 0x61); (0xc0, 0xd6, 1, 0xe0); (0xd8, 0xde, 1, 0xf8);
   (0x100, 0x12e, 2, 0x101); (0x132, 0x136, 2, 0x133);
   (0x139, 0x147, 2, 0x13a); (0x14a, 0x176, 2, 0x14b);
   (0x178, 0x178, 1, 0xff); (0x179, 0x17d, 2, 0x17a);
   (0x181, 0x181, 1, 0x253); (0x182, 0x184, 2, 0x183);
   (0x186, 0x186, 1, 0x254); (0x187, 0x187, 1, 0x188);
   (0x189, 0x18a, 1, 0x256); (0x18b, 0x18b, 1, 0x18c);
   (0x18e, 0x18e, 1, 0x1dd); (0x18f, 0x18f, 1, 0x259);
   (0x190, 0x190, 1, 0x25b); (0x191, 0x191, 1, 0x192);
   (0x193, 0x193, 1, 0x260); (0x194, 0x194, 1, 0x263);
   (0x196, 0x196, 1, 0x269); (0x197, 0x197, 1, 0x268);
   (0x198, 0x198, 1, 0x199); (0x19c, 0x19c, 1, 0x26f);
   (0x19d, 0x19d, 1, 0x272); (0x19f, 0x19f, 1, 0x275);
   (0x1a0, 0x1a4, 2, 0x1a1); (0x1a6, 0x1a6, 1, 0x280);
   (0x1a7, 0x1a7, 1, 0x1a8); (0x1a9, 0x1a9, 1, 0x283);
   (0x1ac, 0x1ac, 1, 0x1ad); (0x1ae, 0x1ae, 1, 0x288);
   (0x1af, 0x1af, 1, 0x1b0); (0x1b1, 0x1b2, 1, 0x28a);
   (0x1b3, 0x1b5, 2, 0x1b4); (0x1b7, 0x1b7, 1, 0x292);
   (0x1b8, 0x1b8, 1, 0x1b9); (0x1bc, 0x1bc, 1, 0x1bd);
   (0x1c4, 0x1c4, 1, 0x1c6); (0x1c5, 0x1c5, 1, 0x1c6);
   (0x1c7, 0x1c7, 1, 0x1c9); (0x1c8, 0x1c8, 1, 0x1c9);
   (0x1ca, 0x1ca, 1, 0x1cc); (0x1cb, 0x1db, 2, 0x1cc);
   (0x1de, 0x1ee, 2, 0x1df); (0x1f1, 0x1f1, 1, 0x1f3);
   (0x1f2, 0x1f4, 2, 0x1f3); (0x1f6, 0x1f6, 1, 0x195);
   (0x1f7, 0x1f7, 1, 0x1bf); (0x1f8, 0x21e, 2, 0x1f9);
   (0x220, 0x220, 1, 0x19e); (0x222, 0x232, 2, 0x223);
   (0x23a, 0x23a, 1, 0x2c65); (0x23b, 0x23b, 1, 0x23c);
   (0x23d, 0x23d, 1, 0x19a); (0x23e, 0x23e, 1, 0x2c66);
   (0x241, 0x241, 1, 0x242); (0x243, 0x243, 1, 0x180);
   (0x244, 0x244, 1, 0x289); (0x245, 0x245, 1, 0x28c);
   (0x246, 0x24e, 2, 0x247); (0x370, 0x372, 2, 0x371);
   (0x376, 0x376, 1, 0x377); (0x37f, 0x37f, 1, 0x3f3);
   (0x386, 0x386, 1, 0x3ac); (0x388, 0x38a, 1, 0x3ad);
   (0x38c, 0x38c, 1, 0x3cc); (0x38e, 0x38f, 1, 0x3cd);
   (0x391, 0x3a1, 1, 0x3b1); (0x3a3, 0x3ab, 1, 0x3c3);
   (0x3cf, 0x3cf, 1, 0x3d7); (0x3d8, 0x3ee, 2, 0x3d9);
   (0x3f4, 0x3f4, 1, 0x3b8); (0x3f7, 0x3f7, 1, 0x3f8);
   (0x3f9, 0x3f9, 1, 0x3f2); (0x3fa, 0x3fa, 1, 0x3fb);
   (0x3fd, 0x3ff, 1, 0x37b); (0x400, 0x40f, 1, 0x450);
   (0x410, 0x42f, 1, 0x430); (0x460, 0x480, 2, 0x461);
   (0x48a, 0x4be, 2, 0x48b); (0x4c0, 0x4c0, 1, 0x4cf);
   (0x4c1, 0x4cd, 2, 0x4c2); (0x4d0, 0x52e, 2, 0x4d1);
   (0x531, 0x556, 1, 0x561); (0x10a0, 0x10c5, 1, 0x2d00);
   (0x10c7, 0x10c7, 1, 0x2d27); (0x10cd, 0x10cd, 1, 0x2d2d);
   (0x13a0, 0x13ef, 1, 0xab70); (0x13f0, 0x13f5, 1, 0x13f8);
   (0x1c90, 0x1cba, 1, 0x10d0); (0x1cbd, 0x1cbf, 1, 0x10fd);
   (0x1e00, 0x1e94, 2, 0x1e01); (0x1e9e, 0x1e9e, 1, 0xdf);
   (0x1ea0, 0x1efe, 2, 0x1ea1); (0x1f08, 0x1f0f, 1, 0x1f00);
   (0x1f18, 0x1f1d, 1, 0x1f10); (0x1f28, 0x1f2f, 1, 0x1f20);
   (0x1f38, 0x1f3f, 1, 0x1f30); (0x1f48, 0x1f4d, 1, 0x1f40);
   (0x1f59, 0x1f5f, 2, 0x1f51); (0x1f68, 0x1f6f, 1, 0x1f60);
   (0x1f88, 0x1f8f, 1, 0x1f80); (0x1f98, 0x1f9f, 1, 0x1f90);
   (0x1fa8, 0x1faf, 1, 0x1fa0); (0x1fb8, 0x1fb9, 1, 0x1fb0);
   (0x1fba, 0x1fbb, 1, 0x1f70); (0x1fbc, 0x1fbc, 1, 0x1fb3);
   (0x1fc8, 0x1fcb, 1, 0x1f72); (0x1fcc, 0x1fcc, 1, 0x1fc3);
   (0x1fd8, 0x1fd9, 1, 0x1fd0); (0x1fda, 0x1fdb, 1, 0x1f76);
   (0x1fe8, 0x1fe9, 1, 0x1fe0); (0x1fea, 0x1feb, 1, 0x1f7a);
   (0x1fec, 0x1fec, 1, 0x1fe5); (0x1ff8, 0x1ff9, 1, 0x1f78);
   (0x1ffa, 0x1ffb, 1, 0x1f7c); (0x1ffc, 0x1ffc, 1, 0x1ff3);
   (0x2126, 0x2126, 1, 0x3c9); (0x212a, 0x212a, 1, 0x6b);
   (0x212b, 0x212b, 1, 0xe5); (0x2132, 0x2132, 1, 0x214e);
   (0x2160, 0x216f, 1, 0x2170); (0x2183, 0x2183, 1, 0x2184);
   (0x24b6, 0x24cf, 1, 0x24d0); (0x2c00, 0x2c2f, 1, 0x2c30);
   (0x2c60, 0x2c60, 1, 0x2c61); (0x2c62, 0x2c62, 1, 0x26b);
   (0x2c63, 0x2c63, 1, 0x1d7d); (0x2c64, 0x2c64, 1, 0x27d);
   (0x2c67, 0x2c6b, 2, 0x2c68); (0x2c6d, 0x2c6d, 1, 0x251);
   (0x2c6e, 0x2c6e, 1, 0x271); (0x2c6f, 0x2c6f, 1, 0x250);
   (0x2c70, 0x2c70, 1, 0x252); (0x2c72, 0x2c72, 1, 0x2c73);
   (0x2c75, 0x2c75, 1, 0x2c76); (0x2c7e, 0x2c7f, 1, 0x23f);
   (0x2c80, 0x2ce2, 2, 0x2c81); (0x2ceb, 0x2ced, 2, 0x2cec);
   (0x2cf2, 0x2cf2, 1, 0x2cf3); (0xa640, 0xa66c, 2, 0xa641);
   (0xa680, 0xa69a, 2, 0xa681); (0xa722, 0xa72e, 2, 0xa723);
   (0xa732, 0xa76e, 2, 0xa733); (0xa779, 0xa77b, 2, 0xa77a);
   (0xa77d, 0xa77d, 1, 0x1d79); (0xa77e, 0xa786, 2, 0xa77f);
   (0xa78b, 0xa78b, 1, 0xa78c); (0xa78d, 0xa78d, 1, 0x265);
   (0xa790, 0xa792, 2, 0xa791); (0xa796, 0xa7a8, 2, 0xa797);
   (0xa7aa, 0xa7aa, 1, 0x266); (0xa7ab, 0xa7ab, 1, 0x25c);
   (0xa7ac, 0xa7ac, 1, 0x261); (0xa7ad, 0xa7ad, 1, 0x26c);
   (0xa7ae, 0xa7ae, 1, 0x26a); (0xa7b0, 0xa7b0, 1, 0x29e);
   (0xa7b1, 0xa7b1, 1, 0x287); (0xa7b2, 0xa7b2, 1, 0x29d);
   (0xa7b3, 0xa7b3, 1, 0xab53); (0xa7b4, 0xa7c2, 2, 0xa7b5);
   (0xa7c4, 0xa7c4, 1, 0xa794); (0xa7c5, 0xa7c5, 1, 0x282);
   (0xa7c6, 0xa7c6, 1, 0x1d8e); (0xa7c7, 0xa7c9, 2, 0xa7c8);
   (0xa7d0, 0xa7d0, 1, 0xa7d1); (0xa7d6, 0xa7d8, 2, 0xa7d7);
   (0xa7f5, 0xa7f5, 1, 0xa7f6); (0xff21, 0xff3a, 1, 0xff41);
   (0x10400, 0x10427, 1, 0x10428); (0x104b0, 0x104d3, 1, 0x104d8);
   (0x10570, 0x1057a, 1, 0x10597); (0x1057c, 0x1058a, 1, 0x105a3);
   (0x1058c, 0x10592, 1, 0x105b3); (0x10594, 0x10595, 1, 0x105bb);
   (0x10c80, 0x10cb2, 1, 0x10cc0); (0x118a0, 0x118bf, 1, 0x118c0);
   (0x16e40, 0x16e5f, 1, 0x16e60); (0x1e900, 0x1e921, 1, 0x1e922)
  ]%N.

(** The code points with the property [Cased]
    (DerivedCoreProperties.txt), as ranges [(first, last)]. *)
Definition casedRanges : list (N * N) :=
  [
   (0x41, 0x5a); (0x61, 0x7a); (0xaa, 0xaa); (0xb5, 0xb5); (0xba, 0xba);
   (0xc0, 0xd6); (0xd8, 0xf6); (0xf8, 0x1ba); (0x1bc, 0x1bf); (0x1c4, 0x293);
   (0x295, 0x2b8); (0x2c0, 0x2c1); (0x2e0, 0x2e4); (0x345, 0x345);
   (0x370, 0x373); (0x376, 0x377); (0x37a, 0x37d); (0x37f, 0x37f);
   (0x386, 0x386); (0x388, 0x38a); (0x38c, 0x38c); (0x38e, 0x3a1);
   (0x3a3, 0x3f5); (0x3f7, 0x481); (0x48a, 0x52f); (0x531, 0x556);
   (0x560, 0x588); (0x10a0, 0x10c5); (0x10c7, 0x10c7); (0x10cd, 0x10cd);
   (0x10d0, 0x10fa); (0x10fd, 0x10ff); (0x13a0, 0x13f5); (0x13f8, 0x13fd);
   (0x1c80, 0x1c88); (0x1c90, 0x1cba); (0x1cbd, 0x1cbf); (0x1d00, 0x1dbf);
   (0x1e00, 0x1f15); (0x1f18, 0x1f1d); (0x1f20, 0x1f45); (0x1f48, 0x1f4d);
   (0x1f50, 0x1f57); (0x1f59, 0x1f59); (0x1f5b, 0x1f5b); (0x1f5d, 0x1f5d);
   (0x1f5f, 0x1f7d); (0x1f80, 0x1fb4); (0x1fb6, 0x1fbc); (0x1fbe, 0x1fbe);
   (0x1fc2, 0x1fc4); (0x1fc6, 0x1fcc); (0x1fd0, 0x1fd3); (0x1fd6, 0x1fdb);
   (0x1fe0, 0x1fec); (0x1ff2, 0x1ff4); (0x1ff6, 0x1ffc); (0x2071, 0x2071);
   (0x207f, 0x207f); (0x2090, 0x209c); (0x2102, 0x2102); (0x2107, 0x2107);
   (0x210a, 0x2113); (0x2115, 0x2115); (0x2119, 0x211d); (0x2124, 0x2124);
   (0x2126, 0x2126); (0x2128, 0x2128); (0x212a, 0x212d); (0x212f, 0x2134);
   (0x2139, 0x2139); (0x213c, 0x213f); (0x2145, 0x2149); (0x214e, 0x214e);
   (0x2160, 0x217f); (0x2183, 0x2184); (0x24b6, 0x24e9); (0x2c00, 0x2ce4);
   (0x2ceb, 0x2cee); (0x2cf2, 0x2cf3); (0x2d00, 0x2d25); (0x2d27, 0x2d27);
   (0x2d2d, 0x2d2d); (0xa640, 0xa66d); (0xa680, 0xa69d); (0xa722, 0xa787);
   (0xa78b, 0xa78e); (0xa790, 0xa7ca); (0xa7d0, 0xa7d1); (0xa7d3, 0xa7d3);
   (0xa7d5, 0xa7d9); (0xa7f5, 0xa7f6); (0xa7f8, 0xa7fa); (0xab30, 0xab5a);
   (0xab5c, 0xab68); (0xab70, 0xabbf); (0xfb00, 0xfb06); (0xfb13, 0xfb17);
   (0xff21, 0xff3a); (0xff41, 0xff5a); (0x10400, 0x1044f);
   (0x104b0, 0x104d3); (0x104d8, 0x104fb); (0x10570, 0x1057a);
   (0x1057c, 0x1058a); (0x1058c, 0x10592); (0x10594, 0x10595);
   (0x10597, 0x105a1); (0x105a3, 0x105b1); (0x105b3, 0x105b9);
   (0x105bb, 0x105bc); (0x10780, 0x10780); (0x10783, 0x10785);
   (0x10787, 0x107b0); (0x107b2, 0x107ba); (0x10c80, 0x10cb2);
   (0x10cc0, 0x10cf2); (0x118a0, 0x118df); (0x16e40, 0x16e7f);
   (0x1d400, 0x1d454); (0x1d456, 0x1d49c); (0x1d49e, 0x1d49f);
   (0x1d4a2, 0x1d4a2); (0x1d4a5, 0x1d4a6); (0x1d4a9, 0x1d4ac);
   (0x1d4ae, 0x1d4b9); (0x1d4bb, 0x1d4bb); (0x1d4bd, 0x1d4c3);
   (0x1d4c5, 0x1d505); (0x1d507, 0x1d50a); (0x1d50d, 0x1d514);
   (0x1d516, 0x1d51c); (0x1d51e, 0x1d539); (0x1d53b, 0x1d53e);
   (0x1d540, 0x1d544); (0x1d546, 0x1d546); (0x1d54a, 0x1d550);
   (0x1d552, 0x1d6a5); (0x1d6a8, 0x1d6c0); (0x1d6c2, 0x1d6da);
   (0x1d6dc, 0x1d6fa); (0x1d6fc, 0x1d714); (0x1d716, 0x1d734);
   (0x1d736, 0x1d74e); (0x1d750, 0x1d76e); (0x1d770, 0x1d788);
   (0x1d78a, 0x1d7a8); (0x1d7aa, 0x1d7c2); (0x1d7c4, 0x1d7cb);
   (0x1df00, 0x1df09); (0x1df0b, 0x1df1e); (0x1e900, 0x1e943);
   (0x1f130, 0x1f149); (0x1f150, 0x1f169); (0x1f170, 0x1f189)
  ]%N.

(** The code points with the property [Case_Ignorable]. *)
Definition caseIgnorableRanges : list (N * N) :=
  [
   (0x27, 0x27); (0x2e, 0x2e); (0x3a, 0x3a); (0x5e, 0x5e); (0x60, 0x60);
   (0xa8, 0xa8); (0xad, 0xad); (0xaf, 0xaf); (0xb4, 0xb4); (0xb7, 0xb8);
   (0x2b0, 0x36f); (0x374, 0x375); (0x37a, 0x37a); (0x384, 0x385);
   (0x387, 0x387); (0x483, 0x489); (0x559, 0x559); (0x55f, 0x55f);
   (0x591, 0x5bd); (0x5bf, 0x5bf); (0x5c1, 0x5c2); (0x5c4, 0x5c5);
   (0x5c7, 0x5c7); (0x5f4, 0x5f4); (0x600, 0x605); (0x610, 0x61a);
   (0x61c, 0x61c); (0x640, 0x640); (0x64b, 0x65f); (0x670, 0x670);
   (0x6d6, 0x6dd); (0x6df, 0x6e8); (0x6ea, 0x6ed); (0x70f, 0x70f);
   (0x711, 0x711); (0x730, 0x74a); (0x7a6, 0x7b0); (0x7eb, 0x7f5);
   (0x7fa, 0x7fa); (0x7fd, 0x7fd); (0x816, 0x82d); (0x859, 0x85b);
   (0x888, 0x888); (0x890, 0x891); (0x898, 0x89f); (0x8c9, 0x902);
   (0x93a, 0x93a); (0x93c, 0x93c); (0x941, 0x948); (0x94d, 0x94d);
   (0x951, 0x957); (0x962, 0x963); (0x971, 0x971); (0x981, 0x981);
   (0x9bc, 0x9bc); (0x9c1, 0x9c4); (0x9cd, 0x9cd); (0x9e2, 0x9e3);
   (0x9fe, 0x9fe); (0xa01, 0xa02); (0xa3c, 0xa3c); (0xa41, 0xa42);
   (0xa47, 0xa48); (0xa4b, 0xa4d); (0xa51, 0xa51); (0xa70, 0xa71);
   (0xa75, 0xa75); (0xa81, 0xa82); (0xabc, 0xabc); (0xac1, 0xac5);
   (0xac7, 0xac8); (0xacd, 0xacd); (0xae2, 0xae3); (0xafa, 0xaff);
   (0xb01, 0xb01); (0xb3c, 0xb3c); (0xb3f, 0xb3f); (0xb41, 0xb44);
   (0xb4d, 0xb4d); (0xb55, 0xb56); (0xb62, 0xb63); (0xb82, 0xb82);
   (0xbc0, 0xbc0); (0xbcd, 0xbcd); (0xc00, 0xc00); (0xc04, 0xc04);
   (0xc3c, 0xc3c); (0xc3e, 0xc40); (0xc46, 0xc48); (0xc4a, 0xc4d);
   (0xc55, 0xc56); (0xc62, 0xc63); (0xc81, 0xc81); (0xcbc, 0xcbc);
   (0xcbf, 0xcbf); (0xcc6, 0xcc6); (0xccc, 0xccd); (0xce2, 0xce3);
   (0xd00, 0xd01); (0xd3b, 0xd3c); (0xd41, 0xd44); (0xd4d, 0xd4d);
   (0xd62, 0xd63); (0xd81, 0xd81); (0xdca, 0xdca); (0xdd2, 0xdd4);
   (0xdd6, 0xdd6); (0xe31, 0xe31); (0xe34, 0xe3a); (0xe46, 0xe4e);
   (0xeb1, 0xeb1); (0xeb4, 0xebc); (0xec6, 0xec6); (0xec8, 0xecd);
   (0xf18, 0xf19); (0xf35, 0xf35); (0xf37, 0xf37); (0xf39, 0xf39);
   (0xf71, 0xf7e); (0xf80, 0xf84); (0xf86, 0xf87); (0xf8d, 0xf97);
   (0xf99, 0xfbc); (0xfc6, 0xfc6); (0x102d, 0x1030); (0x1032, 0x1037);
   (0x1039, 0x103a); (0x103d, 0x103e); (0x1058, 0x1059); (0x105e, 0x1060);
   (0x1071, 0x1074); (0x1082, 0x1082); (0x1085, 0x1086); (0x108d, 0x108d);
   (0x109d, 0x109d); (0x10fc, 0x10fc); (0x135d, 0x135f); (0x1712, 0x1714);
   (0x1732, 0x1733); (0x1752, 0x1753); (0x1772, 0x1773); (0x17b4, 0x17b5);
   (0x17b7, 0x17bd); (0x17c6, 0x17c6); (0x17c9, 0x17d3); (0x17d7, 0x17d7);
   (0x17dd, 0x17dd); (0x180b, 0x180f); (0x1843, 0x1843); (0x1885, 0x1886);
   (0x18a9, 0x18a9); (0x1920, 0x1922); (0x1927, 0x1928); (0x1932, 0x1932);
   (0x1939, 0x193b); (0x1a17, 0x1a18); (0x1a1b, 0x1a1b); (0x1a56, 0x1a56);
   (0x1a58, 0x1a5e); (0x1a60, 0x1a60); (0x1a62, 0x1a62); (0x1a65, 0x1a6c);
   (0x1a73, 0x1a7c); (0x1a7f, 0x1a7f); (0x1aa7, 0x1aa7); (0x1ab0, 0x1ace);
   (0x1b00, 0x1b03); (0x1b34, 0x1b34); (0x1b36, 0x1b3a); (0x1b3c, 0x1b3c);
   (0x1b42, 0x1b42); (0x1b6b, 0x1b73); (0x1b80, 0x1b81); (0x1ba2, 0x1ba5);
   (0x1ba8, 0x1ba9); (0x1bab, 0x1bad); (0x1be6, 0x1be6); (0x1be8, 0x1be9);
   (0x1bed, 0x1bed); (0x1bef, 0x1bf1); (0x1c2c, 0x1c33); (0x1c36, 0x1c37);
   (0x1c78, 0x1c7d); (0x1cd0, 0x1cd2); (0x1cd4, 0x1ce0); (0x1ce2, 0x1ce8);
   (0x1ced, 0x1ced); (0x1cf4, 0x1cf4); (0x1cf8, 0x1cf9); (0x1d2c, 0x1d6a);
   (0x1d78, 0x1d78); (0x1d9b, 0x1dff); (0x1fbd, 0x1fbd); (0x1fbf, 0x1fc1);
   (0x1fcd, 0x1fcf); (0x1fdd, 0x1fdf); (0x1fed, 0x1fef); (0x1ffd, 0x1ffe);
   (0x200b, 0x200f); (0x2018, 0x2019); (0x2024, 0x2024); (0x2027, 0x2027);
   (0x202a, 0x202e); (0x2060, 0x2064); (0x2066, 0x206f); (0x2071, 0x2071);
   (0x207f, 0x207f); (0x2090, 0x209c); (0x20d0, 0x20f0); (0x2c7c, 0x2c7d);
   (0x2cef, 0x2cf1); (0x2d6f, 0x2d6f); (0x2d7f, 0x2d7f); (0x2de0, 0x2dff);
   (0x2e2f, 0x2e2f); (0x3005, 0x3005); (0x302a, 0x302d); (0x3031, 0x3035);
   (0x303b, 0x303b); (0x3099, 0x309e); (0x30fc, 0x30fe); (0xa015, 0xa015);
   (0xa4f8, 0xa4fd); (0xa60c, 0xa60c); (0xa66f, 0xa672); (0xa674, 0xa67d);
   (0xa67f, 0xa67f); (0xa69c, 0xa69f); (0xa6f0, 0xa6f1); (0xa700, 0xa721);
   (0xa770, 0xa770); (0xa788, 0xa78a); (0xa7f2, 0xa7f4); (0xa7f8, 0xa7f9);
   (0xa802, 0xa802); (0xa806, 0xa806); (0xa80b, 0xa80b); (0xa825, 0xa826);
   (0xa82c, 0xa82c); (0xa8c4, 0xa8c5); (0xa8e0, 0xa8f1); (0xa8ff, 0xa8ff);
   (0xa926, 0xa92d); (0xa947, 0xa951); (0xa980, 0xa982); (0xa9b3, 0xa9b3);
   (0xa9b6, 0xa9b9); (0xa9bc, 0xa9bd); (0xa9cf, 0xa9cf); (0xa9e5, 0xa9e6);
   (0xaa29, 0xaa2e); (0xaa31, 0xaa32); (0xaa35, 0xaa36); (0xaa43, 0xaa43);
   (0xaa4c, 0xaa4c); (0xaa70, 0xaa70); (0xaa7c, 0xaa7c); (0xaab0, 0xaab0);
   (0xaab2, 0xaab4); (0xaab7, 0xaab8); (0xaabe, 0xaabf); (0xaac1, 0xaac1);
   (0xaadd, 0xaadd); (0xaaec, 0xaaed); (0xaaf3, 0xaaf4); (0xaaf6, 0xaaf6);
   (0xab5b, 0xab5f); (0xab69, 0xab6b); (0xabe5, 0xabe5); (0xabe8, 0xabe8);
   (0xabed, 0xabed); (0xfb1e, 0xfb1e); (0xfbb2, 0xfbc2); (0xfe00, 0xfe0f);
   (0xfe13, 0xfe13); (0xfe20, 0xfe2f); (0xfe52, 0xfe52); (0xfe55, 0xfe55);
   (0xfeff, 0xfeff); (0xff07, 0xff07); (0xff0e, 0xff0e); (0xff1a, 0xff1a);
   (0xff3e, 0xff3e); (0xff40, 0xff40); (0xff70, 0xff70); (0xff9e, 0xff9f);
   (0xffe3, 0xffe3); (0xfff9, 0xfffb); (0x101fd, 0x101fd);
   (0x102e0, 0x102e0); (0x10376, 0x1037a); (0x10780, 0x10785);
   (0x10787, 0x107b0); (0x107b2, 0x107ba); (0x10a01, 0x10a03);
   (0x10a05, 0x10a06); (0x10a0c, 0x10a0f); (0x10a38, 0x10a3a);
   (0x10a3f, 0x10a3f); (0x10ae5, 0x10ae6); (0x10d24, 0x10d27);
   (0x10eab, 0x10eac); (0x10f46, 0x10f50); (0x10f82, 0x10f85);
   (0x11001, 0x11001); (0x11038, 0x11046); (0x11070, 0x11070);
   (0x11073, 0x11074); (0x1107f, 0x11081); (0x110b3, 0x110b6);
   (0x110b9, 0x110ba); (0x110bd, 0x110bd); (0x110c2, 0x110c2);
   (0x110cd, 0x110cd); (0x11100, 0x11102); (0x11127, 0x1112b);
   (0x1112d, 0x11134); (0x11173, 0x11173); (0x11180, 0x11181);
   (0x111b6, 0x111be); (0x111c9, 0x111cc); (0x111cf, 0x111cf);
   (0x1122f, 0x11231); (0x11234, 0x11234); (0x11236, 0x11237);
   (0x1123e, 0x1123e); (0x112df, 0x112df); (0x112e3, 0x112ea);
   (0x11300, 0x11301); (0x1133b, 0x1133c); (0x11340, 0x11340);
   (0x11366, 0x1136c); (0x11370, 0x11374); (0x11438, 0x1143f);
   (0x11442, 0x11444); (0x11446, 0x11446); (0x1145e, 0x1145e);
   (0x114b3, 0x114b8); (0x114ba, 0x114ba); (0x114bf, 0x114c0);
   (0x114c2, 0x114c3); (0x115b2, 0x115b5); (0x115bc, 0x115bd);
   (0x115bf, 0x115c0); (0x115dc, 0x115dd); (0x11633, 0x1163a);
   (0x1163d, 0x1163d); (0x1163f, 0x11640); (0x116ab, 0x116ab);
   (0x116ad, 0x116ad); (0x116b0, 0x116b5); (0x116b7, 0x116b7);
   (0x1171d, 0x1171f); (0x11722, 0x11725); (0x11727, 0x1172b);
   (0x1182f, 0x11837); (0x11839, 0x1183a); (0x1193b, 0x1193c);
   (0x1193e, 0x1193e); (0x11943, 0x11943); (0x119d4, 0x119d7);
   (0x119da, 0x119db); (0x119e0, 0x119e0); (0x11a01, 0x11a0a);
   (0x11a33, 0x11a38); (0x11a3b, 0x11a3e); (0x11a47, 0x11a47);
   (0x11a51, 0x11a56); (0x11a59, 0x11a5b); (0x11a8a, 0x11a96);
   (0x11a98, 0x11a99); (0x11c30, 0x11c36); (0x11c38, 0x11c3d);
   (0x11c3f, 0x11c3f); (0x11c92, 0x11ca7); (0x11caa, 0x11cb0);
   (0x11cb2, 0x11cb3); (0x11cb5, 0x11cb6); (0x11d31, 0x11d36);
   (0x11d3a, 0x11d3a); (0x11d3c, 0x11d3d); (0x11d3f, 0x11d45);
   (0x11d47, 0x11d47); (0x11d90, 0x11d91); (0x11d95, 0x11d95);
   (0x11d97, 0x11d97); (0x11ef3, 0x11ef4); (0x13430, 0x13438);
   (0x16af0, 0x16af4); (0x16b30, 0x16b36); (0x16b40, 0x16b43);
   (0x16f4f, 0x16f4f); (0x16f8f, 0x16f9f); (0x16fe0, 0x16fe1);
   (0x16fe3, 0x16fe4); (0x1aff0, 0x1aff3); (0x1aff5, 0x1affb);
   (0x1affd, 0x1affe); (0x1bc9d, 0x1bc9e); (0x1bca0, 0x1bca3);
   (0x1cf00, 0x1cf2d); (0x1cf30, 0x1cf46); (0x1d167, 0x1d169);
   (0x1d173, 0x1d182); (0x1d185, 0x1d18b); (0x1d1aa, 0x1d1ad);
   (0x1d242, 0x1d244); (0x1da00, 0x1da36); (0x1da3b, 0x1da6c);
   (0x1da75, 0x1da75); (0x1da84, 0x1da84); (0x1da9b, 0x1da9f);
   (0x1daa1, 0x1daaf); (0x1e000, 0x1e006); (0x1e008, 0x1e018);
   (0x1e01b, 0x1e021); (0x1e023, 0x1e024); (0x1e026, 0x1e02a);
   (0x1e130, 0x1e13d); (0x1e2ae, 0x1e2ae); (0x1e2ec, 0x1e2ef);
   (0x1e8d0, 0x1e8d6); (0x1e944, 0x1e94b); (0x1f3fb, 0x1f3ff);
   (0xe0001, 0xe0001); (0xe0020, 0xe007f); (0xe0100, 0xe01ef)
  ]%N.

(** Membership in an ascending table of ranges. *)
Fixpoint in_ranges (c : N) (rs : list (N * N)) : bool :=
  match rs with
  | [] => false
  | (lo, hi) :: rs' =>
      if (c <? lo)%N then false
      else if (c <=? hi)%N then true
      else in_ranges c rs'
  end.

(** The image of a code point under an ascending table of runs. *)
Fixpoint lower_in (c : N) (runs : list (N * N * N * N)) : N :=
  match runs with
  | [] => c
  | (lo, hi, st, img) :: runs' =>
      if (c <? lo)%N then c
      else if (c <=? hi)%N
      then (if ((c - lo) mod st =? 0)%N then img + (c - lo) else c)%N
      else lower_in c runs'
  end.

Definition lowerPoint (c : N) : N := lower_in c lowerRuns.
Definition cased (c : N) : bool := in_ranges c casedRanges.
Definition caseIgnorable (c : N) : bool := in_ranges c caseIgnorableRanges.

(** The code points that a run maps, each with its image. *)
Definition run_pairs (r : N * N * N * N) : list (N * N) :=
  let '(lo, hi, st, img) := r in
  map (λ i, (lo + N.of_nat i * st, img + N.of_nat i * st)%N)
      (seq 0 (S (N.to_nat ((hi - lo) / st)))).

End Unicode.

(** The part of the JavaScript runtime that the embedded functions call. *)

Module JS.

(** [White_Space] and [LineTerminator] code units: what [String.trim]
    strips and what the regular expression class [\s] matches. *)
Definition is_space (c : N) : bool :=
  ((9 <=? c) && (c <=? 13) || (c =? 32) || (c =? 160) || (c =? 5760)
   || (8192 <=? c) && (c <=? 8202) || (c =? 8232) || (c =? 8233)
   || (c =? 8239) || (c =? 8287) || (c =? 12288) || (c =? 65279))%N.

(** [\w] is [[A-Za-z0-9_]]; [\W] is its complement. *)
Definition is_word (c : N) : bool :=
  ((48 <=? c) && (c <=? 57) || (65 <=? c) && (c <=? 90) || (c =? 95)
   || (97 <=? c) && (c <=? 122))%N.

(** Surrogate code units, and the code points of a string
    ([StringToCodePoints]): a high surrogate followed by a low one is one
    code point, every other code unit is a code point of its own. *)
Definition is_high (c : N) : bool := ((0xD800 <=? c) && (c <=? 0xDBFF))%N.
Definition is_low (c : N) : bool := ((0xDC00 <=? c) && (c <=? 0xDFFF))%N.

Fixpoint codePoints (s : jsstring) : list N :=
  match s with
  | [] => []
  | c :: s' =>
      match s' with
      | d :: s'' =>
          if is_high c && is_low d
          then (0x10000 + (c - 0xD800) * 0x400 + (d - 0xDC00))%N :: codePoints s''
          else c :: codePoints s'
      | [] => [c]
      end
  end.

(** The code units of a code point ([CodePointsToString]).  What is not
    a code point (a list element of [2^16] or more that is no surrogate
    pair cannot occur in a string) is left as it is from U+110000 on. *)
Definition codeUnits (cp : N) : jsstring :=
  (if (cp <? 0x10000) || (0x110000 <=? cp) then [cp]
   else [0xD800 + (cp - 0x10000) / 0x400; 0xDC00 + (cp - 0x10000) mod 0x400])%N.

(** The condition [Final_Sigma] on what follows a capital sigma: code
    points that are [Case_Ignorable], then one that is [Cased]. *)
Fixpoint followedByCased (l : list N) : bool :=
  match l with
  | [] => false
  | c :: l' => if Unicode.caseIgnorable c then followedByCased l' else Unicode.cased c
  end.

(** The lower-case mapping of a list of code points.  [before] tells
    that the code points already read end with a cased one followed by
    case-ignorable ones only.  U+03A3 (capital sigma) becomes the final
    sigma U+03C2 in the context [Final_Sigma] and U+03C3 elsewhere;
    U+0130 becomes U+0069 U+0307; every other code point has its simple
    mapping. *)
Fixpoint lowerPoints (before : bool) (l : list N) : list N :=
  match l with
  | [] => []
  | c :: l' =>
      (if (c =? 0x3A3)%N
       then [if before && negb (followedByCased l') then 0x3C2%N else 0x3C3%N]
       else if (c =? 0x130)%N then [0x69%N; 0x307%N]
       else [Unicode.lowerPoint c])
      ++ lowerPoints (if Unicode.caseIgnorable c then before else Unicode.cased c) l'
  end.

(** The code points that the mapping can put in place of a code point. *)
Definition images (c : N) : list N :=
  if (c =? 0x3A3)%N then [0x3C2%N; 0x3C3%N]
  else if (c =? 0x130)%N then [0x69%N; 0x307%N]
  else [Unicode.lowerPoint c].

(** [s.toLowerCase()]. *)
Definition toLowerCase (s : jsstring) : jsstring :=
  flat_map codeUnits (lowerPoints false (codePoints s)).

(** The capital letters of the Basic Latin, Latin-1 Supplement, Greek
    and Cyrillic blocks. *)
Definition is_capital (c : N) : bool :=
  ((0x41 <=? c) && (c <=? 0x5A)
   || (0xC0 <=? c) && (c <=? 0xDE) && negb (c =? 0xD7)
   || (0x391 <=? c) && (c <=? 0x3AB) && negb (c =? 0x3A2)
   || (0x400 <=? c) && (c <=? 0x42F))%N.

(** What holds of every code point [c] of [Unicode.lowerRuns] and its
    image [t]: the image is mapped to itself and is neither U+03A3 nor
    U+0130; it is no surrogate, lies in the plane of [c], and is neither
    white space nor a capital of [is_capital]; an image in Basic Latin
    is the small letter of the capital [c], or [k] for the Kelvin sign
    U+212A. *)
Definition image_ok (p : N * N) : bool :=
  let '(c, t) := p in
  ((Unicode.lowerPoint t =? t) && negb (t =? 0x3A3) && negb (t =? 0x130)
   && negb (is_high t || is_low t)
   && Bool.eqb (t <? 0x10000) (c <? 0x10000) && (t <? 0x110000)
   && negb (is_space t) && negb (is_capital t)
   && (if t <? 0x80 then (0x41 <=? c) && (c <=? 0x5A) && (t =? c + 32)
                         || (c =? 0x212A) && (t =? 0x6B)
       else true))%N.

(** A code point that the lower-case mapping leaves as it is, in every
    context. *)
Definition stable (x : N) : Prop :=
  Unicode.lowerPoint x = x ∧ x ≠ 0x3A3%N ∧ x ≠ 0x130%N.

(** No high surrogate is followed by a low one: what [codePoints]
    returns. *)
Fixpoint unpaired (l : list N) : Prop :=
  match l with
  | [] => True
  | c :: l' =>
      match l' with
      | d :: _ => is_high c && is_low d = false
      | [] => True
      end ∧ unpaired l'
  end.

Fixpoint dropWhile {A} (p : A → bool) (l : list A) : list A :=
  match l with
  | [] => []
  | x :: l' => if p x then dropWhile p l' else l
  end.

Definition trimStart (s : jsstring) : jsstring := dropWhile is_space s.
Definition trimEnd (s : jsstring) : jsstring := rev (dropWhile is_space (rev s)).
Definition trim (s : jsstring) : jsstring := trimEnd (trimStart s).

(** [s.slice(i, j)] of a string or an array, for [0 <= i <= j]. *)
Definition slice {A} (i j : nat) (s : list A) : list A := take (j - i) (drop i s).

(** [s.startsWith(p)]. *)
Fixpoint startsWith (p s : jsstring) : bool :=
  match p, s with
  | [], _ => true
  | _ :: _, [] => false
  | a :: p', b :: s' => (a =? b)%N && startsWith p' s'
  end.

(** [s.includes(sub)], which is also [s.indexOf(sub) !== -1]. *)
Fixpoint includes (s sub : jsstring) : bool :=
  startsWith sub s ||
  match s with
  | [] => false
  | _ :: s' => includes s' sub
  end.

Definition str_eqb (a b : jsstring) : bool := bool_decide (a = b).

(** [arr.join(sep)] on an array of strings. *)
Fixpoint join (sep : jsstring) (l : list jsstring) : jsstring :=
  match l with
  | [] => []
  | [x] => x
  | x :: l' => x ++ sep ++ join sep l'
  end.

(** [s.split(c)] for a separator of one code unit. *)
Fixpoint split_go (sep : N) (s cur : jsstring) : list jsstring :=
  match s with
  | [] => [rev cur]
  | c :: s' =>
      if (c =? sep)%N then rev cur :: split_go sep s' []
      else split_go sep s' (c :: cur)
  end.
Definition split (sep : N) (s : jsstring) : list jsstring := split_go sep s [].

(** [s.split(/C+/)] for a character class [C]: the pieces between the
    maximal runs of code units of the class ([in_sep] tells that the
    previous code unit belonged to a run). *)
Fixpoint split_runs_go (p : N → bool) (s cur : jsstring) (in_sep : bool)
    : list jsstring :=
  match s with
  | [] => [rev cur]
  | c :: s' =>
      if p c then
        if in_sep then split_runs_go p s' cur true
        else rev cur :: split_runs_go p s' [] true
      else split_runs_go p s' (c :: cur) false
  end.
Definition split_runs (p : N → bool) (s : jsstring) : list jsstring :=
  split_runs_go p s [] false.

(** [Boolean(s)] for a string, [arr.length !== 0] for an array. *)
Definition nonempty {A} (s : list A) : bool :=
  match s with [] => false | _ :: _ => true end.

(** A property that is a string when present ([None] is [undefined]). *)
Definition truthy (o : option jsstring) : bool :=
  match o with Some (_ :: _) => true | _ => false end.

(** [a || b] on such properties, and [a || "literal"]. *)
Definition or (a b : option jsstring) : option jsstring :=
  if truthy a then a else b.
Definition or_str (a : option jsstring) (d : jsstring) : jsstring :=
  match a with Some (c :: s) => c :: s | _ => d end.

(** String conversion of such a property inside a template literal. *)
Definition to_str (o : option jsstring) : jsstring :=
  match o with Some s => s | None => lit "undefined" end.

(** Decimal digits of a natural number, for [`${n}`]. *)
Fixpoint uint_str (d : Decimal.uint) : jsstring :=
  match d with
  | Decimal.Nil => []
  | Decimal.D0 d => 48%N :: uint_str d
  | Decimal.D1 d => 49%N :: uint_str d
  | Decimal.D2 d => 50%N :: uint_str d
  | Decimal.D3 d => 51%N :: uint_str d
  | Decimal.D4 d => 52%N :: uint_str d
  | Decimal.D5 d => 53%N :: uint_str d
  | Decimal.D6 d => 54%N :: uint_str d
  | Decimal.D7 d => 55%N :: uint_str d
  | Decimal.D8 d => 56%N :: uint_str d
  | Decimal.D9 d => 57%N :: uint_str d
  end.
Definition num (n : nat) : jsstring := uint_str (Nat.to_uint n).

(** [arr.map((x, i) => f x i)]. *)
Definition mapi {A B} (f : A → nat → B) (l : list A) : list B :=
  imap (λ i x, f x i) l.

(** [arr.sort(cmp)] for a consistent comparator: the sort is stable, so
    the result is the one of inserting each element, from the last to the
    first, before the first element it does not have to follow. *)
Fixpoint sort_insert {A} (cmp : A → A → Z) (x : A) (l : list A) : list A :=
  match l with
  | [] => [x]
  | y :: l' => if cmp x y <=? 0 then x :: l else y :: sort_insert cmp x l'
  end.
Definition sort {A} (cmp : A → A → Z) (l : list A) : list A :=
  foldr (sort_insert cmp) [] l.

(** [new Set(arr)] and [Array.from] of it: the distinct elements in the
    order of their first occurrence. *)
Definition Set_add (acc : list jsstring) (x : jsstring) : list jsstring :=
  if bool_decide (x ∈ acc) then acc else acc ++ [x].
Definition Set_from (l : list jsstring) : list jsstring :=
  foldl Set_add [] l.

(** The names of the properties that an object literal inherits from
    [Object.prototype]. *)
Definition inheritedKeys : list jsstring :=
  [lit "constructor"; lit "__proto__"; lit "hasOwnProperty"; lit "isPrototypeOf";
   lit "propertyIsEnumerable"; lit "toLocaleString"; lit "toString"; lit "valueOf";
   lit "__defineGetter__"; lit "__defineSetter__"; lit "__lookupGetter__";
   lit "__lookupSetter__"].

(** An object used as a counter, as in [o[k] = (o[k] || 0) + 1]: the own
    properties in creation order.  This is what the statement does for a
    key that is not in [inheritedKeys]; for an inherited name [o[k]]
    reads the inherited value in place of [undefined] and no number is
    stored. *)
Fixpoint count_key (o : list (jsstring * nat)) (k : jsstring)
    : list (jsstring * nat) :=
  match o with
  | [] => [(k, 1%nat)]
  | (k', n) :: o' =>
      if bool_decide (k' = k) then (k', S n) :: o' else (k', n) :: count_key o' k
  end.
Definition count_all (ks : list jsstring) : list (jsstring * nat) :=
  foldl count_key [] ks.

(** Value of a non-empty string of decimal digits. *)
Definition digits_value (s : jsstring) : N :=
  foldl (λ acc c, acc * 10 + (c - 48))%N 0%N s.

(** Array-index keys: canonical decimal numerals below [2^32 - 1]. *)
Definition is_array_index (s : jsstring) : bool :=
  match s with
  | [] => false
  | c :: s' =>
      forallb (λ d, (48 <=? d) && (d <=? 57))%N s
      && (negb (c =? 48)%N || negb (nonempty s'))
      && (length s <=? 10)%nat
      && (digits_value s <? 4294967295)%N
  end.

(** [Object.entries(o)]: array-index keys first, in ascending numeric
    order, then the other keys in creation order. *)
Definition entries (o : list (jsstring * nat)) : list (jsstring * nat) :=
  sort (λ a b, Z.of_N (digits_value a.1) - Z.of_N (digits_value b.1))
       (filter (λ e, is_array_index e.1 = true) o)
  ++ filter (λ e, is_array_index e.1 ≠ true) o.

End JS.

(** ** Rate limiter ([withinLimit] of hfChat.js and hfChat.ts)

    The two callables carry the same function and differ in [MAX_REQ]
    only.  [buckets] is the module-level object indexed by user id; it is
    a finite map from user ids to arrays of timestamps (user ids are
    authentication ids or ["anonymous"], never names of properties
    inherited from [Object.prototype]).  [Date.now()] is an argument. *)

Module RateLimiter.

Inductive variant : Set := RuleBased | HuggingFace.

Definition WINDOW_MS : Z := 60000.

Definition MAX_REQ (v : variant) : nat :=
  match v with
  | RuleBased => 20%nat
  | HuggingFace => 15%nat
  end.

Definition withinLimit (v : variant) (now : Z) (uid : jsstring)
    (buckets : gmap jsstring (list Z)) : bool * gmap jsstring (list Z) :=
  let arr := default [] (buckets !! uid) in
  let recent := filter (λ t, now - t < WINDOW_MS) arr in
  if decide (MAX_REQ v ≤ length recent)%nat
  then (false, <[uid := recent]> buckets)
  else (true, <[uid := recent ++ [now]]> buckets).

(** What [buckets[uid] || []] reads. *)
Definition bucket (buckets : gmap jsstring (list Z)) (uid : jsstring) : list Z :=
  default [] (buckets !! uid).

(** A call is a user id together with the clock reading of that call. *)
Definition call : Type := jsstring * Z.

(** Serving a sequence of calls: the answers and the final map. *)
Fixpoint run (v : variant) (tr : list call) (buckets : gmap jsstring (list Z))
    : list bool * gmap jsstring (list Z) :=
  match tr with
  | [] => ([], buckets)
  | (uid, now) :: tr' =>
      let r := withinLimit v now uid buckets in
      let rs := run v tr' r.2 in
      (r.1 :: rs.1, rs.2)
  end.

(** The map after a history of calls served by a fresh process. *)
Definition after (v : variant) (tr : list call) : gmap jsstring (list Z) :=
  (run v tr ∅).2.

(** Clock readings of the calls of [uid] in a sequence, in order. *)
Definition times_of (uid : jsstring) (tr : list call) : list Z :=
  map snd (filter (λ c : call, c.1 = uid) tr).

(** Every call of [uid] in [tr], served from [buckets], is accepted. *)
Fixpoint all_accepted (v : variant) (uid : jsstring) (tr : list call)
    (buckets : gmap jsstring (list Z)) : bool :=
  match tr with
  | [] => true
  | (u, now) :: tr' =>
      let r := withinLimit v now u buckets in
      (if decide (u = uid) then r.1 else true) && all_accepted v uid tr' r.2
  end.

(** The clock never goes back along a sequence of readings. *)
Fixpoint monotone (ts : list Z) : bool :=
  match ts with
  | [] => true
  | t :: ts' => forallb (Z.leb t) ts' && monotone ts'
  end.

(** Every reading of [ts] is less than one window before [now]. *)
Definition all_within (now : Z) (ts : list Z) : bool :=
  forallb (λ t, now - t <? WINDOW_MS) ts.

(** The entries of [arr] that [arr.filter((t) => now - t < WINDOW_MS)]
    keeps. *)
Definition recent_of (now : Z) (arr : list Z) : list Z :=
  filter (λ t, now - t < WINDOW_MS) arr.

(** No bucket holds more than [MAX_REQ] timestamps. *)
Definition capped (v : variant) (buckets : gmap jsstring (list Z)) : Prop :=
  ∀ uid, (length (bucket buckets uid) ≤ MAX_REQ v)%nat.

(** No timestamp of any bucket is later than [m]. *)
Definition not_after (m : Z) (buckets : gmap jsstring (list Z)) : Prop :=
  ∀ uid t, t ∈ bucket buckets uid → t ≤ m.

End RateLimiter.

(** ** Documents, the document store and exceptions *)

(** A property that is a number when it is one ([duration]). *)
Inductive num_field : Set :=
  | Absent                (* [undefined] or [null] *)
  | Num (z : Z)           (* [typeof x === "number"] *)
  | NotNumber.            (* any other value *)

(** [x == null] and [typeof x === "number"]. *)
Definition isNullish (x : num_field) : bool :=
  match x with Absent => true | _ => false end.
Definition isNumber (x : num_field) : bool :=
  match x with Num _ => true | _ => false end.

(** A clip document as [{ id: d.id, ...d.data() }].  A string property is
    [None] when it is missing. *)
Record clip : Type := {
  clipId : jsstring;
  customTitle : option jsstring;
  title : option jsstring;
  description : option jsstring;
  originalUrl : option jsstring;
  watchUrl : option jsstring;
  videoSite : option jsstring;
  tags : option (list jsstring);
  playlistIds : option (list jsstring);
  createdAt : option Z;
  duration : num_field;
  watched : bool;
}.

Record playlist : Type := {
  playlistId : jsstring;
  name : option jsstring;
}.

(** A clip document with the given id and title and nothing else. *)
Definition titledClip (i : jsstring) (t : option jsstring) : clip :=
  {| clipId := i; customTitle := t; title := None; description := None;
     originalUrl := None; watchUrl := None; videoSite := None; tags := None;
     playlistIds := None; createdAt := None; duration := Absent;
     watched := false |}.

(** A computation that returns a value or throws. *)
Inductive result (A : Type) : Type :=
  | Ok (a : A)
  | Throw (e : jsstring).
Arguments Ok {A} a.
Arguments Throw {A} e.

#[global] Instance result_ret : MRet result := λ A a, Ok a.
#[global] Instance result_bind : MBind result := λ A B f m,
  match m with
  | Ok a => f a
  | Throw e => Throw e
  end.

(** [try { m } catch (e) { h e }]. *)
Definition try_catch {A} (m : result A) (h : jsstring → result A) : result A :=
  match m with
  | Ok a => Ok a
  | Throw e => h e
  end.

(** The reads of the document store that the assistants perform.  Each
    one is an awaited request that resolves or rejects. *)
Record Firestore : Type := {
  (** [users/{uid}/playlists/{pid}]: the document data, [None] when the
      document does not exist. *)
  get_playlist : jsstring → jsstring → result (option playlist);
  (** [users/{uid}/clips] where [playlistIds] contains [pid], ordered by
      [createdAt] descending, at most [limit] documents. *)
  get_playlist_clips : jsstring → jsstring → nat → result (list clip);
  (** [users/{uid}/clips] ordered by [createdAt] descending, at most
      [limit] documents. *)
  get_clips : jsstring → nat → result (list clip);
}.

(** What a callable hands back to the client. *)
Inductive response : Type :=
  | Reply (reply : jsstring)
  | Error (error : jsstring).

(** Code units that the literals of the sources need besides ASCII text. *)
Definition nl : jsstring := [10%N].
Definition quote : jsstring := [34%N].
Definition emdash : jsstring := [8212%N].
Definition ellipsis : jsstring := [8230%N].

(** ** The rule-based callable (Backup/functions/hfChat.js) *)

Module RuleBasedChat.
Import JS.

(** [(s || "").toString().toLowerCase()]. *)
Definition normalize (s : jsstring) : jsstring := toLowerCase s.

Definition scoreText (query text : jsstring) : nat :=
  if negb (nonempty query) || negb (nonempty text) then 0%nat
  else
    let q := filter (λ w, nonempty w = true) (split_runs is_space (normalize query)) in
    let t := normalize text in
    length (filter (λ w, includes t w = true) q).

Definition shortText (s : jsstring) (n : nat) : jsstring :=
  if negb (nonempty s) then []
  else if (length s <=? n)%nat then s
  else trim (slice 0 n s) ++ lit "...".

(** [fetchPlaylistClips(uid, playlistId, limit)]. *)
Definition fetchPlaylistClips (db : Firestore) (uid : jsstring)
    (pid : option jsstring) (limit : nat) : result (list clip) :=
  match pid with
  | Some (c :: p) =>
      if negb (nonempty uid) then Ok []
      else try_catch (get_playlist_clips db uid (c :: p) limit) (λ _, Ok [])
  | _ => Ok []
  end.

Inductive intent : Set := summarize | recommend | quiz | plan | search.

Definition detectIntent (message : jsstring) : intent :=
  let m := normalize message in
  if includes m (lit "summar") || includes m (lit "overview")
     || includes m (lit "summary") then summarize
  else if includes m (lit "recommend") || includes m (lit "next")
     || includes m (lit "what next") || includes m (lit "suggest") then recommend
  else if includes m (lit "quiz") || includes m (lit "question")
     || includes m (lit "test me") then quiz
  else if includes m (lit "plan") || includes m (lit "study plan") then plan
  else if includes m (lit "find") || includes m (lit "search")
     || includes m (lit "which") || includes m (lit "where")
     || includes m (lit "?") then search
  else search.

(** [c.customTitle || c.title]. *)
Definition anyTitle (c : clip) : option jsstring := or (customTitle c) (title c).

Definition summarizeClips (clips : list clip) : jsstring :=
  match clips with
  | [] => lit "No clips found in this playlist."
  | _ :: _ =>
      let top := slice 0 5 clips in
      let bullets :=
        mapi (λ c i,
          num (i + 1) ++ lit ". "
          ++ or_str (anyTitle c) (shortText (or_str (originalUrl c) (lit "Untitled")) 40)
          ++ lit " " ++ emdash ++ lit " "
          ++ shortText (or_str (description c) []) 120) top in
      let titles := join (lit " ") (map (λ c, or_str (anyTitle c) []) top) in
      let words :=
        filter (λ w, (3 < length w)%nat)
               (split_runs (λ c, negb (is_word c)) (toLowerCase titles)) in
      let freq := count_all words in
      let topWords :=
        map fst (slice 0 3 (sort (λ a b, Z.of_nat b.2 - Z.of_nat a.2) (entries freq))) in
      lit "This playlist covers: "
      ++ (if (0 <? length topWords)%nat then join (lit ", ") topWords
          else lit "various topics")
      ++ lit ". Key videos:" ++ nl ++ join nl bullets
  end.

Definition recommendClip (clips : list clip) (previousTitles : list jsstring)
    : option clip :=
  match clips with
  | [] => None
  | c0 :: _ =>
      let lowerPrev := map normalize previousTitles in
      match
        find (λ c, negb (bool_decide (normalize (or_str (anyTitle c) []) ∈ lowerPrev)))
             clips
      with
      | Some c => Some c
      | None => Some c0
      end
  end.

Definition generateQuiz (clips : list clip) (n : nat) : list jsstring :=
  match clips with
  | [] => [lit "No clips available for quiz."]
  | _ :: _ =>
      let top := slice 0 (Nat.min n (length clips)) clips in
      map (λ c,
        lit "What is the main topic of " ++ quote
        ++ shortText (or_str (anyTitle c) (lit "Untitled")) 60 ++ quote ++ lit "?") top
  end.

(** The text that [searchClips] scores a clip on. *)
Definition searchText (c : clip) : jsstring :=
  or_str (anyTitle c) [] ++ lit " " ++ or_str (description c) [].

Definition searchClips (clips : list clip) (query : jsstring) (limit : nat)
    : list clip :=
  let scored :=
    filter (λ x : clip * nat, (0 < x.2)%nat)
           (map (λ c, (c, scoreText query (searchText c))) clips) in
  let sorted := slice 0 limit (sort (λ a b, Z.of_nat b.2 - Z.of_nat a.2) scored) in
  map fst sorted.

(** The score of a clip for a query. *)
Definition score_of (query : jsstring) (c : clip) : nat :=
  scoreText query (searchText c).

(** The words of a query: its maximal runs of code units that are not
    white space, after lower-casing. *)
Definition queryWords (query : jsstring) : list jsstring :=
  filter (λ w, nonempty w = true) (split_runs is_space (toLowerCase query)).

(** The elements of an array with their positions, from position [k]. *)
Fixpoint number_from {A} (k : nat) (l : list A) : list (nat * A) :=
  match l with
  | [] => []
  | x :: l' => (k, x) :: number_from (S k) l'
  end.

(** A clip at position [a.1] comes before a clip at position [b.1] in the
    ranking: its score is higher, or the scores are equal and it comes
    first in the list that was loaded. *)
Definition ranks_before (query : jsstring) (a b : nat * clip) : Prop :=
  (score_of query b.2 < score_of query a.2)%nat ∨
  (score_of query a.2 = score_of query b.2 ∧ (a.1 < b.1)%nat).

(** The text that the specification says a clip is scored on: title,
    description and tags. *)
Definition specSearchText (c : clip) : jsstring :=
  or_str (anyTitle c) [] ++ lit " " ++ or_str (description c) []
  ++ lit " " ++ join (lit " ") (default [] (tags c)).

(** One day of the study plan: [items.slice(i, j).map(...).join(", ")]. *)
Definition planDay (items : list clip) (i j : nat) : jsstring :=
  join (lit ", ")
    (mapi (λ c k, num (k + 1) ++ lit ". " ++ or_str (anyTitle c) (lit "Untitled"))
          (slice i j items)).

(** [s || "No clips"]. *)
Definition orNoClips (s : jsstring) : jsstring :=
  if nonempty s then s else lit "No clips".

Definition fallback : jsstring :=
  lit "I couldn't find direct matches. Try asking:" ++ nl
  ++ lit "- " ++ quote ++ lit "summarize playlist" ++ quote ++ nl
  ++ lit "- " ++ quote ++ lit "recommend next" ++ quote ++ nl
  ++ lit "- " ++ quote ++ lit "quiz me" ++ quote ++ nl
  ++ lit "Or include keywords from the video title or description.".

(** The body of the [try] block of the callable: the answer to [message]
    over the clips that were loaded. *)
Definition respond (message : jsstring) (clips : list clip) : response :=
  match detectIntent message with
  | summarize => Reply (summarizeClips clips)
  | recommend =>
      match recommendClip clips [] with
      | None => Reply (lit "No clips found to recommend.")
      | Some rec =>
          Reply (lit "Recommended: "
                 ++ to_str (or (anyTitle rec) (originalUrl rec)) ++ nl ++ nl
                 ++ shortText (or_str (description rec) (lit "No description")) 300
                 ++ nl ++ nl ++ lit "Link: " ++ or_str (originalUrl rec) (lit "N/A"))
      end
  | quiz =>
      let qs := generateQuiz clips 5 in
      Reply (lit "Quiz:" ++ nl
             ++ join nl (mapi (λ x i, num (i + 1) ++ lit ". " ++ x) qs))
  | plan =>
      let items := slice 0 6 clips in
      Reply (join nl
        [ lit "Study plan for this playlist (" ++ num (length items) ++ lit " clips):";
          lit "Day 1: Watch " ++ planDay items 0 2;
          lit "Day 2: Watch " ++ orNoClips (planDay items 2 4);
          lit "Day 3: Watch " ++ orNoClips (planDay items 4 6);
          lit "Tip: Take notes and try a short recap after each video." ])
  | search =>
      let matches := searchClips clips message 5 in
      if nonempty clips && nonempty matches then
        let lines :=
          mapi (λ c i,
            num (i + 1) ++ lit ". " ++ or_str (anyTitle c) (lit "Untitled")
            ++ lit " " ++ emdash ++ lit " "
            ++ shortText (or_str (description c) []) 160 ++ nl
            ++ lit "Link: " ++ or_str (originalUrl c) (lit "N/A")) matches in
        Reply (lit "Found " ++ num (length matches) ++ lit " relevant clips:"
               ++ nl ++ nl ++ join (nl ++ nl) lines)
      else Reply fallback
  end.

(** [exports.hfChat]: [auth_uid] is [context.auth.uid], [message] and
    [pid] are [data.message] and [data.playlistId]. *)
Definition hfChat (db : Firestore) (now : Z) (buckets : gmap jsstring (list Z))
    (auth_uid message pid : option jsstring)
    : result response * gmap jsstring (list Z) :=
  let uid := or_str auth_uid (lit "anonymous") in
  let lim := RateLimiter.withinLimit RateLimiter.RuleBased now uid buckets in
  if negb lim.1 then (Ok (Error (lit "Rate limit exceeded. Try again shortly.")), lim.2)
  else
    let message := or_str message [] in
    if negb (nonempty message) || (length (trim message) =? 0)%nat
    then (Ok (Error (lit "Empty message")), lim.2)
    else
      (clips ← (if truthy pid then fetchPlaylistClips db uid pid 25 else Ok []);
       Ok (respond message clips),
       lim.2).

(** The answer of the plan branch when no clip was loaded. *)
Definition emptyPlan : jsstring :=
  lit "Study plan for this playlist (0 clips):" ++ nl
  ++ lit "Day 1: Watch " ++ nl
  ++ lit "Day 2: Watch No clips" ++ nl
  ++ lit "Day 3: Watch No clips" ++ nl
  ++ lit "Tip: Take notes and try a short recap after each video.".

End RuleBasedChat.

(** ** The Hugging Face callable (unnamed/part_001, functions/src/hfChat.ts), up to the
       request to the model *)

Module HuggingFaceChat.
Import JS.

Definition buildPlaylistContext (db : Firestore) (uid : jsstring)
    (pid : option jsstring) : result jsstring :=
  match pid with
  | Some (p0 :: p) =>
      if negb (nonempty uid) then Ok []
      else
        try_catch
          (pl ← get_playlist db uid (p0 :: p);
           clips ← get_playlist_clips db uid (p0 :: p) 12;
           let lines :=
             mapi (λ c i,
               num (i + 1) ++ lit ". " ++ to_str (or (customTitle c) (originalUrl c))
               ++ lit " " ++ emdash ++ lit " "
               ++ slice 0 80 (or_str (description c) [])) clips in
           let plName := or_str (pl ≫= name) [] in
           if negb (nonempty lines)
           then Ok (lit "Playlist: " ++ plName ++ nl ++ lit "(no clips)" ++ nl ++ nl)
           else Ok (lit "Playlist: " ++ plName ++ nl ++ join nl lines ++ nl ++ nl))
          (λ _, Ok [])
  | _ => Ok []
  end.

Definition systemNote : jsstring :=
  lit "You are ClipBook AI Assistant. Use the playlist context when provided. Be concise, helpful, and reference video titles when relevant.".

(** The prompt sent to the model. *)
Definition prompt (playlistContext message : jsstring) : jsstring :=
  systemNote ++ nl ++ nl ++ playlistContext ++ lit "User: " ++ message ++ nl
  ++ lit "Assistant:".

(** The callable stops with a response or goes on to ask the model. *)
Inductive step : Type :=
  | Respond (r : response)
  | CallModel (prompt : jsstring).

(** [hfChat] up to the request to the model. *)
Definition hfChat (db : Firestore) (now : Z) (buckets : gmap jsstring (list Z))
    (auth_uid message pid : option jsstring)
    : result step * gmap jsstring (list Z) :=
  let uid := or_str auth_uid (lit "anonymous") in
  let lim := RateLimiter.withinLimit RateLimiter.HuggingFace now uid buckets in
  if negb lim.1
  then (Ok (Respond (Error (lit "Rate limit exceeded. Try again later."))), lim.2)
  else
    let message := or_str message [] in
    if negb (nonempty message) || (length (trim message) =? 0)%nat
    then (Ok (Respond (Error (lit "Empty message"))), lim.2)
    else
      (playlistContext ← buildPlaylistContext db uid (if truthy pid then pid else None);
       Ok (CallModel (prompt playlistContext message)),
       lim.2).

End HuggingFaceChat.

(** A store none of whose reads succeeds. *)
Definition failingStore : Firestore :=
  {| get_playlist := λ _ _, Throw (lit "unavailable");
     get_playlist_clips := λ _ _ _, Throw (lit "unavailable");
     get_clips := λ _ _, Throw (lit "unavailable") |}.

(** ** The browser assistant (clipbook/src/ChatAI_free.jsx) *)

Module FreeChat.
Import JS.

(** [shortText(text, max)], for [max >= 1] as at every call. *)
Definition shortText (text : option jsstring) (max : nat) : jsstring :=
  match text with
  | Some (c :: t) =>
      if (max <? length (c :: t))%nat then slice 0 (max - 1) (c :: t) ++ ellipsis
      else c :: t
  | _ => []
  end.

Definition stopWords : list jsstring :=
  split 44 (lit "the,is,in,and,to,of,for,with,on,by,an,be").

Definition extractKeywordsFromTitle (title : jsstring) : list jsstring :=
  if negb (nonempty title) then []
  else
    let cleaned :=
      map (λ c, if ((97 <=? c) && (c <=? 122) || (48 <=? c) && (c <=? 57))%N
                   || is_space c then c else 32%N)
          (toLowerCase title) in
    slice 0 6
      (filter (λ w, (3 < length w)%nat ∧ w ∉ stopWords)
              (split_runs is_space cleaned)).

(** [fetchPlaylistContext(uid, pid)]: the playlist and its clips. *)
Definition fetchPlaylistContext (db : Firestore) (uid pid : option jsstring)
    : result (option playlist * list clip) :=
  match uid, pid with
  | Some (u0 :: u), Some (p0 :: p) =>
      try_catch
        (pl ← get_playlist db (u0 :: u) (p0 :: p);
         clips ← get_playlist_clips db (u0 :: u) (p0 :: p) 200;
         Ok (pl, clips))
        (λ _, Ok (None, []))
  | _, _ => Ok (None, [])
  end.

Definition helpText : jsstring :=
  lit "I can:" ++ nl
  ++ lit "- Summarize a playlist: " ++ quote ++ lit "summarize playlist" ++ quote ++ nl
  ++ lit "- Recommend next: " ++ quote ++ lit "recommend next" ++ quote ++ nl
  ++ lit "- Create a study plan: " ++ quote ++ lit "study plan" ++ quote ++ nl
  ++ lit "- Make a quiz: " ++ quote ++ lit "quiz me" ++ quote ++ nl
  ++ lit "Select a playlist in the UI first for playlist-specific answers.".

Definition durationOf (c : clip) : Z :=
  match duration c with Num z => z | _ => 0 end.

(** The clip that the recommend branch settles on ([candidate]); [None]
    stands for [undefined], which only an empty list gives. *)
Definition candidate (clips : list clip) : option clip :=
  let first :=
    match find (λ c, negb (watched c)) clips with
    | Some c => Some c
    | None => head clips
    end in
  if negb (forallb (λ c, isNullish (duration c)) clips)
  then
    let withDur := filter (λ c, isNumber (duration c) = true) clips in
    match sort (λ a b, durationOf a - durationOf b) withDur with
    | shortOne :: _ => if negb (watched shortOne) then Some shortOne else first
    | [] => first
    end
  else first.

(** The guards shared by the playlist branches. *)
Definition withPlaylist (db : Firestore) (uid pid : option jsstring)
    (k : option playlist → list clip → jsstring) : result jsstring :=
  if negb (truthy uid) then Ok (lit "Sign in to use playlist features.")
  else if negb (truthy pid)
  then Ok (lit "No playlist selected. Select a playlist and try again.")
  else
    ctx ← fetchPlaylistContext db uid pid;
    Ok (k ctx.1 ctx.2).

(** [handleMessageRaw(text)]; [uid] is [auth.currentUser?.uid] and [pid]
    the [playlistId] property of the component. *)
Definition handleMessageRaw (db : Firestore) (uid pid : option jsstring)
    (text : jsstring) : result jsstring :=
  let msg := toLowerCase (trim text) in
  if str_eqb msg (lit "help") || str_eqb msg (lit "what can you do")
  then Ok helpText
  else if includes msg (lit "playlist") || includes msg (lit "summarize")
          || includes msg (lit "what's in") || includes msg (lit "what is in")
  then
    withPlaylist db uid pid (λ pl clips,
      match pl with
      | None => lit "Playlist not found or empty."
      | Some pl =>
          if negb (nonempty clips)
          then lit "Playlist " ++ quote ++ to_str (name pl) ++ quote ++ lit " looks empty."
          else
            let lines :=
              mapi (λ c i,
                num (i + 1) ++ lit ". "
                ++ or_str (customTitle c) (shortText (originalUrl c) 40)
                ++ lit " " ++ emdash ++ lit " "
                ++ shortText (Some (or_str (description c) [])) 80)
                (slice 0 12 clips) in
            lit "Playlist " ++ quote ++ to_str (name pl) ++ quote ++ lit " " ++ emdash
            ++ lit " " ++ num (length clips) ++ lit " video(s):" ++ nl ++ join nl lines
      end)
  else if includes msg (lit "recommend") || includes msg (lit "next")
          || includes msg (lit "what to watch")
  then
    withPlaylist db uid pid (λ _ clips,
      match candidate clips with
      | None => lit "Playlist empty."
      | Some c =>
          lit "Recommended next: "
          ++ or_str (customTitle c) (shortText (originalUrl c) 60) ++ nl
          ++ lit "Open: " ++ or_str (or (watchUrl c) (originalUrl c)) (lit "No link available")
      end)
  else if includes msg (lit "study plan") || includes msg (lit "order")
          || includes msg (lit "learning path")
  then
    withPlaylist db uid pid (λ pl clips,
      if negb (nonempty clips) then lit "Playlist empty."
      else
        let ordered :=
          sort (λ a b, default 0 (createdAt a) - default 0 (createdAt b)) clips in
        let planLines :=
          mapi (λ c i,
            num (i + 1) ++ lit ". "
            ++ or_str (customTitle c) (shortText (originalUrl c) 60))
            (slice 0 20 ordered) in
        lit "Study plan for " ++ quote ++ or_str (pl ≫= name) (lit "playlist") ++ quote
        ++ lit ":" ++ nl ++ join nl planLines)
  else if includes msg (lit "quiz") || includes msg (lit "question")
          || includes msg (lit "quiz me")
  then
    withPlaylist db uid pid (λ _ clips,
      if negb (nonempty clips) then lit "Playlist empty."
      else
        let qs :=
          mapi (λ c i,
            let t := or_str (customTitle c) [] in
            let kw :=
              match extractKeywordsFromTitle t with
              | k :: _ => k
              | [] => or_str (head (split 32 t)) (lit "topic")
              end in
            num (i + 1) ++ lit ". What is the main idea of " ++ quote
            ++ shortText (Some t) 60 ++ quote ++ lit "? (Hint: " ++ kw ++ lit ")")
            (slice 0 6 clips) in
        lit "Quick quiz (short answers):" ++ nl ++ join nl qs)
  else if (2 <? length msg)%nat
  then
    if negb (truthy uid) then Ok (lit "Sign in to search your clips.")
    else
      clips ← get_clips db (or_str uid []) 200;
      let matches :=
        filter (λ c,
          includes (toLowerCase (or_str (customTitle c) []) ++ lit " "
                    ++ toLowerCase (or_str (description c) [])) msg = true
          ∨ Exists (λ tg, includes (toLowerCase tg) msg = true) (default [] (tags c)))
          clips in
      if negb (nonempty matches) then Ok (lit "No matching clips found in your library.")
      else
        let list :=
          mapi (λ c i,
            num (i + 1) ++ lit ". "
            ++ or_str (customTitle c) (shortText (originalUrl c) 60)
            ++ lit " " ++ emdash ++ lit " "
            ++ shortText (Some (or_str (description c) [])) 80 ++ nl
            ++ lit "Open: " ++ or_str (or (watchUrl c) (originalUrl c)) [])
            (slice 0 8 matches) in
        Ok (lit "Found " ++ num (length matches) ++ lit " matching clip(s):" ++ nl
            ++ join (nl ++ nl) list)
  else Ok (lit "I didn't understand that. Try: 'summarize playlist', 'recommend next', 'study plan', or 'quiz me'.").

(** The clips of the example: only [title], [duration] and [watched] are
    set. *)
Definition exampleClip (t : jsstring) (d : num_field) : clip :=
  {| clipId := t; customTitle := None; title := Some t; description := None;
     originalUrl := None; watchUrl := None; videoSite := None; tags := None;
     playlistIds := None; createdAt := None; duration := d; watched := false |}.

(** A saved clip with a title, a duration and a link. *)
Definition savedClip (t : jsstring) (d : num_field) (url : jsstring) : clip :=
  {| clipId := t; customTitle := Some t; title := None; description := None;
     originalUrl := Some url; watchUrl := Some url; videoSite := None;
     tags := None; playlistIds := None; createdAt := None; duration := d;
     watched := false |}.

(** A store whose playlist [pid] of user [uid] holds the given clips. *)
Definition storeWith (clips : list clip) : Firestore :=
  {| get_playlist := λ _ pid, Ok (Some {| playlistId := pid; name := Some (lit "My list") |});
     get_playlist_clips := λ _ _ limit, Ok (take limit clips);
     get_clips := λ _ limit, Ok (take limit clips) |}.

End FreeChat.

(** A saved clip that has been watched. *)
Definition seenClip (t : jsstring) (d : num_field) (url : jsstring) : clip :=
  {| clipId := t; customTitle := Some t; title := None; description := None;
     originalUrl := Some url; watchUrl := Some url; videoSite := None;
     tags := None; playlistIds := None; createdAt := None; duration := d;
     watched := true |}.

(** Two positions of a playlist, said on the list: the first unwatched
    clip, and the earliest clip among those of smallest numeric
    duration. *)
Definition first_unwatched (clips : list clip) (u : clip) : Prop :=
  ∃ i, clips !! i = Some u ∧ watched u = false ∧
    ∀ j c, clips !! j = Some c → (j < i)%nat → watched c = true.
Definition shortest_numeric (clips : list clip) (s : clip) : Prop :=
  ∃ i d, clips !! i = Some s ∧ duration s = Num d ∧
    ∀ j c d', clips !! j = Some c → duration c = Num d' →
      d ≤ d' ∧ ((j < i)%nat → d < d').

(** A saved clip with a title and tags, and nothing else. *)
Definition taggedClip (t : jsstring) (tgs : list jsstring) : clip :=
  {| clipId := t; customTitle := Some t; title := None; description := None;
     originalUrl := None; watchUrl := None; videoSite := None; tags := Some tgs;
     playlistIds := None; createdAt := None; duration := Absent; watched := false |}.

(** ** The profile context of the chat component (src/ChatAI_HF.jsx) *)

Module ProfileContext.
Import JS.

Record user : Type := {
  displayName : option jsstring;
  email : option jsstring;
  uid : jsstring;
}.

(** [truncate(s, n)] on a string. *)
Definition truncate (s : jsstring) (n : nat) : jsstring :=
  if (n <? length s)%nat
  then match n with
       | O => slice 0 (length s - 1) s        (* [s.slice(0, -1)] *)
       | S m => slice 0 m s
       end ++ ellipsis
  else s.

(** The suffix that marks a context that was cut. *)
Definition truncationMarker : jsstring := nl ++ ellipsis ++ lit "(truncated)".

Section WithLocale.

(** [new Date(ts).toLocaleString()], which depends on the locale of the
    browser. *)
Variable toLocaleString : Z → jsstring.

Definition fmtDate (ts : option Z) : jsstring :=
  match ts with
  | None | Some 0 => lit "unknown"
  | Some t => toLocaleString t
  end.

(** The two lines that [out] gets for one sample clip. *)
Definition sampleLines (c : clip) : jsstring :=
  let sc_title :=
    truncate (or_str (or (customTitle c) (originalUrl c)) (lit "No title")) 140 in
  let sc_watchUrl := or_str (or (watchUrl c) (originalUrl c)) [] in
  let sc_createdAt := fmtDate (createdAt c) in
  let sc_playlists := join (lit ",") (default [] (playlistIds c)) in
  let sc_tags := join (lit ",") (default [] (tags c)) in
  let sc_desc := truncate (or_str (description c) []) 240 in
  lit "- [" ++ clipId c ++ lit "] Title: " ++ sc_title ++ lit "; Date: " ++ sc_createdAt
  ++ lit "; Playlists: " ++ sc_playlists ++ lit "; Tags: " ++ sc_tags
  ++ lit "; URL: " ++ sc_watchUrl ++ nl
  ++ (if nonempty sc_desc then lit "  Desc: " ++ sc_desc ++ nl else []).

(** [s || "none"]. *)
Definition orNone (s : jsstring) : jsstring :=
  if nonempty s then s else lit "none".

(** The text [out] that [buildProfileContext] assembles before the cap. *)
Definition renderProfile (u : user) (clips : list clip) (playlists : list playlist)
    : jsstring :=
  let totalClips := length clips in
  let totalPlaylists := length playlists in
  let siteCounts := count_all (map (λ c, or_str (videoSite c) (lit "unknown")) clips) in
  let tagCounts := count_all (concat (map (λ c, default [] (tags c)) clips)) in
  let topTags :=
    map (λ e : jsstring * nat, e.1 ++ lit "(" ++ num e.2 ++ lit ")")
        (slice 0 6 (sort (λ a b, Z.of_nat b.2 - Z.of_nat a.2) (entries tagCounts))) in
  let playlistNames := slice 0 20 (map (λ p, default [] (name p)) playlists) in
  let sampleClips :=
    slice 0 12
      (sort (λ a b, default 0 (createdAt b) - default 0 (createdAt a)) clips) in
  lit "User: " ++ to_str (or (or (displayName u) (email u)) (Some (uid u))) ++ nl
  ++ lit "TotalClips: " ++ num totalClips ++ lit "; Playlists: " ++ num totalPlaylists
  ++ lit ";" ++ nl
  ++ lit "BySite: "
  ++ orNone (join (lit ", ")
               (map (λ e : jsstring * nat, e.1 ++ lit ":" ++ num e.2) (entries siteCounts)))
  ++ nl
  ++ lit "TopTags: " ++ orNone (join (lit ", ") topTags) ++ nl
  ++ lit "Playlists: " ++ orNone (join (lit " | ") playlistNames) ++ nl
  ++ lit "SampleClips:" ++ nl
  ++ concat (map sampleLines sampleClips).

Definition buildProfileContext (u : option user) (clips : list clip)
    (playlists : list playlist) : jsstring :=
  match u with
  | None => lit "No user logged in."
  | Some u =>
      let out := renderProfile u clips playlists in
      if 18000 <? Z.of_nat (length out)
      then slice 0 (Z.to_nat 17900) out ++ truncationMarker
      else out
  end.

End WithLocale.

(** [fullPrompt] of [callProxy]: the context is cut once more, to 16000
    code units, where it enters the prompt. *)
Definition fullPrompt (profileContext prompt : jsstring) : jsstring :=
  lit "Context:" ++ nl ++ truncate profileContext (Z.to_nat 16000) ++ nl ++ nl
  ++ lit "UserQuestion:" ++ nl ++ prompt ++ nl ++ nl ++ lit "Assistant:".

(** A user whose display name is 20000 letters long. *)
Definition longNamedUser : user :=
  {| displayName := Some (repeat 97%N (Z.to_nat 20000)); email := None;
     uid := lit "u1" |}.

(** A clip with a long description. *)
Definition longDescClip : clip :=
  {| clipId := lit "c1"; customTitle := Some (lit "Lecture 1"); title := None;
     description := Some (repeat 98%N 300); originalUrl := Some (lit "https://youtu.be/abc");
     watchUrl := None; videoSite := Some (lit "youtube"); tags := Some [lit "lecture"];
     playlistIds := Some [lit "p1"]; createdAt := Some 1700000000000;
     duration := Absent; watched := false |}.

End ProfileContext.

(** ** Embed information of a link ([getEmbedInfo] of unnamed/part_002,
       src/Dashboard.jsx) *)

Module Embed.
Import JS.

(** What the function reads of [new URL(url)]. *)
Record URL : Type := {
  hostname : jsstring;
  pathname : jsstring;
  searchParams : list (jsstring * jsstring);
}.

Record embedInfo : Type := {
  site : jsstring;
  embedUrl : option jsstring;
  embedable : bool;
  watchUrl : option jsstring;
}.

(** [u.searchParams.get(k)]: the first value of the name, if any. *)
Definition searchParams_get (u : URL) (k : jsstring) : option jsstring :=
  snd <$> find (λ kv : jsstring * jsstring, str_eqb kv.1 k) (searchParams u).

(** [u.pathname.split("/").filter(Boolean)]. *)
Definition pathSegments (u : URL) : list jsstring :=
  filter (λ seg, nonempty seg = true) (split 47 (pathname u)).

(** A line terminator, which [.] does not match. *)
Definition is_line_terminator (c : N) : bool :=
  ((c =? 10) || (c =? 13) || (c =? 8232) || (c =? 8233))%N.

(** The rest of the input after the dot: one of the extensions mp4, webm
    and ogg without regard to case, then the end of the input or a
    question mark followed by code units that [.] matches up to the
    end. *)
Definition extension_to_end (s : jsstring) : bool :=
  existsb (λ ext,
    str_eqb (toLowerCase (take (length ext) s)) ext &&
    match drop (length ext) s with
    | [] => true
    | c :: rest => (c =? 63)%N && forallb (λ d, negb (is_line_terminator d)) rest
    end) [lit "mp4"; lit "webm"; lit "ogg"].

(** [url.match(...)] with the pattern of a direct video file finds a
    match: a dot somewhere, followed as [extension_to_end] says. *)
Fixpoint is_video_file (url : jsstring) : bool :=
  match url with
  | [] => false
  | c :: s => (c =? 46)%N && extension_to_end s || is_video_file s
  end.

(** A sequence of guarded [return]s: the value of the first block that
    returns, or of the final [return]. *)
Fixpoint first_return {A} (blocks : list (option A)) (final : A) : A :=
  match blocks with
  | [] => final
  | Some x :: _ => x
  | None :: rest => first_return rest final
  end.

Section WithURL.

(** [new URL(url)]; [None] when the constructor throws. *)
Variable parseURL : jsstring → option URL.

Definition getEmbedInfo (rawUrl : jsstring) : embedInfo :=
  if negb (nonempty rawUrl)
  then {| site := lit "unknown"; embedUrl := None; embedable := false; watchUrl := None |}
  else
    let url := trim rawUrl in
    match parseURL url with
    | None =>
        {| site := lit "invalid"; embedUrl := None; embedable := false; watchUrl := None |}
    | Some u =>
        let host := toLowerCase (hostname u) in
        first_return
        [ (* YouTube *)
        (if includes host (lit "youtube.com") || str_eqb host (lit "youtu.be") then
           let id := or (searchParams_get u (lit "v")) (split 47 (pathname u) !! 1%nat) in
           if truthy id then
             Some {| site := lit "youtube";
                     embedUrl := Some (lit "https://www.youtube.com/embed/" ++ to_str id);
                     embedable := true;
                     watchUrl := Some (lit "https://www.youtube.com/watch?v=" ++ to_str id) |}
           else None
         else None);
        (* Vimeo *)
        (if includes host (lit "vimeo.com") then
           let id := last (pathSegments u) in
           if truthy id then
             Some {| site := lit "vimeo";
                     embedUrl := Some (lit "https://player.vimeo.com/video/" ++ to_str id);
                     embedable := true;
                     watchUrl := Some (lit "https://vimeo.com/" ++ to_str id) |}
           else None
         else None);
        (* Dailymotion *)
        (if includes host (lit "dailymotion.com") || includes host (lit "dai.ly") then
           let id := last (pathSegments u) in
           if truthy id then
             Some {| site := lit "dailymotion";
                     embedUrl :=
                       Some (lit "https://www.dailymotion.com/embed/video/" ++ to_str id);
                     embedable := true;
                     watchUrl := Some (lit "https://" ++ host ++ lit "/video/" ++ to_str id) |}
           else None
         else None);
        (* Metacafe *)
        (if includes host (lit "metacafe.com") then
           let id := pathSegments u !! 1%nat in
           if truthy id then
             Some {| site := lit "metacafe";
                     embedUrl :=
                       Some (lit "https://www.metacafe.com/embed/" ++ to_str id ++ lit "/");
                     embedable := true;
                     watchUrl := Some url |}
           else None
         else None);
        (* Direct video file *)
        (if is_video_file url then
           Some {| site := lit "file"; embedUrl := Some url; embedable := true;
                   watchUrl := Some url |}
         else None) ]
        (* Others *)
        {| site := host; embedUrl := Some url; embedable := false; watchUrl := Some url |}
    end.

End WithURL.

(** A toy parser for examples: it accepts [https://host/path] only. *)
Definition parseHttps (url : jsstring) : option URL :=
  if startsWith (lit "https://") url then
    match split 47 (drop 8 url) with
    | h :: segs =>
        if nonempty h then
          Some {| hostname := h; pathname := lit "/" ++ join (lit "/") segs;
                  searchParams := [] |}
        else None
    | [] => None
    end
  else None.

End Embed.

(** ** Tag normalisation ([normalizeTag] and the last step of [saveResult]
       in DailymotionSearch.jsx)

    The tags handed to [saveResult]'s last step are arrays of strings
    (both taggers return [normalizeTag] images or literals). *)

Module Tags.

(** [(t || "").toString().trim().toLowerCase()]. *)
Definition normalizeTag (t : jsstring) : jsstring :=
  JS.toLowerCase (JS.trim t).

(** [Array.from(new Set(tags.map(normalizeTag))).filter(Boolean).slice(0, 3)]. *)
Definition finalizeTags (tags : list jsstring) : list jsstring :=
  take 3 (filter (λ t, JS.nonempty t = true) (JS.Set_from (map normalizeTag tags))).

(** The distinct elements of a list, each at its first occurrence. *)
Fixpoint first_occurrences (l : list jsstring) : list jsstring :=
  match l with
  | [] => []
  | x :: l' => x :: filter (λ y, y ≠ x) (first_occurrences l')
  end.

(** The tags that survive normalisation: the non-empty normalised tags,
    each once, in the order in which they first occur. *)
Definition survivors (tags : list jsstring) : list jsstring :=
  filter (λ t, t ≠ []) (first_occurrences (map normalizeTag tags)).

End Tags.

(** ** Accepted calls of the rate limiter *)

Module RateLimiterTrace.
Import RateLimiter.

(** The clock readings of the calls of [uid] that are accepted when [tr]
    is served from [buckets], in order. *)
Fixpoint accepted_times (v : variant) (uid : jsstring) (tr : list call)
    (buckets : gmap jsstring (list Z)) : list Z :=
  match tr with
  | [] => []
  | (u, now) :: tr' =>
      let r := withinLimit v now u buckets in
      (if decide (u = uid) then (if r.1 then [now] else []) else [])
      ++ accepted_times v uid tr' r.2
  end.

(** The calls of one user in a sequence. *)
Definition calls_of (uid : jsstring) (tr : list call) : list call :=
  filter (λ c : call, c.1 = uid) tr.

End RateLimiterTrace.

(** ** Editing clips in the dashboard (the part src/Dashboard.jsx of
       src/ChatAI_HF.jsx for tags and colours, unnamed/part_002 for the
       playlist check boxes) and the rule-based tagger of
       src/Login.jsx, part src/DailymotionSearch.jsx *)

Module ClipEdits.
Import JS Tags.

(** [arrayUnion(x)] and [arrayRemove(x)] of the document store on an
    array field: the first appends [x] unless it is present, the second
    removes every occurrence of [x]. *)
Definition arrayUnion (x : jsstring) (l : list jsstring) : list jsstring :=
  if bool_decide (x ∈ l) then l else l ++ [x].
Definition arrayRemove (x : jsstring) (l : list jsstring) : list jsstring :=
  filter (λ y, y ≠ x) l.

(** [Array.isArray(clip?.tags) ? clip.tags.map(normalizeTag) : []]. *)
Definition currentTags (stored : option (list jsstring)) : list jsstring :=
  match stored with
  | Some l => map normalizeTag l
  | None => []
  end.

(** The three tag operations on a clip.  [stored] is the [tags] field of
    the clip (in the list the component holds and in the store); the
    result is the field after the write, [None] when the function returns
    without writing. *)
Definition addTagToClip (stored : option (list jsstring)) (tagValue : jsstring)
    : option (list jsstring) :=
  let tag := normalizeTag tagValue in
  if negb (nonempty tag) then None
  else if bool_decide (tag ∈ currentTags stored) then None
  else if (3 <=? length (currentTags stored))%nat then None
  else Some (arrayUnion tag (default [] stored)).

Definition deleteTagFromClip (stored : option (list jsstring)) (tagToRemove : jsstring)
    : option (list jsstring) :=
  Some (arrayRemove tagToRemove (default [] stored)).

Definition replaceTagOnClip (stored : option (list jsstring))
    (oldTag newTagRaw : jsstring) : option (list jsstring) :=
  let newTag := normalizeTag newTagRaw in
  if negb (nonempty newTag) then None
  else if bool_decide (newTag ∈ currentTags stored)
  then Some (arrayRemove oldTag (default [] stored))
  else if (3 <=? length (currentTags stored))%nat
          && negb (bool_decide (oldTag ∈ currentTags stored))
  then None
  else Some (arrayUnion newTag (arrayRemove oldTag (default [] stored))).

(** The invariant of the [tags] field: at most three tags, all distinct,
    each one non-empty and in normal form. *)
Definition tagsOk (l : list jsstring) : Prop :=
  (length l ≤ 3)%nat ∧ NoDup l ∧ Forall (λ t, normalizeTag t = t ∧ t ≠ []) l.

(** [{ ...c, playlistIds: ids }]. *)
Definition withPlaylistIds (c : clip) (ids : list jsstring) : clip :=
  {| clipId := clipId c; customTitle := customTitle c; title := title c;
     description := description c; originalUrl := originalUrl c;
     watchUrl := watchUrl c; videoSite := videoSite c; tags := tags c;
     playlistIds := Some ids; createdAt := createdAt c; duration := duration c;
     watched := watched c |}.

(** The ids that the check box leaves on the clip in the list the
    component holds: a [Set] of the old ids with [plId] added or
    deleted. *)
Definition toggledIds (old : option (list jsstring)) (plId : jsstring) (add : bool)
    : list jsstring :=
  let ids := Set_from (default [] old) in
  if add then Set_add ids plId else filter (λ y, y ≠ plId) ids.

(** The update of [clips] in [toggleClipPlaylist]. *)
Definition toggleClipPlaylist (prev : list clip) (cid plId : jsstring) (add : bool)
    : list clip :=
  map (λ c, if bool_decide (clipId c ≠ cid) then c
            else withPlaylistIds c (toggledIds (playlistIds c) plId add)) prev.

(** What the store holds after the same check box: [arrayUnion] or
    [arrayRemove] on the field. *)
Definition storedIds (old : option (list jsstring)) (plId : jsstring) (add : bool)
    : list jsstring :=
  if add then arrayUnion plId (default [] old) else arrayRemove plId (default [] old).

(** [ToInt32]: a number taken modulo [2^32] into the signed range. *)
Definition toInt32 (z : Z) : Z := (z + 2 ^ 31) mod 2 ^ 32 - 2 ^ 31.

(** One round of [h = (h << 5) - h + tag.charCodeAt(i)]: only the shift
    wraps to 32 bits, the subtraction and the addition do not. *)
Definition hashStep (h : Z) (c : N) : Z :=
  toInt32 (toInt32 h * 32) - h + Z.of_N c.

Definition fallbackColors : list jsstring :=
  [lit "#60a5fa"; lit "#34d399"; lit "#f472b6"; lit "#fb923c"; lit "#a78bfa";
   lit "#f59e0b"; lit "#94a3b8"].

(** [fallbackColor(tag)]; [None] would be [undefined]. *)
Definition fallbackColor (tag : jsstring) : option jsstring :=
  let h := foldl hashStep 0 tag in
  fallbackColors !! Z.to_nat (Z.abs h mod Z.of_nat (length fallbackColors)).

(** The keyword table of the rule-based tagger, in the order of
    [Object.entries]. *)
Definition autoTagMap : list (jsstring * jsstring) :=
  [(lit "tutorial", lit "tutorial"); (lit "interview", lit "interview");
   (lit "music", lit "music"); (lit "sports", lit "sports");
   (lit "lecture", lit "lecture"); (lit "python", lit "python");
   (lit "react", lit "web-dev"); (lit "gaming", lit "gaming");
   (lit "nature", lit "nature")].

(** The loop over the table: add the tag of a keyword that occurs, stop
    as soon as the set holds three tags. *)
Fixpoint autoTagsLoop (text : jsstring) (entries : list (jsstring * jsstring))
    (tags : list jsstring) : list jsstring :=
  match entries with
  | [] => tags
  | (kw, tag) :: rest =>
      let tags' := if includes text kw then Set_add tags tag else tags in
      if (3 <=? length tags')%nat then tags' else autoTagsLoop text rest tags'
  end.

Definition generateAutoTags (title desc : option jsstring) : list jsstring :=
  let text := toLowerCase (or_str title [] ++ lit " " ++ or_str desc []) in
  let tags := autoTagsLoop text autoTagMap [] in
  let tags := if (length tags =? 0)%nat then Set_add tags (lit "uncategorized") else tags in
  map normalizeTag (slice 0 3 tags).

(** The tags that [saveResult] stores: those of the AI tagger, or of the
    rule-based tagger when the AI tagger throws, through the last step. *)
Definition savedTags (aiTags : result (list jsstring)) (title desc : option jsstring)
    : list jsstring :=
  finalizeTags
    (match aiTags with
     | Ok t => t
     | Throw _ => generateAutoTags title desc
     end).

End ClipEdits.

(** ** Saving a pasted link ([save] of unnamed/part_002, src/Dashboard.jsx) *)

Module SaveClip.
Import JS.

(** The document handed to [addDoc]. *)
Record clipDoc : Type := {
  doc_originalUrl : jsstring;
  doc_videoSite : jsstring;
  doc_embedUrl : option jsstring;
  doc_embedable : bool;
  doc_watchUrl : jsstring;
  doc_customTitle : option jsstring;
  doc_description : option jsstring;
  doc_playlistIds : list jsstring;
  doc_createdAt : Z;
}.

Inductive outcome : Type :=
  | Alert (message : jsstring)
  | Saved (d : clipDoc).

(** [s || null] on a string. *)
Definition orNull (s : jsstring) : option jsstring :=
  if nonempty s then Some s else None.

Definition save (parseURL : jsstring → option Embed.URL)
    (originalUrl customTitle description : jsstring) (now : Z) : outcome :=
  if negb (nonempty originalUrl) then Alert (lit "Paste a video link first")
  else
    let info := Embed.getEmbedInfo parseURL originalUrl in
    if str_eqb (Embed.site info) (lit "invalid") then Alert (lit "Invalid URL")
    else
      Saved {| doc_originalUrl := originalUrl;
               doc_videoSite := Embed.site info;
               doc_embedUrl := if truthy (Embed.embedUrl info) then Embed.embedUrl info else None;
               doc_embedable := Embed.embedable info;
               doc_watchUrl := or_str (Embed.watchUrl info) originalUrl;
               doc_customTitle := orNull customTitle;
               doc_description := orNull description;
               doc_playlistIds := [];
               doc_createdAt := now |}.

End SaveClip.

(** * Properties *)

(** ** Strings, sets and sorting of the runtime *)

Module JSFacts.
Import JS Unicode.

(** A string is trimmed when neither end is a white-space code unit. *)
Lemma dropWhile_head {A} (p : A → bool) l :
  match dropWhile p l with [] => True | x :: _ => p x = false end.
Proof.
  induction l as [|x l IH]; [done|]. cbn. by destruct (p x) eqn:E.
Qed.

Lemma dropWhile_id {A} (p : A → bool) l :
  match l with [] => True | x :: _ => p x = false end → dropWhile p l = l.
Proof. destruct l as [|x l]; [done|]. cbn. by intros ->. Qed.

Lemma dropWhile_idemp {A} (p : A → bool) l :
  dropWhile p (dropWhile p l) = dropWhile p l.
Proof. apply dropWhile_id, dropWhile_head. Qed.

Lemma dropWhile_suffix {A} (p : A → bool) l : ∃ k, l = k ++ dropWhile p l.
Proof.
  induction l as [|x l [k IH]]; [by exists []|].
  cbn. destruct (p x); [|by exists []].
  exists (x :: k). cbn. by f_equal.
Qed.

Lemma trimEnd_head s :
  match s with [] => True | c :: _ => is_space c = false end →
  match trimEnd s with [] => True | c :: _ => is_space c = false end.
Proof.
  intros Hs. unfold trimEnd.
  destruct (dropWhile_suffix is_space (rev s)) as [k Hk].
  apply (f_equal (@rev N)) in Hk. rewrite rev_involutive, rev_app_distr in Hk.
  destruct (rev (dropWhile is_space (rev s))) as [|c r]; [done|].
  subst s. exact Hs.
Qed.

Lemma trim_idemp s : trim (trim s) = trim s.
Proof.
  unfold trim at 1.
  assert (trimStart (trim s) = trim s) as ->.
  { apply dropWhile_id. unfold trim. apply trimEnd_head, dropWhile_head. }
  unfold trim, trimEnd. by rewrite rev_involutive, dropWhile_idemp.
Qed.

(** *** The tables *)

(** A property checked on the first [n] numbers holds of every number
    below [n]. *)
Lemma below_forallb (P : N → bool) (n : nat) :
  forallb P (map N.of_nat (seq 0 n)) = true → ∀ c, (c < N.of_nat n)%N → P c = true.
Proof.
  intros H c Hc. rewrite forallb_forall in H. apply H.
  apply in_map_iff. exists (N.to_nat c). split; [lia|]. apply in_seq. lia.
Qed.

Lemma run_pairs_spec lo hi st img c :
  st ≠ 0%N → (lo ≤ c ≤ hi)%N → ((c - lo) mod st = 0)%N →
  (c, (img + (c - lo))%N) ∈ run_pairs (lo, hi, st, img).
Proof.
  intros Hst Hc Hmod. unfold run_pairs. apply list_elem_of_In, in_map_iff.
  exists (N.to_nat ((c - lo) / st)).
  pose proof (N.div_mod (c - lo) st Hst) as Hdiv. rewrite Hmod in Hdiv.
  rewrite N2Nat.id. split.
  - f_equal; lia.
  - apply in_seq. split; [lia|].
    pose proof (N.Div0.div_le_mono (c - lo) (hi - lo) st). lia.
Qed.

Lemma lower_in_cases c runs :
  Forall (λ r : N * N * N * N, r.1.2 ≠ 0%N) runs →
  lower_in c runs = c ∨ (c, lower_in c runs) ∈ flat_map run_pairs runs.
Proof.
  induction runs as [|[[[lo hi] st] img] runs IH]; intros Hst; [by left|].
  apply Forall_cons in Hst as [Hst Hrest]. cbn [lower_in flat_map].
  destruct (N.ltb_spec c lo) as [_|Hlo]; [by left|].
  destruct (N.leb_spec c hi) as [Hhi|_].
  - destruct (N.eqb_spec ((c - lo) mod st) 0) as [Hmod|_]; [|by left].
    right. apply elem_of_app. left. by apply run_pairs_spec.
  - destruct (IH Hrest) as [H|H]; [by left|]. right. apply elem_of_app. by right.
Qed.

Lemma lowerRuns_steps : Forall (λ r : N * N * N * N, r.1.2 ≠ 0%N) lowerRuns.
Proof.
  apply Forall_forall. intros r Hr.
  assert (forallb (λ r : N * N * N * N, negb (r.1.2 =? 0)%N) lowerRuns = true) as H
    by (vm_compute; reflexivity).
  rewrite forallb_forall in H. apply list_elem_of_In in Hr.
  specialize (H r Hr). by destruct (N.eqb_spec r.1.2 0).
Qed.

Lemma lowerRuns_images : forallb image_ok (flat_map run_pairs lowerRuns) = true.
Proof. vm_compute. reflexivity. Qed.

(** A code point is mapped to itself or to an image of the table. *)
Lemma lowerPoint_cases c : lowerPoint c = c ∨ image_ok (c, lowerPoint c) = true.
Proof.
  destruct (lower_in_cases c lowerRuns lowerRuns_steps) as [H|H]; [by left|].
  right. pose proof lowerRuns_images as Hall. rewrite forallb_forall in Hall.
  apply Hall. by apply list_elem_of_In.
Qed.

Lemma image_ok_spec c t :
  image_ok (c, t) = true →
  stable t ∧ is_high t = false ∧ is_low t = false ∧
  ((t < 0x10000)%N ↔ (c < 0x10000)%N) ∧ (t < 0x110000)%N ∧
  is_space t = false ∧ is_capital t = false ∧
  ((t < 0x80)%N → (0x41 ≤ c ≤ 0x5A)%N ∧ t = (c + 32)%N ∨ c = 0x212A%N ∧ t = 0x6B%N).
Proof.
  unfold image_ok. rewrite !andb_true_iff, !negb_true_iff.
  intros ((((((((Hfix & Hs) & Hi) & Hsur) & Hplane) & Hmax) & Hsp) & Hcap) & Hascii).
  apply N.eqb_eq in Hfix. apply N.eqb_neq in Hs, Hi.
  apply orb_false_iff in Hsur as [Hh Hl]. apply N.ltb_lt in Hmax.
  repeat split; try done.
  - intros Ht. apply N.ltb_lt in Ht. rewrite Ht in Hplane.
    destruct (N.ltb_spec c 0x10000); [done|discriminate].
  - intros Hc. apply N.ltb_lt in Hc. rewrite Hc in Hplane.
    destruct (N.ltb_spec t 0x10000); [done|discriminate].
  - intros Ht. apply N.ltb_lt in Ht. rewrite Ht in Hascii.
    apply orb_true_iff in Hascii as [H|H].
    + apply andb_true_iff in H as [H ?%N.eqb_eq].
      apply andb_true_iff in H as [?%N.leb_le ?%N.leb_le]. left. lia.
    + apply andb_true_iff in H as [?%N.eqb_eq ?%N.eqb_eq]. by right.
Qed.

(** Surrogates and white space by their bounds. *)
Lemma is_high_spec c : is_high c = true ↔ (0xD800 ≤ c ≤ 0xDBFF)%N.
Proof. unfold is_high. rewrite andb_true_iff, !N.leb_le. done. Qed.

Lemma is_low_spec c : is_low c = true ↔ (0xDC00 ≤ c ≤ 0xDFFF)%N.
Proof. unfold is_low. rewrite andb_true_iff, !N.leb_le. done. Qed.

Lemma is_high_false c : (c < 0xD800 ∨ 0xDBFF < c)%N → is_high c = false.
Proof.
  intros H. apply not_true_is_false. rewrite is_high_spec. lia.
Qed.

Lemma is_low_false c : (c < 0xDC00 ∨ 0xDFFF < c)%N → is_low c = false.
Proof.
  intros H. apply not_true_is_false. rewrite is_low_spec. lia.
Qed.

Lemma is_space_false c : (0xD800 ≤ c)%N → c ≠ 0xFEFF%N → is_space c = false.
Proof.
  intros Hc Hne. unfold is_space.
  rewrite (proj2 (N.leb_gt c 13)) by lia.
  rewrite (proj2 (N.leb_gt c 8202)) by lia.
  rewrite !(proj2 (N.eqb_neq c _)) by lia.
  by rewrite !andb_false_r.
Qed.



(** In Basic Latin only the capitals A to Z are mapped. *)
Lemma lowerPoint_ascii c :
  (c < 0x80)%N →
  lowerPoint c = (if (0x41 <=? c) && (c <=? 0x5A) then c + 32 else c)%N.
Proof.
  intros Hc.
  assert (forallb (λ c, lowerPoint c =? (if (0x41 <=? c) && (c <=? 0x5A) then c + 32 else c))%N
            (map N.of_nat (seq 0 (N.to_nat 0x80))) = true) as Hall
    by (vm_compute; reflexivity).
  pose proof (below_forallb _ _ Hall c) as H. rewrite N2Nat.id in H.
  by apply N.eqb_eq, H.
Qed.

Lemma ascii_plain c :
  (c < 0x80)%N → c ≠ 0x3A3%N ∧ c ≠ 0x130%N ∧ is_high c = false ∧ is_low c = false.
Proof.
  intros Hc. repeat split; try lia; [apply is_high_false | apply is_low_false]; lia.
Qed.

(** *** Code points and code units *)

Lemma list_pair_ind {A} (P : list A → Prop) :
  P [] → (∀ x, P [x]) → (∀ x y l, P l → P (y :: l) → P (x :: y :: l)) → ∀ l, P l.
Proof.
  intros Hnil Hone Hstep l.
  enough (P l ∧ ∀ x, P (x :: l)) by tauto.
  induction l as [|y l [IH1 IH2]]; [by split|].
  split; [apply IH2|]. intros x. apply Hstep; [done | apply IH2].
Qed.

Lemma codePoints_cons2 c d s :
  codePoints (c :: d :: s) =
    if is_high c && is_low d
    then (0x10000 + (c - 0xD800) * 0x400 + (d - 0xDC00))%N :: codePoints s
    else c :: codePoints (d :: s).
Proof. reflexivity. Qed.

(** The first code point is the first code unit or a supplementary code
    point. *)
Lemma codePoints_head s c :
  head s = Some c →
  ∃ cp, head (codePoints s) = Some cp ∧ (cp = c ∨ (0x10000 ≤ cp < 0x110000)%N).
Proof.
  destruct s as [|c' [|d s]]; intros [= ->].
  - exists c. split; [done | by left].
  - rewrite codePoints_cons2. destruct (is_high c && is_low d) eqn:E.
    + eexists. split; [done|]. right.
      apply andb_true_iff in E as [Hc%is_high_spec Hd%is_low_spec]. lia.
    + exists c. split; [done | by left].
Qed.

Lemma codePoints_nonempty s : s ≠ [] → codePoints s ≠ [].
Proof.
  destruct s as [|c [|d s]]; [done|done|]. intros _.
  rewrite codePoints_cons2. by destruct (is_high c && is_low d).
Qed.

Lemma codePoints_last s c :
  last s = Some c →
  ∃ cp, last (codePoints s) = Some cp ∧ (cp = c ∨ (0x10000 ≤ cp < 0x110000)%N).
Proof.
  revert c. induction s as [| x | x y s IH1 IH2] using list_pair_ind; intros c.
  - done.
  - intros [= ->]. exists c. split; [done | by left].
  - rewrite last_cons_cons. intros Hlast. rewrite codePoints_cons2.
    destruct (is_high x && is_low y) eqn:E.
    + destruct s as [|z s].
      * eexists. split; [done|]. right.
        apply andb_true_iff in E as [Hc%is_high_spec Hd%is_low_spec]. lia.
      * rewrite last_cons_cons in Hlast. destruct (IH1 c Hlast) as (cp & Hcp & H).
        exists cp. split; [|done]. rewrite last_cons.
        by rewrite Hcp.
    + destruct (IH2 c Hlast) as (cp & Hcp & H).
      exists cp. split; [|done]. rewrite last_cons. by rewrite Hcp.
Qed.

Lemma codePoints_unpaired s : unpaired (codePoints s).
Proof.
  induction s as [| x | x y s IH1 IH2] using list_pair_ind; [done|done|].
  rewrite codePoints_cons2. destruct (is_high x && is_low y) eqn:E.
  - cbn [unpaired]. split; [|done].
    destruct (codePoints s); [done|].
    rewrite is_high_false; [done|].
    apply andb_true_iff in E as [Hc%is_high_spec Hd%is_low_spec]. lia.
  - cbn [unpaired]. split; [|done].
    destruct (codePoints_head (y :: s) y eq_refl) as (cp & Hcp & [->|Hsup]).
    + destruct (codePoints (y :: s)); [done|]. by injection Hcp as ->.
    + destruct (codePoints (y :: s)); [done|]. injection Hcp as ->.
      rewrite (is_low_false cp) by lia. apply andb_false_r.
Qed.

Lemma codeUnits_cases cp :
  (codeUnits cp = [cp] ∧ ((cp < 0x10000)%N ∨ (0x110000 ≤ cp)%N)) ∨
  ((0x10000 ≤ cp < 0x110000)%N ∧
   ∃ h l, codeUnits cp = [h; l] ∧ is_high h = true ∧ is_low l = true ∧
          cp = (0x10000 + (h - 0xD800) * 0x400 + (l - 0xDC00))%N).
Proof.
  unfold codeUnits.
  destruct (N.ltb_spec cp 0x10000) as [Hlt|Hge]; [left; split; [done | by left]|].
  destruct (N.leb_spec 0x110000 cp) as [Hbig|Hsmall]; [left; split; [done | by right]|].
  right. split; [lia|]. cbn [orb].
  pose proof (N.div_mod (cp - 0x10000) 0x400 ltac:(lia)) as Hdiv.
  pose proof (N.mod_lt (cp - 0x10000) 0x400 ltac:(lia)) as Hmod.
  assert ((cp - 0x10000) / 0x400 < 0x400)%N as Hq.
  { apply N.Div0.div_lt_upper_bound. lia. }
  revert Hdiv Hmod Hq.
  generalize ((cp - 0x10000) / 0x400)%N, ((cp - 0x10000) mod 0x400)%N.
  intros q m Hdiv Hmod Hq.
  exists (0xD800 + q)%N, (0xDC00 + m)%N. split; [done|].
  split; [apply is_high_spec; lia|]. split; [apply is_low_spec; lia|]. lia.
Qed.

(** Reading back the code units of code points. *)
Lemma codePoints_codeUnits l :
  unpaired l → codePoints (flat_map codeUnits l) = l.
Proof.
  induction l as [|c l IH]; [done|]. intros [Hc Hl].
  specialize (IH Hl). cbn [flat_map].
  destruct (codeUnits_cases c) as [[-> Hsingle]|(Hsup & h & lw & -> & Hh & Hlw & ->)].
  - cbn [app]. destruct l as [|d l]; [done|]. cbn [flat_map] in *.
    destruct (codeUnits_cases d) as [[Hd _]|(_ & h & lw & Hd & Hh & _)];
      rewrite Hd in *; cbn [app] in *.
    + rewrite codePoints_cons2, Hc. by rewrite IH.
    + rewrite codePoints_cons2.
      rewrite (is_low_false h) by (apply is_high_spec in Hh; lia).
      rewrite andb_false_r. by rewrite IH.
  - cbn [app]. rewrite codePoints_cons2, Hh, Hlw. cbn [andb]. by rewrite IH.
Qed.

(** *** The mapping of code points *)

Lemma lowerPoint_stable c : c ≠ 0x3A3%N → c ≠ 0x130%N → stable (lowerPoint c).
Proof.
  intros Hs Hi. destruct (lowerPoint_cases c) as [H|H].
  - rewrite H. by split.
  - by apply image_ok_spec in H as (? & _).
Qed.

Lemma lowerPoint_surrogate c :
  is_high (lowerPoint c) || is_low (lowerPoint c) = true → lowerPoint c = c.
Proof.
  intros Hsur. destruct (lowerPoint_cases c) as [H|H]; [done|].
  apply image_ok_spec in H as (_ & Hh & Hl & _). by rewrite Hh, Hl in Hsur.
Qed.

(** A code point and its image lie in the same plane. *)
Lemma lowerPoint_plane c : ((lowerPoint c < 0x10000)%N ↔ (c < 0x10000)%N) ∧
  ((0x110000 ≤ lowerPoint c)%N ↔ (0x110000 ≤ c)%N).
Proof.
  destruct (lowerPoint_cases c) as [->|H]; [done|].
  apply image_ok_spec in H as (_ & _ & _ & Hplane & Hmax & _).
  split; [done|]. split; [lia|]. intros Hc. exfalso.
  assert (lower_in c lowerRuns = c) as Hfix; [|unfold lowerPoint in Hmax; lia].
  clear -Hc.
  assert (Forall (λ r : N * N * N * N, (r.1.1.2 < 0x110000)%N) lowerRuns) as Hall.
  { apply Forall_forall. intros r Hr.
    assert (forallb (λ r : N * N * N * N, r.1.1.2 <? 0x110000)%N lowerRuns = true) as H
      by (vm_compute; reflexivity).
    rewrite forallb_forall in H. apply list_elem_of_In in Hr.
    by apply N.ltb_lt, H. }
  induction Hall as [|[[[lo hi] st] img] runs Hr _ IH]; [done|].
  cbn [lower_in]. cbn in Hr.
  destruct (N.ltb_spec c lo); [done|]. destruct (N.leb_spec c hi); [lia|]. done.
Qed.

Lemma lowerPoints_cons b c l :
  ∃ out, lowerPoints b (c :: l) =
           out ++ lowerPoints (if caseIgnorable c then b else cased c) l ∧
         out ≠ [] ∧ out ⊆ images c ∧
         (c ≠ 0x3A3%N → c ≠ 0x130%N → out = [lowerPoint c]) ∧
         (c = 0x130%N → out = [0x69%N; 0x307%N]) ∧
         (c = 0x3A3%N → out = [0x3C2%N] ∨ out = [0x3C3%N]).
Proof.
  cbn [lowerPoints]. unfold images.
  destruct (N.eqb_spec c 0x3A3) as [->|Hs].
  - eexists. split; [done|]. split; [done|]. split; [|split; [done|split; [done|]]].
    + intros y Hy. destruct (_ && _); apply list_elem_of_singleton in Hy as ->;
        [by left | right; by left].
    + intros _. destruct (_ && _); [by left | by right].
  - destruct (N.eqb_spec c 0x130) as [->|Hi].
    + eexists. split; [done|]. split; [done|]. split; [done|]. by repeat split.
    + eexists. split; [done|]. split; [done|]. split; [done|]. by repeat split.
Qed.

Lemma images_stable c : Forall stable (images c).
Proof.
  unfold images. destruct (N.eqb_spec c 0x3A3) as [->|Hs].
  - repeat constructor; try (vm_compute; reflexivity); by intros [=].
  - destruct (N.eqb_spec c 0x130) as [->|Hi].
    + repeat constructor; try (vm_compute; reflexivity); by intros [=].
    + repeat constructor; by apply lowerPoint_stable.
Qed.

Lemma lowerPoints_stable b l : Forall stable (lowerPoints b l).
Proof.
  revert b. induction l as [|c l IH]; intros b; [constructor|].
  destruct (lowerPoints_cons b c l) as (out & -> & _ & Hout & _).
  apply Forall_app. split; [|apply IH].
  apply Forall_forall. intros x Hx. apply Hout in Hx.
  pose proof (images_stable c) as Hst. rewrite Forall_forall in Hst. by apply Hst.
Qed.

Lemma lowerPoints_fixed b l : Forall stable l → lowerPoints b l = l.
Proof.
  revert b. induction l as [|c l IH]; intros b Hl; [done|].
  apply Forall_cons in Hl as [(Hfix & Hs & Hi) Hl].
  destruct (lowerPoints_cons b c l) as (out & -> & _ & _ & Hout & _).
  rewrite (Hout Hs Hi), Hfix. cbn. by rewrite IH.
Qed.

Lemma images_nonspace c : is_space c = false → Forall (λ y, is_space y = false) (images c).
Proof.
  intros Hc. unfold images. destruct (N.eqb_spec c 0x3A3) as [->|Hs]; [by repeat constructor|].
  destruct (N.eqb_spec c 0x130) as [->|Hi]; [by repeat constructor|].
  repeat constructor. destruct (lowerPoint_cases c) as [->|H]; [done|].
  by apply image_ok_spec in H as (_ & _ & _ & _ & _ & ? & _).
Qed.

Lemma images_surrogate c x :
  x ∈ images c → is_high x || is_low x = true → x = c.
Proof.
  unfold images. destruct (N.eqb_spec c 0x3A3) as [->|Hs].
  { intros Hx Hsur. exfalso. repeat (apply elem_of_cons in Hx as [->|Hx]);
      try discriminate. by apply elem_of_nil in Hx. }
  destruct (N.eqb_spec c 0x130) as [->|Hi].
  { intros Hx Hsur. exfalso. repeat (apply elem_of_cons in Hx as [->|Hx]);
      try discriminate. by apply elem_of_nil in Hx. }
  intros ->%list_elem_of_singleton. apply lowerPoint_surrogate.
Qed.

Lemma lowerPoints_head_low b l y :
  head (lowerPoints b l) = Some y → is_low y = true → head l = Some y.
Proof.
  destruct l as [|c l]; [done|].
  destruct (lowerPoints_cons b c l) as (out & -> & Hne & Hout & _).
  destruct out as [|x out]; [done|]. cbn. intros [= ->] Hlow.
  f_equal. symmetry. apply images_surrogate; [apply Hout; by left|].
  rewrite Hlow. apply orb_true_r.
Qed.

Lemma lowerPoints_unpaired b l : unpaired l → unpaired (lowerPoints b l).
Proof.
  revert b. induction l as [|c l IH]; intros b; [done|]. intros [Hc Hl].
  destruct (lowerPoints_cons b c l) as (out & -> & _ & Hsub & Hout & Hdot & Hsigma).
  specialize (IH (if caseIgnorable c then b else cased c) Hl).
  set (rest := lowerPoints _ l) in *.
  assert (∀ x, (is_high x = true → x = c) → unpaired (x :: rest)) as Hone.
  { intros x Hx. split; [|done].
    destruct rest as [|d rest'] eqn:Hrest; [done|].
    destruct (is_high x) eqn:Hh; [|done]. cbn [andb].
    destruct (is_low d) eqn:Hd; [|done]. rewrite (Hx eq_refl) in Hh.
    assert (head l = Some d) as Hhead.
    { apply (lowerPoints_head_low (if caseIgnorable c then b else cased c)); [|done].
      fold rest. by rewrite Hrest. }
    destruct l as [|d' l']; [done|]. injection Hhead as ->.
    by rewrite Hh, Hd in Hc. }
  destruct (decide (c = 0x130%N)) as [->|Hi].
  { rewrite Hdot by done. split; [done|]. by apply Hone. }
  destruct (decide (c = 0x3A3%N)) as [->|Hs].
  { destruct Hsigma as [-> | ->]; [done| |]; by apply Hone. }
  rewrite Hout by done. apply Hone. intros Hh. apply lowerPoint_surrogate.
  by rewrite Hh.
Qed.

(** *** [toLowerCase] *)

Lemma toLowerCase_idemp s : toLowerCase (toLowerCase s) = toLowerCase s.
Proof.
  unfold toLowerCase.
  rewrite codePoints_codeUnits by apply lowerPoints_unpaired, codePoints_unpaired.
  by rewrite lowerPoints_fixed by apply lowerPoints_stable.
Qed.

Lemma codeUnits_nonempty cp : codeUnits cp ≠ [].
Proof. unfold codeUnits. by destruct (_ || _). Qed.

Lemma lowerPoints_nonempty b l : l ≠ [] → lowerPoints b l ≠ [].
Proof.
  destruct l as [|c l]; [done|]. intros _.
  destruct (lowerPoints_cons b c l) as (out & -> & Hne & _). by destruct out.
Qed.

Lemma units_nonempty l : l ≠ [] → flat_map codeUnits l ≠ [].
Proof.
  destruct l as [|c l]; [done|]. intros _. cbn.
  pose proof (codeUnits_nonempty c). by destruct (codeUnits c).
Qed.

Lemma toLowerCase_nonempty s : nonempty (toLowerCase s) = nonempty s.
Proof.
  destruct s as [|c s]; [done|]. cbn [nonempty].
  assert (toLowerCase (c :: s) ≠ []) as H.
  { apply units_nonempty, lowerPoints_nonempty, codePoints_nonempty. done. }
  by destruct (toLowerCase (c :: s)).
Qed.




(** The ends of the result are white space only where the ends of the
    argument are. *)
Lemma images_units_nonspace c x :
  is_space c = false → x ∈ images c → Forall (λ u, is_space u = false) (codeUnits x).
Proof.
  intros Hc Hx. pose proof (images_nonspace c Hc) as Hall.
  rewrite Forall_forall in Hall. specialize (Hall x Hx).
  destruct (codeUnits_cases x) as [[-> Hsingle]|(Hsup & h & lw & -> & Hh & Hlw & _)].
  - by repeat constructor.
  - apply is_high_spec in Hh. apply is_low_spec in Hlw.
    repeat constructor; apply is_space_false; lia.
Qed.

Lemma supplementary_nonspace cp : (0x10000 ≤ cp)%N → is_space cp = false.
Proof. intros H. apply is_space_false; lia. Qed.

Lemma toLowerCase_head s c x :
  head s = Some c → is_space c = false → head (toLowerCase s) = Some x →
  is_space x = false.
Proof.
  intros Hs Hc. unfold toLowerCase.
  destruct (codePoints_head s c Hs) as (cp & Hcp & Hcases).
  assert (is_space cp = false) as Hsp.
  { destruct Hcases as [->|?]; [done|]. apply supplementary_nonspace. lia. }
  destruct (codePoints s) as [|cp' l]; [done|]. injection Hcp as ->.
  destruct (lowerPoints_cons false cp l) as (out & -> & Hne & Hout & _).
  destruct out as [|y out]; [done|]. cbn [flat_map app].
  pose proof (images_units_nonspace cp y Hsp (Hout y ltac:(by left))) as Hall.
  pose proof (codeUnits_nonempty y).
  destruct (codeUnits y) as [|u us]; [done|]. cbn. intros [= <-].
  by apply Forall_cons in Hall as [? _].
Qed.

Lemma flat_map_app' {A B} (f : A → list B) l1 l2 :
  flat_map f (l1 ++ l2) = flat_map f l1 ++ flat_map f l2.
Proof. induction l1 as [|a l1 IH]; [done|]. cbn. by rewrite IH, app_assoc. Qed.

Lemma lowerPoints_last b l c x :
  last l = Some c → is_space c = false →
  last (flat_map codeUnits (lowerPoints b l)) = Some x → is_space x = false.
Proof.
  revert b. induction l as [|a l IH]; intros b; [done|].
  destruct (lowerPoints_cons b a l) as (out & -> & Hne & Hout & _).
  rewrite flat_map_app'. destruct l as [|a' l].
  - intros [= ->] Hc. cbn [lowerPoints flat_map]. rewrite app_nil_r. intros Hlast.
    apply last_Some_elem_of, list_elem_of_In, in_flat_map in Hlast as (y & Hy & Hx).
    apply list_elem_of_In, Hout in Hy.
    pose proof (images_units_nonspace c y Hc Hy) as Hall.
    rewrite Forall_forall in Hall. apply Hall. by apply list_elem_of_In.
  - rewrite last_cons_cons. intros Hlast Hc.
    rewrite last_app.
    destruct (last (flat_map codeUnits (lowerPoints _ (a' :: l)))) as [y|] eqn:E.
    + intros [= <-]. exact (IH _ Hlast Hc E).
    + exfalso. apply last_None in E. revert E.
      by apply units_nonempty, lowerPoints_nonempty.
Qed.

Lemma toLowerCase_last s c x :
  last s = Some c → is_space c = false → last (toLowerCase s) = Some x →
  is_space x = false.
Proof.
  intros Hs Hc. unfold toLowerCase.
  destruct (codePoints_last s c Hs) as (cp & Hcp & Hcases).
  apply (lowerPoints_last false _ cp); [done|].
  destruct Hcases as [->|?]; [done|]. apply supplementary_nonspace. lia.
Qed.

Lemma head_rev {A} (l : list A) : head (rev l) = last l.
Proof.
  induction l as [|x l _] using rev_ind; [done|].
  by rewrite rev_unit, last_snoc.
Qed.

(** A string is trimmed exactly when neither end is white space. *)
Lemma trim_fixed s :
  trim s = s ↔
  (∀ c, head s = Some c → is_space c = false) ∧
  (∀ c, last s = Some c → is_space c = false).
Proof.
  split.
  - intros Hs. split; intros c Hc.
    + pose proof (trimEnd_head (trimStart s) (dropWhile_head _ _)) as H.
      fold (trim s) in H. rewrite Hs in H. destruct s; [done|]. by injection Hc as ->.
    + rewrite <- head_rev in Hc. rewrite <- Hs in Hc. unfold trim, trimEnd in Hc.
      rewrite rev_involutive in Hc.
      pose proof (dropWhile_head is_space (rev (trimStart s))) as H.
      destruct (dropWhile is_space (rev (trimStart s))); [done|]. by injection Hc as ->.
  - intros [Hhead Hlast]. unfold trim.
    assert (trimStart s = s) as ->.
    { apply dropWhile_id. destruct s as [|c s']; [done|]. by apply Hhead. }
    unfold trimEnd. rewrite dropWhile_id; [apply rev_involutive|].
    destruct (rev s) as [|c r] eqn:E; [done|]. apply Hlast.
    by rewrite <- head_rev, E.
Qed.

Lemma toLowerCase_trimmed s : trim s = s → trim (toLowerCase s) = toLowerCase s.
Proof.
  rewrite !trim_fixed. intros [Hhead Hlast]. split; intros x Hx.
  - destruct s as [|c s']; [done|].
    by apply (toLowerCase_head (c :: s') c x); [|apply Hhead|].
  - destruct (last s) as [c|] eqn:E.
    + by apply (toLowerCase_last s c x); [|apply Hlast|].
    + apply last_None in E. by subst s.
Qed.

(** *** Strings without surrogates, capital sigma and dotted capital I *)

Lemma codePoints_plain s : Forall (λ c, is_high c = false) s → codePoints s = s.
Proof.
  induction s as [| x | x y s IH1 IH2] using list_pair_ind; [done|done|].
  intros Hs. rewrite codePoints_cons2.
  apply Forall_cons in Hs as [Hx Hs]. rewrite Hx. cbn [andb]. by rewrite IH2.
Qed.

Lemma lowerPoints_plain b l :
  Forall (λ c, c ≠ 0x3A3%N ∧ c ≠ 0x130%N) l → lowerPoints b l = map lowerPoint l.
Proof.
  revert b. induction l as [|c l IH]; intros b Hl; [done|].
  apply Forall_cons in Hl as [[Hs Hi] Hl].
  destruct (lowerPoints_cons b c l) as (out & -> & _ & _ & Hout & _).
  rewrite (Hout Hs Hi). cbn. by rewrite IH.
Qed.

Lemma units_plain l : Forall (λ c, (c < 0x10000)%N) l → flat_map codeUnits l = l.
Proof.
  induction l as [|c l IH]; [done|]. intros [Hc Hl]%Forall_cons.
  cbn. rewrite IH by done. unfold codeUnits.
  by destruct (N.ltb_spec c 0x10000); [|lia].
Qed.

(** On such a string of the Basic Multilingual Plane the mapping works
    code unit by code unit. *)
Lemma toLowerCase_plain s :
  Forall (λ c, (c < 0xD800)%N ∧ c ≠ 0x3A3%N ∧ c ≠ 0x130%N) s →
  toLowerCase s = map lowerPoint s.
Proof.
  intros Hs. unfold toLowerCase.
  rewrite codePoints_plain; cycle 1.
  { eapply Forall_impl; [exact Hs|]. intros c (Hc & _). apply is_high_false. lia. }
  rewrite lowerPoints_plain; cycle 1.
  { eapply Forall_impl; [exact Hs|]. by intros c (_ & ?). }
  apply units_plain. apply Forall_forall. intros x Hx.
  apply list_elem_of_In, in_map_iff in Hx as (c & <- & Hc). apply list_elem_of_In in Hc.
  rewrite Forall_forall in Hs. destruct (Hs c Hc) as (Hlt & _).
  apply lowerPoint_plane. lia.
Qed.

Lemma toLowerCase_ascii s :
  Forall (λ c, (c < 0x80)%N) s →
  toLowerCase s = map (λ c, if (0x41 <=? c) && (c <=? 0x5A) then c + 32 else c)%N s.
Proof.
  intros Hs. rewrite toLowerCase_plain; cycle 1.
  { eapply Forall_impl; [exact Hs|]. intros c Hc. cbn in Hc. lia. }
  apply map_ext_Forall. eapply Forall_impl; [exact Hs|].
  intros c Hc. by apply lowerPoint_ascii.
Qed.

(** A result below U+0300 comes from a string of the same length, code
    unit by code unit. *)
Lemma lowerPoints_images b l c :
  c ∈ l → ∃ x, x ∈ lowerPoints b l ∧ x ∈ images c ∧
               (c = 0x130%N → x = 0x307%N) ∧
               (c ≠ 0x3A3%N → c ≠ 0x130%N → x = lowerPoint c).
Proof.
  revert b. induction l as [|a l IH]; intros b; [by intros ?%elem_of_nil|].
  destruct (lowerPoints_cons b a l) as (out & -> & Hne & Hout & Hplain & Hdot & _).
  intros [Heq|Hc]%elem_of_cons.
  - subst a. destruct (decide (c = 0x130%N)) as [->|Hi].
    + exists 0x307%N. rewrite (Hdot eq_refl). split; [by right; left|].
      split; [by right; left|done].
    + destruct out as [|x out]; [done|]. exists x.
      split; [by left|]. split; [apply Hout; by left|]. split; [done|].
      intros Hs _. specialize (Hplain Hs Hi). by injection Hplain as -> _.
  - destruct (IH (if caseIgnorable a then b else cased a) Hc) as (x & Hx & H).
    exists x. split; [|done]. apply elem_of_app. by right.
Qed.

Lemma codePoints_small s :
  Forall (λ c, (c < 0x10000)%N) (codePoints s) → codePoints s = s.
Proof.
  induction s as [| x | x y s IH1 IH2] using list_pair_ind; [done|done|].
  rewrite codePoints_cons2. destruct (is_high x && is_low y) eqn:E.
  - intros [Hcp _]%Forall_cons. exfalso.
    apply andb_true_iff in E as [Hc%is_high_spec Hd%is_low_spec]. lia.
  - intros [_ Hs]%Forall_cons. by rewrite IH2.
Qed.

Lemma toLowerCase_small s :
  Forall (λ u, (u < 0x300)%N) (toLowerCase s) →
  toLowerCase s = map lowerPoint s ∧
  Forall (λ c, (c < 0x10000)%N ∧ c ≠ 0x3A3%N ∧ c ≠ 0x130%N) s.
Proof.
  intros Hsmall.
  assert (Forall (λ c, (c < 0x10000)%N ∧ c ≠ 0x3A3%N ∧ c ≠ 0x130%N) (codePoints s))
    as Hcps.
  { apply Forall_forall. intros c Hc.
    destruct (lowerPoints_images false _ c Hc) as (x & Hx & Himg & Hdot & Hplain).
    assert (Forall (λ u, (u < 0x300)%N) (codeUnits x)) as Hx'.
    { apply Forall_forall. intros u Hu. rewrite Forall_forall in Hsmall.
      apply Hsmall. unfold toLowerCase. apply list_elem_of_In, in_flat_map.
      exists x. by rewrite <- !list_elem_of_In. }
    assert ((x < 0x300)%N) as Hlt.
    { destruct (codeUnits_cases x) as [[Hu _]|(_ & h & lw & Hu & Hh & _)];
        rewrite Hu in Hx'; apply Forall_cons in Hx' as [Hlt _]; [done|].
      apply is_high_spec in Hh. lia. }
    assert (c ≠ 0x130%N) as Hi by (intros ->; specialize (Hdot eq_refl); lia).
    assert (c ≠ 0x3A3%N) as Hs.
    { intros ->. unfold images in Himg. cbn in Himg.
      repeat (apply elem_of_cons in Himg as [->|Himg]); try lia.
      by apply elem_of_nil in Himg. }
    split; [|done]. rewrite (Hplain Hs Hi) in Hlt. apply lowerPoint_plane. lia. }
  assert (codePoints s = s) as Heq.
  { apply codePoints_small. eapply Forall_impl; [exact Hcps|]. by intros c (? & _). }
  rewrite Heq in Hcps. split; [|done].
  unfold toLowerCase. rewrite Heq.
  rewrite lowerPoints_plain by (eapply Forall_impl; [exact Hcps|]; by intros c (_ & ?)).
  apply units_plain. apply Forall_forall. intros x Hx.
  apply list_elem_of_In, in_map_iff in Hx as (c & <- & Hc). apply list_elem_of_In in Hc.
  rewrite Forall_forall in Hcps. destruct (Hcps c Hc) as (Hlt & _).
  by apply lowerPoint_plane.
Qed.


(** A result in Basic Latin without the letter k comes from the same
    letters in either case, and from nothing else: on such words
    [toLowerCase] decides what a pattern with the flag [i] matches. *)
Lemma toLowerCase_ascii_inv x y :
  toLowerCase x = y → Forall (λ t, (t < 0x80)%N ∧ t ≠ 0x6B%N) y →
  Forall2 (λ c t, c = t ∨ (0x41 ≤ c ≤ 0x5A)%N ∧ t = (c + 32)%N) x y.
Proof.
  intros <- Hy.
  destruct (toLowerCase_small x) as [Heq _].
  { eapply Forall_impl; [exact Hy|]. intros t [Ht _]. cbn. lia. }
  rewrite Heq in *. clear Heq.
  induction x as [|c x IH]; [constructor|].
  cbn [map] in *. apply Forall_cons in Hy as [[Ht Hk] Hy].
  constructor; [|by apply IH].
  destruct (lowerPoint_cases c) as [->|H]; [by left|].
  apply image_ok_spec in H as (_ & _ & _ & _ & _ & _ & _ & Hascii).
  destruct (Hascii Ht) as [?|[_ ?]]; [by right | done].
Qed.

(** *** [Array.prototype.sort] *)

Section Sort.
Context {A : Type} (cmp : A → A → Z).

Lemma sort_insert_perm x l : sort_insert cmp x l ≡ₚ x :: l.
Proof.
  induction l as [|y l IH]; [done|]. cbn.
  destruct (cmp x y <=? 0); [done|].
  rewrite IH. apply Permutation_swap.
Qed.

Lemma sort_cons x l : sort cmp (x :: l) = sort_insert cmp x (sort cmp l).
Proof. reflexivity. Qed.

Lemma sort_perm l : sort cmp l ≡ₚ l.
Proof.
  induction l as [|x l IH]; [done|].
  rewrite sort_cons, sort_insert_perm. by constructor.
Qed.

Lemma sort_map {B} (cmpB : B → B → Z) (f : A → B) l :
  (∀ a b, cmpB (f a) (f b) = cmp a b) →
  sort cmpB (map f l) = map f (sort cmp l).
Proof.
  intros Hf. induction l as [|x l IH]; [done|].
  cbn [map]. unfold sort in *. cbn [foldr]. rewrite IH. clear IH.
  induction (foldr (sort_insert cmp) [] l) as [|y k IH]; [done|].
  cbn. rewrite Hf. destruct (cmp x y <=? 0); [done|]. cbn. by rewrite IH.
Qed.

End Sort.

(** Sorting by descending [key] an array whose elements carry their
    positions [idx] in increasing order ranks by key first and by
    position among equal keys. *)
Section SortByKey.
Context {A : Type} (key idx : A → nat).

Let cmp (a b : A) : Z := Z.of_nat (key b) - Z.of_nat (key a).
Let before (a b : A) : Prop :=
  (key b < key a)%nat ∨ (key a = key b ∧ (idx a < idx b)%nat).

Lemma sort_insert_ranked x l :
  StronglySorted before l →
  Forall (λ y, (idx x < idx y)%nat) l →
  StronglySorted before (sort_insert cmp x l).
Proof.
  induction 1 as [|y l Hl IH Hy]; intros Hx; [repeat constructor|].
  apply Forall_cons in Hx as [Hxy Hx]. cbn.
  destruct (Z.leb_spec (cmp x y) 0) as [Hc|Hc]; unfold cmp in Hc.
  - constructor; [by constructor|].
    assert (before x y) as Hb by (unfold before; lia).
    constructor; [done|].
    rewrite Forall_forall in Hy, Hx |- *. intros z Hz.
    specialize (Hy z Hz). specialize (Hx z Hz). unfold before in *. lia.
  - constructor; [by apply IH|].
    rewrite sort_insert_perm. constructor; [|done].
    unfold before. lia.
Qed.

Lemma sort_ranked l :
  StronglySorted (λ a b, (idx a < idx b)%nat) l →
  StronglySorted before (sort cmp l).
Proof.
  induction 1 as [|x l Hl IH Hx]; [constructor|].
  rewrite sort_cons. apply sort_insert_ranked; [done|]. by rewrite sort_perm.
Qed.

End SortByKey.

End JSFacts.

(** ** Rate limiter *)

Module RateLimiterFacts.
Import RateLimiter.

Section Limiter.
Variable v : variant.

Implicit Types (b : gmap jsstring (list Z)) (uid u : jsstring) (now t : Z)
  (tr : list call).

Lemma withinLimit_accept now uid b :
  (length (recent_of now (bucket b uid)) < MAX_REQ v)%nat →
  withinLimit v now uid b =
    (true, <[uid := recent_of now (bucket b uid) ++ [now]]> b).
Proof.
  intros Hlt. unfold withinLimit, recent_of, bucket in *.
  destruct (decide _) as [Hge|_]; [lia | reflexivity].
Qed.

Lemma withinLimit_reject now uid b :
  (MAX_REQ v ≤ length (recent_of now (bucket b uid)))%nat →
  withinLimit v now uid b = (false, <[uid := recent_of now (bucket b uid)]> b).
Proof.
  intros Hge. unfold withinLimit, recent_of, bucket in *.
  destruct (decide _) as [_|Hlt]; [reflexivity | lia].
Qed.

Lemma bucket_insert_eq uid arr b : bucket (<[uid := arr]> b) uid = arr.
Proof. unfold bucket. by rewrite lookup_insert_eq. Qed.

Lemma bucket_insert_ne uid u arr b :
  u ≠ uid → bucket (<[u := arr]> b) uid = bucket b uid.
Proof. intros Hne. unfold bucket. by rewrite lookup_insert_ne. Qed.

(** The bucket of the caller after a call. *)
Lemma bucket_withinLimit now uid b :
  bucket (withinLimit v now uid b).2 uid =
    recent_of now (bucket b uid) ++
    (if (withinLimit v now uid b).1 then [now] else []).
Proof.
  destruct (le_lt_dec (MAX_REQ v) (length (recent_of now (bucket b uid)))) as [H|H].
  - rewrite (withinLimit_reject _ _ _ H). cbn.
    by rewrite bucket_insert_eq, app_nil_r.
  - rewrite (withinLimit_accept _ _ _ H). cbn. by rewrite bucket_insert_eq.
Qed.

(** The buckets of the other users are left alone. *)
Lemma bucket_withinLimit_other now u uid b :
  u ≠ uid → bucket (withinLimit v now u b).2 uid = bucket b uid.
Proof.
  intros Hne. unfold withinLimit.
  destruct (decide _); cbn; by apply bucket_insert_ne.
Qed.

Lemma withinLimit_answer now uid b :
  (withinLimit v now uid b).1 =
    bool_decide (length (recent_of now (bucket b uid)) < MAX_REQ v)%nat.
Proof.
  destruct (le_lt_dec (MAX_REQ v) (length (recent_of now (bucket b uid)))) as [H|H].
  - rewrite (withinLimit_reject _ _ _ H). cbn.
    symmetry. apply bool_decide_eq_false. lia.
  - rewrite (withinLimit_accept _ _ _ H). cbn.
    symmetry. by apply bool_decide_eq_true.
Qed.

Lemma recent_of_spec now arr t :
  t ∈ recent_of now arr ↔ now - t < WINDOW_MS ∧ t ∈ arr.
Proof. unfold recent_of. by rewrite list_elem_of_filter. Qed.

Lemma recent_of_length now arr :
  (length (recent_of now arr) ≤ length arr)%nat.
Proof. apply length_filter. Qed.

(** *** The cap is an invariant of the map *)

Lemma capped_empty : capped v ∅.
Proof. intros uid. unfold bucket. rewrite lookup_empty. cbn. lia. Qed.

Lemma capped_withinLimit now u b : capped v b → capped v (withinLimit v now u b).2.
Proof.
  intros Hb uid. destruct (decide (u = uid)) as [->|Hne].
  - rewrite bucket_withinLimit, withinLimit_answer, length_app.
    case_bool_decide; cbn.
    + lia.
    + pose proof (recent_of_length now (bucket b uid)). specialize (Hb uid). lia.
  - rewrite bucket_withinLimit_other by done. apply Hb.
Qed.

Lemma capped_run tr : ∀ b, capped v b → capped v (run v tr b).2.
Proof.
  induction tr as [|[u now] tr IH]; intros b Hb; cbn; [done|].
  apply IH. by apply capped_withinLimit.
Qed.

Lemma capped_after tr : capped v (after v tr).
Proof. apply capped_run, capped_empty. Qed.

(** *** Accepted calls stay recorded while they are recent *)

Lemma times_of_cons uid u t tr :
  times_of uid ((u, t) :: tr) =
    if decide (u = uid) then t :: times_of uid tr else times_of uid tr.
Proof.
  unfold times_of. rewrite filter_cons. cbn.
  destruct (decide (u = uid)); reflexivity.
Qed.

Lemma recent_of_app now l1 l2 :
  recent_of now (l1 ++ l2) = recent_of now l1 ++ recent_of now l2.
Proof. unfold recent_of. apply filter_app. Qed.

Lemma recent_of_all now arr :
  (∀ t, t ∈ arr → now - t < WINDOW_MS) → recent_of now arr = arr.
Proof.
  intros H. unfold recent_of. induction arr as [|t arr IH]; [done|].
  rewrite filter_cons. destruct (decide _) as [_|Hn].
  - f_equal. apply IH. intros t' Ht'. apply H. by right.
  - exfalso. apply Hn, H. by left.
Qed.

Lemma all_within_spec now ts :
  all_within now ts = true ↔ ∀ t, t ∈ ts → now - t < WINDOW_MS.
Proof.
  unfold all_within. rewrite forallb_forall. split; intros H t Ht.
  - apply Z.ltb_lt, H. by apply list_elem_of_In.
  - apply Z.ltb_lt, H. by apply list_elem_of_In.
Qed.

Lemma monotone_cons t ts :
  monotone (t :: ts) = true ↔ (∀ t', t' ∈ ts → t ≤ t') ∧ monotone ts = true.
Proof.
  cbn. rewrite andb_true_iff, forallb_forall. split; intros [H1 H2]; split; try done.
  - intros t' Ht'. apply Z.leb_le, H1. by apply list_elem_of_In.
  - intros t' Ht'. apply Z.leb_le, H1. by apply list_elem_of_In.
Qed.

Lemma run_keeps uid now seg :
  ∀ b pre keep,
    bucket b uid = pre ++ keep →
    all_accepted v uid seg b = true →
    monotone (times_of uid seg ++ [now]) = true →
    all_within now (keep ++ times_of uid seg) = true →
    ∃ pre', bucket (run v seg b).2 uid = pre' ++ keep ++ times_of uid seg.
Proof.
  induction seg as [|[u t] seg IH]; intros b pre keep Hb Hacc Hmono Hkeep.
  - exists pre. cbn. by rewrite app_nil_r.
  - cbn in Hacc. apply andb_true_iff in Hacc as [Hu Hacc].
    rewrite times_of_cons in *. cbn [run snd].
    destruct (decide (u = uid)) as [->|Hne].
    + apply monotone_cons in Hmono as [Hle Hmono].
      assert (t ≤ now) as Ht by (apply Hle; set_solver).
      destruct (IH (withinLimit v t uid b).2 (recent_of t pre) (keep ++ [t]))
        as [pre' Hpre']; try done.
      * rewrite bucket_withinLimit, Hu, Hb, recent_of_app.
        rewrite (recent_of_all t keep); [by rewrite <- app_assoc|].
        intros k Hk. apply all_within_spec with (t := k) in Hkeep; [lia|].
        apply elem_of_app. by left.
      * by rewrite <- app_assoc.
      * exists pre'. rewrite Hpre'. by rewrite <- !app_assoc.
    + apply (IH _ pre keep); try done.
      by rewrite bucket_withinLimit_other.
Qed.

(** *** A user with room in the bucket is served *)

Lemma all_accepted_room uid seg :
  ∀ b, (length (bucket b uid) + length (times_of uid seg) ≤ MAX_REQ v)%nat →
       all_accepted v uid seg b = true.
Proof.
  induction seg as [|[u t] seg IH]; intros b Hroom; [done|].
  cbn [all_accepted]. rewrite times_of_cons in Hroom.
  destruct (decide (u = uid)) as [->|Hne].
  - cbn [length] in Hroom.
    pose proof (recent_of_length t (bucket b uid)) as Hrec.
    assert ((withinLimit v t uid b).1 = true) as Hacc.
    { rewrite withinLimit_answer. apply bool_decide_eq_true. lia. }
    rewrite Hacc. cbn [andb]. apply IH.
    rewrite bucket_withinLimit, Hacc, length_app. cbn [length]. lia.
  - cbn [andb]. apply IH. by rewrite bucket_withinLimit_other.
Qed.

Lemma bucket_run_other uid tr :
  ∀ b, times_of uid tr = [] → bucket (run v tr b).2 uid = bucket b uid.
Proof.
  induction tr as [|[u t] tr IH]; intros b Hnone; [done|].
  rewrite times_of_cons in Hnone. cbn [run snd].
  destruct (decide (u = uid)) as [->|Hne]; [done|].
  rewrite IH by done. by apply bucket_withinLimit_other.
Qed.

Lemma bucket_after_fresh uid history :
  times_of uid history = [] → bucket (after v history) uid = [].
Proof.
  intros Hnone. unfold after. rewrite bucket_run_other by done.
  unfold bucket. by rewrite lookup_empty.
Qed.

(** *** The three behaviours of a call *)

Lemma withinLimit_drops now uid b t :
  WINDOW_MS ≤ now - t → t ∉ bucket (withinLimit v now uid b).2 uid.
Proof.
  intros Hold Hin. rewrite bucket_withinLimit in Hin.
  apply elem_of_app in Hin as [Hin|Hin].
  - apply recent_of_spec in Hin as [Hlt _]. lia.
  - destruct (withinLimit v now uid b).1; [|by apply elem_of_nil in Hin].
    apply list_elem_of_singleton in Hin as ->. unfold WINDOW_MS in Hold. lia.
Qed.

Lemma next_call_rejected now uid seg b :
  length (times_of uid seg) = MAX_REQ v →
  all_accepted v uid seg b = true →
  monotone (times_of uid seg ++ [now]) = true →
  all_within now (times_of uid seg) = true →
  (withinLimit v now uid (run v seg b).2).1 = false.
Proof.
  intros Hlen Hacc Hmono Hwin.
  destruct (run_keeps uid now seg b (bucket b uid) []) as [pre Hpre]; try done.
  { by rewrite app_nil_r. }
  rewrite withinLimit_answer. apply bool_decide_eq_false.
  rewrite Hpre. cbn [app]. rewrite recent_of_app, length_app.
  rewrite (recent_of_all now (times_of uid seg)) by by apply all_within_spec.
  lia.
Qed.

Lemma elapsed_accepted now uid b t :
  capped v b → t ∈ bucket b uid → WINDOW_MS ≤ now - t →
  (withinLimit v now uid b).1 = true.
Proof.
  intros Hcap Hin Hold. rewrite withinLimit_answer. apply bool_decide_eq_true.
  specialize (Hcap uid).
  enough (length (recent_of now (bucket b uid)) < length (bucket b uid))%nat by lia.
  unfold recent_of. apply (length_filter_lt _ _ t); [done | lia].
Qed.

(** *** Under a monotone clock no stored timestamp lies in the future *)

Lemma not_after_run now tr :
  ∀ b,
    (∀ uid t, t ∈ bucket b uid → ∀ t', t' ∈ map snd tr ++ [now] → t ≤ t') →
    monotone (map snd tr ++ [now]) = true →
    not_after now (run v tr b).2.
Proof.
  induction tr as [|[u t0] tr IH]; intros b Hb Hmono.
  - intros uid t Ht. apply (Hb uid t Ht). cbn. set_solver.
  - cbn [run snd]. cbn [map snd app] in Hmono.
    apply monotone_cons in Hmono as [Hle Hmono].
    apply IH; [|done].
    intros uid t Ht t' Ht'.
    destruct (decide (u = uid)) as [->|Hne].
    + rewrite bucket_withinLimit in Ht.
      apply elem_of_app in Ht as [Ht|Ht].
      * apply recent_of_spec in Ht as [_ Ht].
        apply (Hb uid t Ht). cbn. by right.
      * destruct (withinLimit v t0 uid b).1; [|by apply elem_of_nil in Ht].
        apply list_elem_of_singleton in Ht as ->. by apply Hle.
    + rewrite bucket_withinLimit_other in Ht by done.
      apply (Hb uid t Ht). cbn. by right.
Qed.

Lemma not_after_history now tr :
  monotone (map snd tr ++ [now]) = true → not_after now (after v tr).
Proof.
  intros Hmono. apply not_after_run; [|done].
  intros uid t Ht. unfold bucket in Ht. rewrite lookup_empty in Ht.
  by apply elem_of_nil in Ht.
Qed.

End Limiter.

(** A timestamp exactly one window old is dropped; one a millisecond
    younger is kept. *)
Example withinLimit_boundary :
  withinLimit RuleBased 60000 (lit "alice") {[ lit "alice" := [0; 1] ]} =
    (true, {[ lit "alice" := [1; 60000] ]}).
Proof. vm_compute. reflexivity. Qed.

(** C1, amended: only accepted calls are recorded and counted.  Window
    [WINDOW_MS = 60000], cap [MAX_REQ] (20 in the rule-based callable, 15
    in the Hugging Face one).  For every user id and every map: a call
    leaves in the caller's bucket exactly the timestamps less than one
    window old, followed by the new reading when the call is accepted, so
    nothing as old as the window survives.  When, after any history, a
    user makes [MAX_REQ] accepted calls (other users' calls in between)
    and then calls again while the clock has not gone back and all those
    calls are less than one window old, this next call is rejected; for a
    user without earlier calls the [MAX_REQ] calls are all accepted, so
    the call number [MAX_REQ + 1] within the window is the rejected one.
    A call made when a full window has elapsed since a recorded call of
    that user (the oldest one in particular) is accepted. *)
Theorem withinLimit_window_cap (v : variant) (history seg : list call)
    (uid : jsstring) (now : Z) :
  WINDOW_MS = 60000 ∧ MAX_REQ RuleBased = 20%nat ∧ MAX_REQ HuggingFace = 15%nat ∧
  (∀ b, bucket (withinLimit v now uid b).2 uid =
          filter (λ t, now - t < WINDOW_MS) (bucket b uid) ++
          (if (withinLimit v now uid b).1 then [now] else [])) ∧
  (∀ b t, WINDOW_MS ≤ now - t → t ∉ bucket (withinLimit v now uid b).2 uid) ∧
  (length (times_of uid seg) = MAX_REQ v →
   all_accepted v uid seg (after v history) = true →
   monotone (times_of uid seg ++ [now]) = true →
   all_within now (times_of uid seg) = true →
   (withinLimit v now uid (run v seg (after v history)).2).1 = false) ∧
  (times_of uid history = [] →
   length (times_of uid seg) = MAX_REQ v →
   monotone (times_of uid seg ++ [now]) = true →
   all_within now (times_of uid seg) = true →
   all_accepted v uid seg (after v history) = true ∧
   (withinLimit v now uid (run v seg (after v history)).2).1 = false) ∧
  (∀ t, t ∈ bucket (after v history) uid → WINDOW_MS ≤ now - t →
   (withinLimit v now uid (after v history)).1 = true).
Proof.
  split; [reflexivity|]. split; [reflexivity|]. split; [reflexivity|].
  split; [intros b; apply bucket_withinLimit|].
  split; [intros b t; apply withinLimit_drops|].
  split; [apply next_call_rejected|]. split.
  - intros Hfresh Hlen Hmono Hwin.
    assert (all_accepted v uid seg (after v history) = true) as Hacc.
    { apply all_accepted_room. rewrite bucket_after_fresh by done. cbn. lia. }
    split; [done|]. by apply next_call_rejected.
  - intros t. apply elapsed_accepted, capped_after.
Qed.

Lemma withinLimit_window_cap_witness :
  (withinLimit RuleBased 59999 (lit "alice")
     (run RuleBased
        (flat_map (λ i, [(lit "alice", 1000 * Z.of_nat i); (lit "bob", 1000 * Z.of_nat i)])
                  (seq 0 20))
        (after RuleBased [(lit "alice", -70000)])).2).1 = false ∧
  (withinLimit HuggingFace 14 (lit "alice")
     (run HuggingFace (map (λ i, (lit "alice", Z.of_nat i)) (seq 0 15))
        (after HuggingFace [(lit "bob", 0)])).2).1 = false ∧
  (withinLimit HuggingFace 60000 (lit "alice")
     (after HuggingFace [(lit "alice", 0); (lit "alice", 30000)])).1 = true.
Proof.
  split; [|split].
  - destruct (withinLimit_window_cap RuleBased [(lit "alice", -70000)]
                (flat_map (λ i, [(lit "alice", 1000 * Z.of_nat i); (lit "bob", 1000 * Z.of_nat i)])
                          (seq 0 20))
                (lit "alice") 59999) as (_ & _ & _ & _ & _ & H & _).
    apply H; vm_compute; reflexivity.
  - destruct (withinLimit_window_cap HuggingFace [(lit "bob", 0)]
                (map (λ i, (lit "alice", Z.of_nat i)) (seq 0 15))
                (lit "alice") 14) as (_ & _ & _ & _ & _ & _ & H & _).
    apply H; vm_compute; reflexivity.
  - destruct (withinLimit_window_cap HuggingFace [(lit "alice", 0); (lit "alice", 30000)] []
                (lit "alice") 60000) as (_ & _ & _ & _ & _ & _ & _ & H).
    apply (H 0).
    + vm_compute. left.
    + vm_compute. discriminate.
Defined.

(** C1 as stated fails, because a rejected call is not recorded.  A
    user is accepted at 0, 1, ..., 19 ms and rejected at 59999 ms; the
    calls at 60000, ..., 60019 ms are then accepted one by one as the
    first twenty readings leave the window.  The call at 60019 ms is the
    twenty-first call of that user within the last 60000 ms, and it is
    accepted. *)
Lemma withinLimit_counts_accepted_only :
  let alice := lit "alice" in
  let calls :=
    map (λ i, (alice, Z.of_nat i)) (seq 0 20) ++ [(alice, 59999)]
    ++ map (λ i, (alice, 60000 + Z.of_nat i)) (seq 0 20) in
  MAX_REQ RuleBased = 20%nat ∧
  length (filter (λ t, 60019 - t < WINDOW_MS) (times_of alice calls)) = 21%nat ∧
  (run RuleBased calls ∅).1 = repeat true 20 ++ [false] ++ repeat true 20 ∧
  last (run RuleBased calls ∅).1 = Some true.
Proof. vm_compute. repeat split; reflexivity. Qed.

(** C9.  After any history served by a fresh process, and whether the
    next call is accepted or rejected, the caller's bucket holds at most
    [MAX_REQ] timestamps, each less than [WINDOW_MS] before the reading of
    that call (and not after it when the clock has never gone back); a
    rejected call stores the filtered old bucket and nothing else. *)
Theorem bucket_invariant (v : variant) (history : list call)
    (uid : jsstring) (now : Z) :
  (length (bucket (withinLimit v now uid (after v history)).2 uid) ≤ MAX_REQ v)%nat ∧
  (∀ t, t ∈ bucket (withinLimit v now uid (after v history)).2 uid →
        now - t < WINDOW_MS) ∧
  (monotone (map snd history ++ [now]) = true →
   ∀ t, t ∈ bucket (withinLimit v now uid (after v history)).2 uid →
        0 ≤ now - t < WINDOW_MS) ∧
  ((withinLimit v now uid (after v history)).1 = false →
   bucket (withinLimit v now uid (after v history)).2 uid =
     filter (λ t, now - t < WINDOW_MS) (bucket (after v history) uid) ∧
   sublist (bucket (withinLimit v now uid (after v history)).2 uid)
           (bucket (after v history) uid) ∧
   length (bucket (withinLimit v now uid (after v history)).2 uid) = MAX_REQ v).
Proof.
  assert (∀ t, t ∈ bucket (withinLimit v now uid (after v history)).2 uid →
               now - t < WINDOW_MS) as Hrecent.
  { intros t Hin. rewrite bucket_withinLimit in Hin.
    apply elem_of_app in Hin as [Hin|Hin].
    - by apply recent_of_spec in Hin as [Hlt _].
    - destruct (withinLimit v now uid _).1; [|by apply elem_of_nil in Hin].
      apply list_elem_of_singleton in Hin as ->. unfold WINDOW_MS. lia. }
  split; [apply capped_withinLimit, capped_after|].
  split; [exact Hrecent|]. split.
  - intros Hmono t Hin. split; [|by apply Hrecent].
    pose proof (not_after_history v now history Hmono uid) as Hle.
    rewrite bucket_withinLimit in Hin.
    apply elem_of_app in Hin as [Hin|Hin].
    + apply recent_of_spec in Hin as [_ Hin]. specialize (Hle t Hin). lia.
    + destruct (withinLimit v now uid _).1; [|by apply elem_of_nil in Hin].
      apply list_elem_of_singleton in Hin as ->. lia.
  - intros Hrej.
    pose proof (capped_after v history uid) as Hcap.
    pose proof (recent_of_length now (bucket (after v history) uid)) as Hlen.
    rewrite withinLimit_answer in Hrej. apply bool_decide_eq_false in Hrej.
    rewrite bucket_withinLimit, withinLimit_answer.
    rewrite bool_decide_eq_false_2 by done. rewrite app_nil_r.
    split; [reflexivity|]. split; [apply sublist_filter|]. lia.
Qed.

Lemma bucket_invariant_witness :
  (∀ t, t ∈ bucket (withinLimit HuggingFace 20 (lit "alice")
                      (after HuggingFace (map (λ i, (lit "alice", Z.of_nat i)) (seq 0 20)))).2
                   (lit "alice") →
        0 ≤ 20 - t < WINDOW_MS) ∧
  length (bucket (withinLimit HuggingFace 20 (lit "alice")
                    (after HuggingFace (map (λ i, (lit "alice", Z.of_nat i)) (seq 0 20)))).2
                 (lit "alice")) = 15%nat.
Proof.
  split.
  - apply (bucket_invariant HuggingFace
             (map (λ i, (lit "alice", Z.of_nat i)) (seq 0 20)) (lit "alice") 20).
    vm_compute. reflexivity.
  - apply (bucket_invariant HuggingFace
             (map (λ i, (lit "alice", Z.of_nat i)) (seq 0 20)) (lit "alice") 20).
    vm_compute. reflexivity.
Defined.

End RateLimiterFacts.

(** ** Tag normalisation *)

Module TagsFacts.
Import JS Tags JSFacts.

Lemma normalizeTag_idemp t : normalizeTag (normalizeTag t) = normalizeTag t.
Proof.
  unfold normalizeTag.
  by rewrite (toLowerCase_trimmed _ (trim_idemp t)), toLowerCase_idemp.
Qed.



Lemma first_occurrences_filter (P : jsstring → Prop) `{!∀ x, Decision (P x)} l :
  first_occurrences (filter P l) = filter P (first_occurrences l).
Proof.
  induction l as [|x l IH]; [done|].
  cbn [first_occurrences]. rewrite !filter_cons.
  destruct (decide (P x)) as [HP|HP].
  - cbn [first_occurrences]. f_equal. rewrite IH.
    rewrite !list_filter_filter. apply list_filter_iff. intros y. tauto.
  - rewrite IH. rewrite list_filter_filter. apply list_filter_iff.
    intros y. split; [|tauto]. intros Hy. split; [done|]. by intros ->.
Qed.

Lemma first_occurrences_elem x l : x ∈ first_occurrences l ↔ x ∈ l.
Proof.
  induction l as [|y l IH]; [done|].
  cbn [first_occurrences]. rewrite !elem_of_cons, list_elem_of_filter, IH.
  destruct (decide (x = y)); tauto.
Qed.

Lemma first_occurrences_NoDup l : NoDup (first_occurrences l).
Proof.
  induction l as [|y l IH]; [constructor|].
  cbn [first_occurrences]. constructor.
  - rewrite list_elem_of_filter. tauto.
  - by apply NoDup_filter.
Qed.

Lemma filter_ne_id (x : jsstring) (l : list jsstring) : x ∉ l → filter (λ y, y ≠ x) l = l.
Proof.
  induction l as [|y l IH]; [done|]. intros Hx.
  apply not_elem_of_cons in Hx as [Hne Hx].
  rewrite filter_cons_True by done. f_equal. by apply IH.
Qed.

Lemma first_occurrences_id l : NoDup l → first_occurrences l = l.
Proof.
  induction 1 as [|x l Hx Hl IH]; [done|].
  cbn [first_occurrences]. f_equal. rewrite IH. by apply filter_ne_id.
Qed.

(** [new Set(arr)] lists the first occurrences. *)
Lemma Set_from_acc l : ∀ acc,
  foldl Set_add acc l = acc ++ first_occurrences (filter (λ x, x ∉ acc) l).
Proof.
  induction l as [|x l IH]; intros acc; [by rewrite app_nil_r|].
  cbn [foldl]. rewrite IH, filter_cons. unfold Set_add.
  destruct (decide (x ∉ acc)) as [Hx|Hx].
  - rewrite bool_decide_eq_false_2 by done.
    cbn [first_occurrences]. rewrite <- app_assoc. cbn [app]. do 2 f_equal.
    rewrite <- first_occurrences_filter. f_equal.
    rewrite list_filter_filter. apply list_filter_iff. intros y.
    rewrite not_elem_of_app, list_elem_of_singleton. tauto.
  - rewrite bool_decide_eq_true_2; [done|].
    destruct (decide (x ∈ acc)); tauto.
Qed.

Lemma Set_from_first_occurrences l : Set_from l = first_occurrences l.
Proof.
  unfold Set_from. rewrite Set_from_acc. cbn [app]. f_equal.
  induction l as [|x l IH]; [done|].
  rewrite filter_cons_True by apply not_elem_of_nil. by f_equal.
Qed.

Lemma finalizeTags_survivors tags : finalizeTags tags = take 3 (survivors tags).
Proof.
  unfold finalizeTags, survivors. rewrite Set_from_first_occurrences. f_equal.
  apply list_filter_iff. intros [|c t]; cbn; split; congruence.
Qed.

Lemma survivors_NoDup tags : NoDup (survivors tags).
Proof. unfold survivors. apply NoDup_filter, first_occurrences_NoDup. Qed.

Lemma survivors_elem t tags :
  t ∈ survivors tags ↔ t ≠ [] ∧ ∃ x, x ∈ tags ∧ t = normalizeTag x.
Proof.
  unfold survivors.
  rewrite list_elem_of_filter, first_occurrences_elem, list_elem_of_fmap.
  split; intros [H1 (x & H2 & H3)]; (split; [done|]); exists x; by split.
Qed.

(** A list that is already clean is the list of its own survivors. *)
Lemma survivors_clean tags :
  Forall (λ t, normalizeTag t = t ∧ t ≠ []) tags → NoDup tags →
  survivors tags = tags.
Proof.
  intros Hclean Hnd. unfold survivors.
  assert (map normalizeTag tags = tags) as ->.
  { induction Hclean as [|t l [Ht _] _ IH]; [done|]. cbn. rewrite Ht. f_equal.
    apply IH. by apply NoDup_cons in Hnd as [_ ?]. }
  rewrite first_occurrences_id by done.
  clear Hnd. induction Hclean as [|t l [_ Ht] _ IH]; [done|].
  rewrite filter_cons_True by done. by f_equal.
Qed.

Lemma finalizeTags_clean tags :
  Forall (λ t, normalizeTag t = t ∧ t ≠ []) (finalizeTags tags) ∧
  NoDup (finalizeTags tags).
Proof.
  rewrite finalizeTags_survivors. split.
  - apply Forall_forall. intros t Ht.
    assert (t ∈ survivors tags) as Hs.
    { by apply (sublist_subseteq _ _ (sublist_take _ 3)). }
    apply survivors_elem in Hs as [Hne (x & _ & ->)].
    split; [apply normalizeTag_idemp | done].
  - eapply sublist_NoDup; [apply survivors_NoDup | apply sublist_take].
Qed.



Example finalizeTags_sample :
  finalizeTags [lit " Music "; lit "music"; lit ""; lit "LIVE"; lit "Rock"; lit "jazz"]
  = [lit "music"; lit "live"; lit "rock"].
Proof. vm_compute. reflexivity. Qed.

(** Tags beyond Latin-1: capital and small omega are one tag, the dotted
    capital I (U+0130) becomes i followed by the combining dot, and a
    capital sigma at the end of a word becomes the final sigma. *)
Example finalizeTags_unicode :
  finalizeTags [[0x3A9%N]; [0x3C9%N]; [0x130%N]; [0x78%N]]
  = [[0x3C9%N]; [0x69%N; 0x307%N]; [0x78%N]] ∧
  normalizeTag [0x20%N; 0x39F%N; 0x394%N; 0x39F%N; 0x3A3%N; 0x20%N]
  = [0x3BF%N; 0x3B4%N; 0x3BF%N; 0x3C2%N] ∧
  normalizeTag [0x212A%N; 0xD801%N; 0xDC00%N] = [0x6B%N; 0xD801%N; 0xDC28%N].
Proof. vm_compute. repeat split; reflexivity. Qed.

End TagsFacts.

(** ** The rule-based callable *)

Module RuleBasedChatFacts.
Import JS RuleBasedChat JSFacts.

Example detectIntent_samples :
  detectIntent (lit "Please SUMMARIZE this") = summarize ∧
  detectIntent (lit "recommend next") = recommend ∧
  detectIntent (lit "quiz me") = quiz ∧
  detectIntent (lit "make a study plan") = plan ∧
  detectIntent (lit "rust tutorial") = search.
Proof. vm_compute. auto. Qed.

Lemma fetchPlaylistClips_total db uid pid limit :
  ∃ clips, fetchPlaylistClips db uid pid limit = Ok clips.
Proof.
  unfold fetchPlaylistClips.
  destruct pid as [[|c p]|]; try (by eexists).
  destruct (negb (nonempty uid)); [by eexists|].
  destruct (get_playlist_clips db uid (c :: p) limit); by eexists.
Qed.

Lemma hfChat_total db now buckets auth_uid message pid :
  ∃ r, (hfChat db now buckets auth_uid message pid).1 = Ok r.
Proof.
  unfold hfChat.
  destruct (negb _); [by eexists|].
  destruct (_ || _); [by eexists|].
  cbn [fst]. destruct (truthy pid); [|by eexists].
  destruct (fetchPlaylistClips_total db (or_str auth_uid (lit "anonymous")) pid 25)
    as [clips ->].
  by eexists.
Qed.

(** C2.  With zero clips the helpers and the four branches of the
    callable return fixed texts that say that there are no clips
    (each contains ["No clips"]), whatever the message of that intent is;
    the callable never throws. *)
Theorem respond_zero_clips (message : jsstring) :
  summarizeClips [] = lit "No clips found in this playlist." ∧
  (∀ previousTitles, recommendClip [] previousTitles = None) ∧
  (∀ n, generateQuiz [] n = [lit "No clips available for quiz."]) ∧
  (detectIntent message = summarize →
   respond message [] = Reply (lit "No clips found in this playlist.")) ∧
  (detectIntent message = recommend →
   respond message [] = Reply (lit "No clips found to recommend.")) ∧
  (detectIntent message = quiz →
   respond message [] =
     Reply (lit "Quiz:" ++ nl ++ lit "1. No clips available for quiz.")) ∧
  (detectIntent message = plan → respond message [] = Reply emptyPlan) ∧
  (detectIntent message ≠ search →
   ∃ text, respond message [] = Reply text ∧ includes text (lit "No clips") = true) ∧
  (∀ db now buckets auth_uid data_message pid,
     ∃ r, (hfChat db now buckets auth_uid data_message pid).1 = Ok r).
Proof.
  split; [reflexivity|]. split; [reflexivity|]. split; [reflexivity|].
  unfold respond.
  split; [by intros ->|]. split; [by intros ->|].
  split; [by intros ->|]. split; [by intros ->|].
  split; [|intros; apply hfChat_total].
  destruct (detectIntent message); intros Hne; try done;
    eexists; (split; [reflexivity | vm_compute; reflexivity]).
Qed.

Lemma respond_zero_clips_witness :
  respond (lit "summarize playlist") [] = Reply (lit "No clips found in this playlist.") ∧
  respond (lit "recommend next") [] = Reply (lit "No clips found to recommend.") ∧
  respond (lit "quiz me") [] =
    Reply (lit "Quiz:" ++ nl ++ lit "1. No clips available for quiz.") ∧
  respond (lit "study plan") [] = Reply emptyPlan ∧
  ∃ text, respond (lit "study plan") [] = Reply text ∧
          includes text (lit "No clips") = true.
Proof.
  split; [|split; [|split; [|split]]].
  - apply (respond_zero_clips (lit "summarize playlist")). vm_compute. reflexivity.
  - apply (respond_zero_clips (lit "recommend next")). vm_compute. reflexivity.
  - apply (respond_zero_clips (lit "quiz me")). vm_compute. reflexivity.
  - apply (respond_zero_clips (lit "study plan")). vm_compute. reflexivity.
  - destruct (respond_zero_clips (lit "study plan")) as (_ & _ & _ & _ & _ & _ & _ & H & _).
    apply H. vm_compute. discriminate.
Defined.

(** C10.  With an empty list of previous titles [recommendClip] returns
    the first clip of a non-empty list, and the callable passes the empty
    list: its recommend branch answers with that first clip. *)
Theorem recommendClip_first (c : clip) (cs : list clip) (message : jsstring) :
  recommendClip (c :: cs) [] = Some c ∧
  (detectIntent message = recommend →
   respond message (c :: cs) =
     Reply (lit "Recommended: "
            ++ to_str (or (anyTitle c) (originalUrl c)) ++ nl ++ nl
            ++ shortText (or_str (description c) (lit "No description")) 300
            ++ nl ++ nl ++ lit "Link: " ++ or_str (originalUrl c) (lit "N/A"))).
Proof.
  assert (recommendClip (c :: cs) [] = Some c) as Hrec by reflexivity.
  split; [done|]. intros Hint. unfold respond. by rewrite Hint, Hrec.
Qed.

(** *** Ranking of the search fallback *)

Lemma number_from_snd {A} (l : list A) : ∀ k, map snd (number_from k l) = l.
Proof. induction l as [|x l IH]; intros k; [done|]. cbn. by rewrite IH. Qed.

Lemma number_from_ge {A} (l : list A) :
  ∀ k, Forall (λ y, (k ≤ y.1)%nat) (number_from k l).
Proof.
  induction l as [|x l IH]; intros k; [constructor|].
  cbn. constructor; [cbn; lia|].
  eapply Forall_impl; [apply (IH (S k))|]. cbn. intros y Hy. lia.
Qed.

Lemma number_from_sorted {A} (l : list A) :
  ∀ k, StronglySorted (λ a b : nat * A, (a.1 < b.1)%nat) (number_from k l).
Proof.
  induction l as [|x l IH]; intros k; [constructor|].
  cbn. constructor; [apply IH|].
  eapply Forall_impl; [apply (number_from_ge l (S k))|]. cbn. intros y Hy. lia.
Qed.

Lemma StronglySorted_filter {A} (R : A → A → Prop) (P : A → Prop)
    `{!∀ x, Decision (P x)} l :
  StronglySorted R l → StronglySorted R (filter P l).
Proof.
  induction 1 as [|x l Hl IH Hx]; [constructor|].
  rewrite filter_cons. destruct (decide (P x)); [|done].
  constructor; [done|].
  rewrite Forall_forall in Hx |- *. intros y Hy.
  apply list_elem_of_filter in Hy as [_ Hy]. by apply Hx.
Qed.

Lemma filter_map {A B} (f : A → B) (P : B → Prop) `{!∀ y, Decision (P y)} l :
  filter P (map f l) = map f (filter (λ x, P (f x)) l).
Proof.
  induction l as [|x l IH]; [done|].
  cbn [map]. rewrite !filter_cons, IH. by destruct (decide (P (f x))).
Qed.

Lemma searchText_nonempty c : nonempty (searchText c) = true.
Proof. unfold searchText. by destruct (or_str (anyTitle c) []). Qed.

Lemma score_of_words query c :
  score_of query c =
    if nonempty query
    then length (filter (λ w, includes (toLowerCase (searchText c)) w = true)
                        (queryWords query))
    else 0%nat.
Proof.
  unfold score_of, scoreText. rewrite searchText_nonempty.
  by destruct (nonempty query).
Qed.

(** C3, as the code has it.  The search fallback scores a clip by the
    number of white-space separated words of the lower-cased query that
    occur in the lower-cased text [title + " " + description] of the clip
    (the tags are not part of that text), keeps the clips with a positive
    score and returns the first five of their ranking by descending
    score, clips of equal score staying in the order of the list that was
    loaded. *)
Theorem searchClips_ranking (clips : list clip) (query : jsstring) :
  (∀ c, searchText c = or_str (or (customTitle c) (title c)) [] ++ lit " "
                        ++ or_str (description c) []) ∧
  (∀ c, score_of query c =
          if nonempty query
          then length (filter (λ w, includes (toLowerCase (searchText c)) w = true)
                              (queryWords query))
          else 0%nat) ∧
  ∃ ranked : list (nat * clip),
    ranked ≡ₚ filter (λ x, (0 < score_of query x.2)%nat) (number_from 0 clips) ∧
    StronglySorted (ranks_before query) ranked ∧
    searchClips clips query 5 = map snd (take 5 ranked).
Proof.
  split; [done|]. split; [apply score_of_words|].
  set (I := filter (λ x : nat * clip, (0 < score_of query x.2)%nat) (number_from 0 clips)).
  set (cmpI := λ a b : nat * clip,
         Z.of_nat (score_of query b.2) - Z.of_nat (score_of query a.2)).
  exists (sort cmpI I). split; [apply sort_perm|]. split.
  - apply (sort_ranked (λ x : nat * clip, score_of query x.2) fst).
    apply StronglySorted_filter, number_from_sorted.
  - unfold searchClips, slice. cbn [drop Nat.sub].
    set (g := λ x : nat * clip, (x.2, score_of query x.2)).
    assert (filter (λ x : clip * nat, (0 < x.2)%nat)
              (map (λ c, (c, scoreText query (searchText c))) clips) = map g I) as ->.
    { rewrite <- (number_from_snd clips 0) at 1. rewrite map_map.
      unfold I. by rewrite filter_map. }
    rewrite (sort_map cmpI _ g) by done.
    rewrite drop_0, firstn_map, map_map. reflexivity.
Qed.

(** C3 as stated fails: a clip whose tags contain the word of the query,
    and whose title and description do not, has score one on title,
    description and tags, and is not returned. *)
Lemma searchClips_ignores_tags :
  let c := {| clipId := lit "c1"; customTitle := Some (lit "Intro");
              title := None; description := Some (lit "Basics");
              originalUrl := None; watchUrl := None; videoSite := None;
              tags := Some [lit "python"]; playlistIds := None;
              createdAt := None; duration := Absent; watched := false |} in
  scoreText (lit "python") (specSearchText c) = 1%nat ∧
  searchClips [c] (lit "python") 5 = [].
Proof. vm_compute. split; reflexivity. Qed.

Lemma recommendClip_first_witness :
  respond (lit "what should I watch next")
          [titledClip (lit "c9") (Some (lit "Newest")); titledClip (lit "c1") (Some (lit "Oldest"))]
  = Reply (lit "Recommended: Newest" ++ nl ++ nl ++ lit "No description"
           ++ nl ++ nl ++ lit "Link: N/A").
Proof.
  apply (recommendClip_first (titledClip (lit "c9") (Some (lit "Newest")))
           [titledClip (lit "c1") (Some (lit "Oldest"))]
           (lit "what should I watch next")).
  vm_compute. reflexivity.
Defined.

End RuleBasedChatFacts.

(** ** Failing reads of the document store *)

Module StoreFailureFacts.
Import JS.

Lemma buildPlaylistContext_total db uid pid :
  ∃ ctx, HuggingFaceChat.buildPlaylistContext db uid pid = Ok ctx.
Proof.
  unfold HuggingFaceChat.buildPlaylistContext.
  destruct pid as [[|p0 p]|]; try (by eexists).
  destruct (negb (nonempty uid)); [by eexists|].
  destruct (get_playlist db uid (p0 :: p)) as [pl|e]; [|by eexists].
  destruct (get_playlist_clips db uid (p0 :: p) 12) as [clips|e]; [|by eexists].
  cbn. destruct (negb _); by eexists.
Qed.

Lemma buildPlaylistContext_failure db uid pid :
  (∃ e, get_playlist db uid pid = Throw e) ∨
  (∃ e, get_playlist_clips db uid pid 12 = Throw e) →
  HuggingFaceChat.buildPlaylistContext db uid (Some pid) = Ok [].
Proof.
  intros Hfail. unfold HuggingFaceChat.buildPlaylistContext.
  destruct pid as [|p0 p]; [done|].
  destruct (negb (nonempty uid)); [done|].
  destruct Hfail as [[e He]|[e He]].
  - by rewrite He.
  - rewrite He. by destruct (get_playlist db uid (p0 :: p)).
Qed.

Lemma fetchPlaylistClips_failure db uid pid limit :
  (∃ e, get_playlist_clips db uid pid limit = Throw e) →
  RuleBasedChat.fetchPlaylistClips db uid (Some pid) limit = Ok [].
Proof.
  intros [e He]. unfold RuleBasedChat.fetchPlaylistClips.
  destruct pid as [|p0 p]; [done|].
  destruct (negb (nonempty uid)); [done|]. by rewrite He.
Qed.

(** C6.  When a read of the store throws while the context is built,
    [buildPlaylistContext] returns the empty string and
    [fetchPlaylistClips] the empty list; neither ever throws, for any
    store, and neither do the callables, which answer as if no playlist
    had been given. *)
Theorem read_failure_degrades (db : Firestore) (uid pid : jsstring) (limit : nat) :
  ((∃ e, get_playlist db uid pid = Throw e) ∨
   (∃ e, get_playlist_clips db uid pid 12 = Throw e) →
   HuggingFaceChat.buildPlaylistContext db uid (Some pid) = Ok []) ∧
  ((∃ e, get_playlist_clips db uid pid limit = Throw e) →
   RuleBasedChat.fetchPlaylistClips db uid (Some pid) limit = Ok []) ∧
  (∀ opid, ∃ ctx, HuggingFaceChat.buildPlaylistContext db uid opid = Ok ctx) ∧
  (∀ opid, ∃ clips, RuleBasedChat.fetchPlaylistClips db uid opid limit = Ok clips) ∧
  (∀ now buckets auth_uid message,
     (∃ e, get_playlist_clips db (or_str auth_uid (lit "anonymous")) pid 25 = Throw e) →
     (RuleBasedChat.hfChat db now buckets auth_uid message (Some pid)).1 =
     (RuleBasedChat.hfChat db now buckets auth_uid message None).1) ∧
  (∀ now buckets auth_uid message,
     (∃ e, get_playlist db (or_str auth_uid (lit "anonymous")) pid = Throw e) ∨
     (∃ e, get_playlist_clips db (or_str auth_uid (lit "anonymous")) pid 12 = Throw e) →
     (HuggingFaceChat.hfChat db now buckets auth_uid message (Some pid)).1 =
     (HuggingFaceChat.hfChat db now buckets auth_uid message None).1) ∧
  (∀ now buckets auth_uid message opid,
     (∃ r, (RuleBasedChat.hfChat db now buckets auth_uid message opid).1 = Ok r) ∧
     (∃ r, (HuggingFaceChat.hfChat db now buckets auth_uid message opid).1 = Ok r)).
Proof.
  split; [apply buildPlaylistContext_failure|].
  split; [apply fetchPlaylistClips_failure|].
  split; [intros; apply buildPlaylistContext_total|].
  split; [intros; apply RuleBasedChatFacts.fetchPlaylistClips_total|].
  split; [|split].
  - intros now buckets auth_uid message Hfail. unfold RuleBasedChat.hfChat.
    destruct (negb _); [done|]. destruct (_ || _); [done|]. cbn [fst truthy].
    destruct pid as [|p0 p]; [done|].
    by rewrite (fetchPlaylistClips_failure _ _ _ _ Hfail).
  - intros now buckets auth_uid message Hfail. unfold HuggingFaceChat.hfChat.
    destruct (negb _); [done|]. destruct (_ || _); [done|]. cbn [fst truthy].
    destruct pid as [|p0 p]; [done|].
    by rewrite (buildPlaylistContext_failure _ _ _ Hfail).
  - intros now buckets auth_uid message opid. split.
    + apply RuleBasedChatFacts.hfChat_total.
    + unfold HuggingFaceChat.hfChat.
      destruct (negb _); [by eexists|]. destruct (_ || _); [by eexists|].
      cbn [fst].
      destruct (buildPlaylistContext_total db (or_str auth_uid (lit "anonymous"))
                  (if truthy opid then opid else None)) as [ctx ->].
      by eexists.
Qed.

Lemma read_failure_degrades_witness :
  HuggingFaceChat.buildPlaylistContext failingStore (lit "u1") (Some (lit "p1")) = Ok [] ∧
  RuleBasedChat.fetchPlaylistClips failingStore (lit "u1") (Some (lit "p1")) 25 = Ok [] ∧
  (RuleBasedChat.hfChat failingStore 0 ∅ (Some (lit "u1")) (Some (lit "quiz me"))
     (Some (lit "p1"))).1 =
  (RuleBasedChat.hfChat failingStore 0 ∅ (Some (lit "u1")) (Some (lit "quiz me")) None).1 ∧
  (HuggingFaceChat.hfChat failingStore 0 ∅ (Some (lit "u1")) (Some (lit "quiz me"))
     (Some (lit "p1"))).1 =
  (HuggingFaceChat.hfChat failingStore 0 ∅ (Some (lit "u1")) (Some (lit "quiz me")) None).1.
Proof.
  destruct (read_failure_degrades failingStore (lit "u1") (lit "p1") 25)
    as (Hctx & Hclips & _ & _ & Hrule & Hhf & _).
  split; [|split; [|split]].
  - apply Hctx. left. by eexists.
  - apply Hclips. by eexists.
  - apply Hrule. by eexists.
  - apply Hhf. right. by eexists.
Defined.

Example failing_read_answer :
  (RuleBasedChat.hfChat failingStore 0 ∅ (Some (lit "u1")) (Some (lit "quiz me"))
     (Some (lit "p1"))).1 =
  Ok (Reply (lit "Quiz:" ++ nl ++ lit "1. No clips available for quiz.")).
Proof. vm_compute. reflexivity. Qed.

End StoreFailureFacts.

(** ** The browser assistant *)

Module FreeChatFacts.
Import JS FreeChat.

Lemma candidate_None clips : candidate clips = None ↔ clips = [].
Proof.
  split; [|by intros ->].
  destruct clips as [|c cs]; [done|]. unfold candidate.
  assert (match find (λ c, negb (watched c)) (c :: cs) with
          | Some c' => Some c'
          | None => head (c :: cs)
          end ≠ None) as Hfirst.
  { by destruct (find _ _). }
  destruct (negb _); [|done].
  destruct (sort _ _) as [|s l]; [done|].
  by destruct (negb (watched s)).
Qed.

(** The same playlist with the titles and links where the assistant
    reads them. *)
Example recommend_next_saved :
  handleMessageRaw
    (storeWith [savedClip (lit "A") Absent (lit "https://a.example/1");
                savedClip (lit "B") (Num 5) (lit "https://b.example/2")])
    (Some (lit "u1")) (Some (lit "p1")) (lit "recommend next")
  = Ok (lit "Recommended next: B" ++ nl ++ lit "Open: https://b.example/2").
Proof. vm_compute. reflexivity. Qed.

(** The shortest clip is passed over when it is watched: the first
    unwatched clip stays the candidate. *)
Example recommend_next_shortest_watched :
  candidate
    [savedClip (lit "A") (Num 9) (lit "https://a.example/1");
     {| clipId := lit "B"; customTitle := Some (lit "B"); title := None;
        description := None; originalUrl := None; watchUrl := None;
        videoSite := None; tags := None; playlistIds := None; createdAt := None;
        duration := Num 5; watched := true |};
     savedClip (lit "C") (Num 7) (lit "https://c.example/3")]
  = Some (savedClip (lit "A") (Num 9) (lit "https://a.example/1")).
Proof. vm_compute. reflexivity. Qed.

End FreeChatFacts.

(** ** Embed information *)

Module EmbedFacts.
Import JS Embed.

Lemma first_return_ind {A} (P : A → Prop) (blocks : list (option A)) (final : A) :
  Forall (λ o, ∀ x, o = Some x → P x) blocks → P final →
  P (first_return blocks final).
Proof.
  induction 1 as [|o blocks Ho _ IH]; intros Hfinal; [done|].
  destruct o as [x|]; cbn; [by apply Ho | by apply IH].
Qed.

(** C8.  [getEmbedInfo] is a total function from strings to records of
    [site], [embedUrl], [embedable] and [watchUrl] (the only exception
    raised inside, by the [URL] constructor, is caught): an empty input
    gives site "unknown" and an input whose trimmed text does not parse
    gives site "invalid", both not embedable and without [embedUrl]; and
    a result that is embedable always has an [embedUrl]. *)
Theorem getEmbedInfo_safe (parseURL : jsstring → option URL) (rawUrl : jsstring) :
  (rawUrl = [] →
   getEmbedInfo parseURL rawUrl =
     {| site := lit "unknown"; embedUrl := None; embedable := false; watchUrl := None |}) ∧
  (rawUrl ≠ [] → parseURL (trim rawUrl) = None →
   getEmbedInfo parseURL rawUrl =
     {| site := lit "invalid"; embedUrl := None; embedable := false; watchUrl := None |}) ∧
  (embedable (getEmbedInfo parseURL rawUrl) = true →
   ∃ e, embedUrl (getEmbedInfo parseURL rawUrl) = Some e) ∧
  (embedUrl (getEmbedInfo parseURL rawUrl) = None →
   embedable (getEmbedInfo parseURL rawUrl) = false ∧
   (site (getEmbedInfo parseURL rawUrl) = lit "unknown" ∨
    site (getEmbedInfo parseURL rawUrl) = lit "invalid")).
Proof.
  split; [by intros ->|]. split.
  { intros Hne Hparse. unfold getEmbedInfo.
    destruct rawUrl as [|c r]; [done|]. cbn [nonempty negb]. by rewrite Hparse. }
  assert (∀ P : embedInfo → Prop,
            P {| site := lit "unknown"; embedUrl := None; embedable := false;
                 watchUrl := None |} →
            P {| site := lit "invalid"; embedUrl := None; embedable := false;
                 watchUrl := None |} →
            (∀ s e b w, P {| site := s; embedUrl := Some e; embedable := b;
                             watchUrl := w |}) →
            P (getEmbedInfo parseURL rawUrl)) as Hcases.
  { intros P Hunknown Hinvalid Hsome. unfold getEmbedInfo.
    destruct (negb (nonempty rawUrl)); [done|].
    destruct (parseURL (trim rawUrl)) as [u|]; [|done].
    apply first_return_ind; [|apply Hsome].
    repeat apply Forall_cons_2; try apply Forall_nil_2.
    all:
      intros x;
      repeat match goal with
      | |- context [if ?b then _ else _] => destruct b
      end; intros Hx; try discriminate Hx; injection Hx as <-; apply Hsome. }
  split.
  - apply Hcases; cbn; intros; try discriminate; by eexists.
  - apply Hcases; cbn; intros; try discriminate; auto.
Qed.

Lemma getEmbedInfo_safe_witness :
  getEmbedInfo parseHttps (lit "   ") =
    {| site := lit "invalid"; embedUrl := None; embedable := false; watchUrl := None |} ∧
  (∃ e, embedUrl (getEmbedInfo parseHttps (lit " https://vimeo.com/channels/staff/12345 "))
        = Some e) ∧
  getEmbedInfo parseHttps [] =
    {| site := lit "unknown"; embedUrl := None; embedable := false; watchUrl := None |} ∧
  (embedable (getEmbedInfo parseHttps (lit "vimeo.com/12345")) = false ∧
   (site (getEmbedInfo parseHttps (lit "vimeo.com/12345")) = lit "unknown" ∨
    site (getEmbedInfo parseHttps (lit "vimeo.com/12345")) = lit "invalid")).
Proof.
  split; [|split; [|split]].
  - apply (getEmbedInfo_safe parseHttps (lit "   ")); [discriminate | reflexivity].
  - apply (getEmbedInfo_safe parseHttps (lit " https://vimeo.com/channels/staff/12345 ")).
    vm_compute. reflexivity.
  - by apply (getEmbedInfo_safe parseHttps []).
  - destruct (getEmbedInfo_safe parseHttps (lit "vimeo.com/12345")) as (_ & _ & _ & H).
    apply H. vm_compute. reflexivity.
Defined.

Example getEmbedInfo_samples :
  getEmbedInfo parseHttps (lit " https://vimeo.com/channels/staff/12345 ") =
    {| site := lit "vimeo";
       embedUrl := Some (lit "https://player.vimeo.com/video/12345");
       embedable := true;
       watchUrl := Some (lit "https://vimeo.com/12345") |} ∧
  getEmbedInfo parseHttps (lit "https://youtu.be/dQw4w9WgXcQ") =
    {| site := lit "youtube";
       embedUrl := Some (lit "https://www.youtube.com/embed/dQw4w9WgXcQ");
       embedable := true;
       watchUrl := Some (lit "https://www.youtube.com/watch?v=dQw4w9WgXcQ") |} ∧
  getEmbedInfo parseHttps (lit "https://cdn.example.org/a/Movie.MP4?x=1") =
    {| site := lit "file";
       embedUrl := Some (lit "https://cdn.example.org/a/Movie.MP4?x=1");
       embedable := true;
       watchUrl := Some (lit "https://cdn.example.org/a/Movie.MP4?x=1") |} ∧
  getEmbedInfo parseHttps (lit "https://example.org/page") =
    {| site := lit "example.org";
       embedUrl := Some (lit "https://example.org/page");
       embedable := false;
       watchUrl := Some (lit "https://example.org/page") |} ∧
  getEmbedInfo parseHttps (lit "ftp://example.org/page") =
    {| site := lit "invalid"; embedUrl := None; embedable := false; watchUrl := None |}.
Proof. vm_compute. repeat split. Qed.

End EmbedFacts.

(** ** The profile context *)

Module ProfileContextFacts.
Import JS ProfileContext.

Lemma truncationMarker_length : length truncationMarker = 13%nat.
Proof. reflexivity. Qed.

Lemma truncate_cut s n :
  (1 ≤ n)%nat → (n < length s)%nat →
  truncate s n = take (n - 1) s ++ ellipsis ∧ length (truncate s n) = n.
Proof.
  intros Hn Hlt. unfold truncate.
  destruct (Nat.ltb_spec n (length s)) as [_|Hge]; [|lia].
  destruct n as [|m]; [lia|].
  unfold slice. rewrite drop_0.
  replace (S m - 1)%nat with m by lia. replace (m - 0)%nat with m by lia.
  split; [done|].
  rewrite length_app, length_take. cbn [length ellipsis]. lia.
Qed.

Lemma truncate_keep s n : (length s ≤ n)%nat → truncate s n = s.
Proof.
  intros Hle. unfold truncate.
  destruct (Nat.ltb_spec n (length s)) as [Hlt|_]; [lia|done].
Qed.

(** C5.  The profile context is never longer than 18000 code units: a
    text of more than 18000 is cut to its first 17900 followed by the
    marker [truncationMarker], 17913 code units in all, and a shorter one
    is returned whole.  The titles and descriptions of the sample clips
    are cut the same way by [truncate]: a string longer than [n] becomes
    its first [n - 1] code units and an ellipsis; so is the context where
    it enters the prompt, at 16000 code units. *)
Theorem buildProfileContext_capped (toLocaleString : Z → jsstring)
    (u : option user) (clips : list clip) (playlists : list playlist) :
  Z.of_nat (length (buildProfileContext toLocaleString u clips playlists)) ≤ 18000 ∧
  (∀ usr, u = Some usr →
     18000 < Z.of_nat (length (renderProfile toLocaleString usr clips playlists)) →
     buildProfileContext toLocaleString u clips playlists =
       take (Z.to_nat 17900) (renderProfile toLocaleString usr clips playlists)
       ++ truncationMarker ∧
     Z.of_nat (length (buildProfileContext toLocaleString u clips playlists)) = 17913) ∧
  (∀ usr, u = Some usr →
     Z.of_nat (length (renderProfile toLocaleString usr clips playlists)) ≤ 18000 →
     buildProfileContext toLocaleString u clips playlists =
       renderProfile toLocaleString usr clips playlists) ∧
  (∀ s n, (1 ≤ n)%nat →
     (length (truncate s n) ≤ n)%nat ∧
     ((n < length s)%nat → truncate s n = take (n - 1) s ++ ellipsis) ∧
     ((length s ≤ n)%nat → truncate s n = s)) ∧
  (∀ question,
     fullPrompt (buildProfileContext toLocaleString u clips playlists) question =
       lit "Context:" ++ nl
       ++ truncate (buildProfileContext toLocaleString u clips playlists) (Z.to_nat 16000)
       ++ nl ++ nl ++ lit "UserQuestion:" ++ nl ++ question ++ nl ++ nl ++ lit "Assistant:") ∧
  Z.of_nat (length (truncate (buildProfileContext toLocaleString u clips playlists)
                      (Z.to_nat 16000))) ≤ 16000.
Proof.
  assert (∀ s n, (1 ≤ n)%nat →
            (length (truncate s n) ≤ n)%nat ∧
            ((n < length s)%nat → truncate s n = take (n - 1) s ++ ellipsis) ∧
            ((length s ≤ n)%nat → truncate s n = s)) as Htruncate.
  { intros s n Hn. split; [|split].
    + destruct (le_lt_dec (length s) n) as [Hle|Hlt].
      * by rewrite truncate_keep.
      * destruct (truncate_cut s n Hn Hlt) as [_ ->]. lia.
    + intros Hlt. by destruct (truncate_cut s n Hn Hlt).
    + apply truncate_keep. }
  assert (∀ usr, 18000 < Z.of_nat (length (renderProfile toLocaleString usr clips playlists)) →
            buildProfileContext toLocaleString (Some usr) clips playlists =
              take (Z.to_nat 17900) (renderProfile toLocaleString usr clips playlists)
              ++ truncationMarker ∧
            Z.of_nat (length (buildProfileContext toLocaleString (Some usr) clips playlists))
              = 17913) as Hcut.
  { intros usr Hlong. unfold buildProfileContext.
    destruct (Z.ltb_spec 18000
                (Z.of_nat (length (renderProfile toLocaleString usr clips playlists))))
      as [_|Hle]; [|lia].
    unfold slice. rewrite drop_0. replace (Z.to_nat 17900 - 0)%nat with (Z.to_nat 17900) by lia.
    split; [done|].
    rewrite length_app, length_take, truncationMarker_length. lia. }
  assert (∀ usr, Z.of_nat (length (renderProfile toLocaleString usr clips playlists)) ≤ 18000 →
            buildProfileContext toLocaleString (Some usr) clips playlists =
              renderProfile toLocaleString usr clips playlists) as Hkeep.
  { intros usr Hshort. unfold buildProfileContext.
    destruct (Z.ltb_spec 18000
                (Z.of_nat (length (renderProfile toLocaleString usr clips playlists))))
      as [Hlt|_]; [lia|done]. }
  split; [|split; [|split; [|split; [exact Htruncate|split; [done|]]]]].
  - destruct u as [usr|]; [|cbn; lia].
    destruct (Z.lt_ge_cases 18000
                (Z.of_nat (length (renderProfile toLocaleString usr clips playlists))))
      as [Hlong|Hshort].
    + destruct (Hcut usr Hlong) as [_ ->]. lia.
    + rewrite (Hkeep usr) by lia. lia.
  - intros usr ->. apply Hcut.
  - intros usr ->. apply Hkeep.
  - destruct (Htruncate (buildProfileContext toLocaleString u clips playlists)
                (Z.to_nat 16000)) as [Hlen _]; lia.
Qed.

Lemma buildProfileContext_capped_witness :
  buildProfileContext (λ _, lit "1/1/2025, 10:00:00 AM") (Some longNamedUser)
    [longDescClip] [] =
  take (Z.to_nat 17900)
    (renderProfile (λ _, lit "1/1/2025, 10:00:00 AM") longNamedUser [longDescClip] [])
  ++ truncationMarker ∧
  buildProfileContext (λ _, lit "1/1/2025, 10:00:00 AM")
    (Some {| displayName := None; email := None; uid := lit "u1" |}) [longDescClip] [] =
  renderProfile (λ _, lit "1/1/2025, 10:00:00 AM")
    {| displayName := None; email := None; uid := lit "u1" |} [longDescClip] [] ∧
  truncate (repeat 98%N 300) 240 = take 239 (repeat 98%N 300) ++ ellipsis ∧
  truncate (lit "short") 240 = lit "short".
Proof.
  destruct (buildProfileContext_capped (λ _, lit "1/1/2025, 10:00:00 AM")
              (Some longNamedUser) [longDescClip] []) as (_ & Hcut & _ & Htr & _).
  destruct (buildProfileContext_capped (λ _, lit "1/1/2025, 10:00:00 AM")
              (Some {| displayName := None; email := None; uid := lit "u1" |})
              [longDescClip] []) as (_ & _ & Hkeep & _).
  split; [|split; [|split]].
  - apply (Hcut longNamedUser); [reflexivity|]. vm_compute. reflexivity.
  - apply (Hkeep {| displayName := None; email := None; uid := lit "u1" |});
      [reflexivity|]. vm_compute. discriminate.
  - apply (Htr (repeat 98%N 300) 240%nat); [lia|]. vm_compute. lia.
  - apply (Htr (lit "short") 240%nat); [lia|]. vm_compute. lia.
Defined.

Example profile_context_sample :
  buildProfileContext (λ _, lit "1/1/2025, 10:00:00 AM")
    (Some {| displayName := None; email := Some (lit "ann@example.org"); uid := lit "u1" |})
    [titledClip (lit "c1") (Some (lit "Lecture 1"))]
    [{| playlistId := lit "p1"; name := Some (lit "Maths") |}]
  = lit "User: ann@example.org" ++ nl
    ++ lit "TotalClips: 1; Playlists: 1;" ++ nl
    ++ lit "BySite: unknown:1" ++ nl
    ++ lit "TopTags: none" ++ nl
    ++ lit "Playlists: Maths" ++ nl
    ++ lit "SampleClips:" ++ nl
    ++ lit "- [c1] Title: Lecture 1; Date: unknown; Playlists: ; Tags: ; URL: " ++ nl.
Proof. vm_compute. reflexivity. Qed.

End ProfileContextFacts.

(** ** Rate limiter: users, windows and the callable *)

Module RateLimiterTraceFacts.
Import JS RateLimiter RateLimiterFacts RateLimiterTrace.

Lemma withinLimit_same_bucket v now uid b b' :
  bucket b uid = bucket b' uid →
  (withinLimit v now uid b).1 = (withinLimit v now uid b').1 ∧
  bucket (withinLimit v now uid b).2 uid = bucket (withinLimit v now uid b').2 uid.
Proof.
  intros Hb. rewrite !bucket_withinLimit, !withinLimit_answer, Hb. done.
Qed.

Lemma calls_of_cons uid u t tr :
  calls_of uid ((u, t) :: tr) =
    if decide (u = uid) then (u, t) :: calls_of uid tr else calls_of uid tr.
Proof. unfold calls_of. by rewrite filter_cons. Qed.

Lemma own_calls_run v uid tr :
  ∀ b b', bucket b uid = bucket b' uid →
    bucket (run v tr b).2 uid = bucket (run v (calls_of uid tr) b').2 uid ∧
    accepted_times v uid tr b = accepted_times v uid (calls_of uid tr) b'.
Proof.
  induction tr as [|[u t] tr IH]; intros b b' Hb; [done|].
  rewrite calls_of_cons. cbn [run accepted_times snd].
  destruct (decide (u = uid)) as [->|Hne].
  - cbn [run accepted_times snd]. rewrite decide_True by done.
    destruct (withinLimit_same_bucket v t uid b b' Hb) as [Hans Hbk].
    destruct (IH _ _ Hbk) as [IH1 IH2]. by rewrite Hans, IH1, IH2.
  - apply IH. by rewrite bucket_withinLimit_other.
Qed.

(** X1.  The limiter is per user: the bucket of a user, the answer to
    the user's next call and the list of the user's accepted calls are the
    same whether or not the calls of the other users are served in
    between. *)
Theorem limiter_per_user (v : variant) (uid : jsstring) (tr : list call) (now : Z) :
  bucket (after v tr) uid = bucket (after v (calls_of uid tr)) uid ∧
  (withinLimit v now uid (after v tr)).1 =
    (withinLimit v now uid (after v (calls_of uid tr))).1 ∧
  accepted_times v uid tr ∅ = accepted_times v uid (calls_of uid tr) ∅.
Proof.
  destruct (own_calls_run v uid tr ∅ ∅ eq_refl) as [Hb Ha].
  split; [exact Hb|]. split; [|exact Ha].
  by apply withinLimit_same_bucket.
Qed.

Lemma recent_of_twice t now l :
  t ≤ now → recent_of now (recent_of t l) = recent_of now l.
Proof.
  intros Hle. unfold recent_of. rewrite list_filter_filter.
  apply list_filter_iff. intros x. split; [tauto|]. intros Hx. split; [done|]. lia.
Qed.

Lemma window_run v uid now tr :
  ∀ b, monotone (map snd tr ++ [now]) = true →
    recent_of now (bucket (run v tr b).2 uid) =
    recent_of now (bucket b uid ++ accepted_times v uid tr b).
Proof.
  induction tr as [|[u t] tr IH]; intros b Hmono.
  - cbn. by rewrite app_nil_r.
  - cbn [map snd app] in Hmono. apply monotone_cons in Hmono as [Hle Hmono].
    assert (t ≤ now) as Ht by (apply Hle; set_solver).
    cbn [run accepted_times snd]. rewrite IH by done.
    destruct (decide (u = uid)) as [->|Hne].
    + rewrite bucket_withinLimit. rewrite !recent_of_app.
      rewrite recent_of_twice by done. by rewrite <- !app_assoc.
    + by rewrite bucket_withinLimit_other.
Qed.

(** X2.  On a clock that never goes back, what a bucket holds of the
    last window is exactly the accepted calls of the user in that window,
    and there are at most [MAX_REQ] of them: no user gets more than
    [MAX_REQ] calls accepted within any [WINDOW_MS]. *)
Theorem accepted_per_window (v : variant) (uid : jsstring) (tr : list call) (now : Z) :
  monotone (map snd tr ++ [now]) = true →
  recent_of now (bucket (after v tr) uid) = recent_of now (accepted_times v uid tr ∅) ∧
  (length (recent_of now (accepted_times v uid tr ∅)) ≤ MAX_REQ v)%nat.
Proof.
  intros Hmono.
  assert (recent_of now (bucket (after v tr) uid)
          = recent_of now (accepted_times v uid tr ∅)) as Heq.
  { unfold after. rewrite window_run by done.
    unfold bucket at 1. by rewrite lookup_empty. }
  split; [done|]. rewrite <- Heq.
  pose proof (recent_of_length now (bucket (after v tr) uid)).
  pose proof (capped_after v tr uid). lia.
Qed.

Lemma accepted_per_window_witness :
  (length (recent_of 30
     (accepted_times HuggingFace (lit "alice")
        (map (λ i, (lit "alice", Z.of_nat i)) (seq 0 30)) ∅)) ≤ 15)%nat.
Proof.
  apply (accepted_per_window HuggingFace (lit "alice")
           (map (λ i, (lit "alice", Z.of_nat i)) (seq 0 30)) 30).
  vm_compute. reflexivity.
Defined.

(** X3.  The rule-based callable asks the limiter before anything else:
    a rejected caller gets the rate-limit error whatever the message, and
    the bucket is only pruned; an accepted caller with a blank message
    gets "Empty message" and the attempt is recorded all the same; the
    store never influences the buckets and is not read at all when no
    playlist id is given. *)
Theorem hfChat_gate (db : Firestore) (now : Z) (buckets : gmap jsstring (list Z))
    (auth_uid message pid : option jsstring) :
  ((withinLimit RuleBased now (or_str auth_uid (lit "anonymous")) buckets).1 = false →
   RuleBasedChat.hfChat db now buckets auth_uid message pid =
     (Ok (Error (lit "Rate limit exceeded. Try again shortly.")),
      <[or_str auth_uid (lit "anonymous") :=
          recent_of now (bucket buckets (or_str auth_uid (lit "anonymous")))]> buckets)) ∧
  ((withinLimit RuleBased now (or_str auth_uid (lit "anonymous")) buckets).1 = true →
   trim (or_str message []) = [] →
   RuleBasedChat.hfChat db now buckets auth_uid message pid =
     (Ok (Error (lit "Empty message")),
      <[or_str auth_uid (lit "anonymous") :=
          recent_of now (bucket buckets (or_str auth_uid (lit "anonymous"))) ++ [now]]>
        buckets)) ∧
  (∀ db', (RuleBasedChat.hfChat db now buckets auth_uid message pid).2 =
          (RuleBasedChat.hfChat db' now buckets auth_uid message pid).2) ∧
  (truthy pid = false →
   ∀ db', RuleBasedChat.hfChat db now buckets auth_uid message pid =
          RuleBasedChat.hfChat db' now buckets auth_uid message pid).
Proof.
  set (uid := or_str auth_uid (lit "anonymous")).
  split; [|split; [|split]].
  - intros Hrej. unfold RuleBasedChat.hfChat. fold uid. rewrite Hrej. cbn [negb].
    f_equal. rewrite withinLimit_answer in Hrej. apply bool_decide_eq_false in Hrej.
    rewrite withinLimit_reject by lia. done.
  - intros Hacc Hblank. unfold RuleBasedChat.hfChat. fold uid. rewrite Hacc. cbn [negb].
    rewrite Hblank. cbn [length Nat.eqb]. rewrite orb_true_r.
    f_equal. rewrite withinLimit_answer in Hacc. apply bool_decide_eq_true in Hacc.
    rewrite withinLimit_accept by lia. done.
  - intros db'. unfold RuleBasedChat.hfChat. fold uid.
    destruct (negb _); [done|]. by destruct (_ || _).
  - intros Hpid db'. unfold RuleBasedChat.hfChat. fold uid.
    destruct (negb _); [done|]. destruct (_ || _); [done|]. by rewrite Hpid.
Qed.

Lemma hfChat_gate_witness :
  RuleBasedChat.hfChat failingStore 5 ∅ None (Some (lit "   ")) None =
    (Ok (Error (lit "Empty message")), {[ lit "anonymous" := [5] ]}) ∧
  RuleBasedChat.hfChat failingStore 25
    (after RuleBased (map (λ i, (lit "anonymous", Z.of_nat i)) (seq 0 20)))
    None (Some (lit "quiz me")) None =
    (Ok (Error (lit "Rate limit exceeded. Try again shortly.")),
     after RuleBased (map (λ i, (lit "anonymous", Z.of_nat i)) (seq 0 20))) ∧
  RuleBasedChat.hfChat failingStore 5 ∅ None (Some (lit "quiz me")) (Some []) =
  RuleBasedChat.hfChat (FreeChat.storeWith []) 5 ∅ None (Some (lit "quiz me")) (Some []).
Proof.
  split; [|split].
  - destruct (hfChat_gate failingStore 5 ∅ None (Some (lit "   ")) None) as (_ & H & _).
    rewrite H; [| vm_compute; reflexivity | vm_compute; reflexivity].
    f_equal.
  - destruct (hfChat_gate failingStore 25
                (after RuleBased (map (λ i, (lit "anonymous", Z.of_nat i)) (seq 0 20)))
                None (Some (lit "quiz me")) None) as (H & _).
    rewrite H by (vm_compute; reflexivity). f_equal.
  - destruct (hfChat_gate failingStore 5 ∅ None (Some (lit "quiz me")) (Some []))
      as (_ & _ & _ & H).
    apply H. reflexivity.
Defined.

End RateLimiterTraceFacts.

(** ** Substrings and the intent router *)

Module RouterFacts.
Import JS RuleBasedChat JSFacts.

Lemma startsWith_spec w s : startsWith w s = true ↔ ∃ q, s = w ++ q.
Proof.
  revert s. induction w as [|a w IH]; intros s; cbn.
  - split; [intros _; by exists s | done].
  - destruct s as [|b s].
    + split; [done | intros [q Hq]; discriminate].
    + rewrite andb_true_iff, N.eqb_eq, IH. split.
      * intros [-> [q ->]]. by exists q.
      * intros [q Hq]. injection Hq as -> ->. split; [done | by exists q].
Qed.

Lemma includes_spec s w : includes s w = true ↔ ∃ p q, s = p ++ w ++ q.
Proof.
  induction s as [|c s IH].
  - cbn. rewrite orb_false_r, startsWith_spec. split.
    + intros [q Hq]. by exists [], q.
    + intros (p & q & Hpq). destruct p as [|x p]; [by exists q | discriminate].
  - cbn [includes]. rewrite orb_true_iff, startsWith_spec, IH. split.
    + intros [[q Hq]|(p & q & Hpq)].
      * by exists [], q.
      * exists (c :: p), q. cbn. by f_equal.
    + intros (p & q & Hpq). destruct p as [|x p].
      * left. by exists q.
      * right. injection Hpq as -> ->. by exists p, q.
Qed.

(** A string that contains [u ++ w ++ v] contains [w]. *)
Lemma includes_inner s u w v :
  includes s (u ++ w ++ v) = true → includes s w = true.
Proof.
  rewrite !includes_spec. intros (p & q & ->).
  exists (p ++ u), (v ++ q). by rewrite <- !app_assoc.
Qed.

Lemma orb_redundant (a b : bool) : (b = true → a = true) → a || b = a.
Proof. destruct a, b; intros H; try done. by rewrite H. Qed.

(** X4.  The decision table of the router.  The intent depends on the
    lower-cased message only, so the router is blind to case; the first
    keyword group that occurs decides, in the order summarize, recommend,
    quiz, plan; and the keywords "summary", "what next" and "study plan"
    never decide anything, because "summar", "next" and "plan" occur
    wherever they do. *)
Theorem detectIntent_table (message : jsstring) :
  detectIntent (toLowerCase message) = detectIntent message ∧
  detectIntent message =
    (let has := λ k, includes (toLowerCase message) (lit k) in
     if has "summar" || has "overview" then summarize
     else if has "recommend" || has "next" || has "suggest" then recommend
     else if has "quiz" || has "question" || has "test me" then quiz
     else if has "plan" then plan
     else search)%string.
Proof.
  split.
  - unfold detectIntent, normalize. by rewrite toLowerCase_idemp.
  - unfold detectIntent, normalize. cbv zeta.
    set (m := toLowerCase message).
    assert (includes m (lit "summar") || includes m (lit "overview")
            || includes m (lit "summary")
            = includes m (lit "summar") || includes m (lit "overview")) as ->.
    { rewrite <- orb_assoc, (orb_comm (includes m (lit "overview"))), orb_assoc.
      f_equal. apply orb_redundant.
      apply (includes_inner m [] (lit "summar") (lit "y")). }
    assert (includes m (lit "recommend") || includes m (lit "next")
            || includes m (lit "what next") || includes m (lit "suggest")
            = includes m (lit "recommend") || includes m (lit "next")
              || includes m (lit "suggest")) as ->.
    { f_equal. rewrite <- orb_assoc. f_equal. apply orb_redundant.
      apply (includes_inner m (lit "what ") (lit "next") []). }
    assert (includes m (lit "plan") || includes m (lit "study plan")
            = includes m (lit "plan")) as ->.
    { apply orb_redundant. apply (includes_inner m (lit "study ") (lit "plan") []). }
    destruct (_ || _); [done|]. destruct (_ || _); [done|].
    destruct (_ || _); [done|]. destruct (includes m (lit "plan")); [done|].
    by destruct (_ || _).
Qed.

(** X5.  The score of a text is at most the number of words of the
    query, it is zero for an empty query or text, and it does not change
    when the query and the text are lower-cased first. *)
Theorem scoreText_bounds (query text : jsstring) :
  (scoreText query text ≤ length (queryWords query))%nat ∧
  scoreText [] text = 0%nat ∧ scoreText query [] = 0%nat ∧
  scoreText (toLowerCase query) (toLowerCase text) = scoreText query text.
Proof.
  split; [|split; [|split]].
  - unfold scoreText, queryWords, normalize.
    destruct (_ || _); [lia|]. apply length_filter.
  - done.
  - unfold scoreText. cbn. by rewrite orb_true_r.
  - unfold scoreText, normalize.
    by rewrite !toLowerCase_nonempty, !toLowerCase_idemp.
Qed.

Lemma dropWhile_length {A} (p : A → bool) l : (length (dropWhile p l) ≤ length l)%nat.
Proof.
  induction l as [|x l IH]; [done|]. cbn. destruct (p x); cbn; lia.
Qed.

Lemma trim_length s : (length (trim s) ≤ length s)%nat.
Proof.
  unfold trim, trimEnd, trimStart. rewrite length_rev.
  etrans; [apply dropWhile_length|]. rewrite length_rev. apply dropWhile_length.
Qed.

(** X6.  [shortText] of the rule-based callable returns its argument
    when it has at most [n] code units, and otherwise at most [n] code
    units of it followed by three dots: the result is never longer than
    [n + 3]. *)
Theorem shortText_bounds (s : jsstring) (n : nat) :
  (length (shortText s n) ≤ n + 3)%nat ∧
  ((length s ≤ n)%nat → shortText s n = s) ∧
  ((n < length s)%nat → shortText s n = trim (take n s) ++ lit "...").
Proof.
  unfold shortText.
  destruct s as [|c s]; [cbn; split; [lia|split; [done|lia]]|].
  cbn [nonempty negb].
  destruct (Nat.leb_spec (length (c :: s)) n) as [Hle|Hlt].
  - split; [lia|]. split; [done|lia].
  - unfold slice. rewrite drop_0, Nat.sub_0_r.
    split; [|split; [lia|done]].
    rewrite length_app. pose proof (trim_length (take n (c :: s))) as Htrim.
    rewrite length_take in Htrim. cbn [length lit] in *. cbn. lia.
Qed.

Lemma shortText_bounds_witness :
  shortText (lit "a long   description") 8 = lit "a long..." ∧
  shortText (lit "short") 8 = lit "short".
Proof.
  split.
  - destruct (shortText_bounds (lit "a long   description") 8) as (_ & _ & H).
    rewrite H by (vm_compute; lia). vm_compute. reflexivity.
  - apply (shortText_bounds (lit "short") 8). vm_compute. lia.
Defined.

End RouterFacts.

(** ** Search, prefixes and counters of the rule-based callable *)

Module ResponderFacts.
Import JS RuleBasedChat JSFacts.

Lemma searchClips_elem clips query limit c :
  c ∈ searchClips clips query limit → c ∈ clips ∧ (0 < score_of query c)%nat.
Proof.
  unfold searchClips, slice. rewrite drop_0, Nat.sub_0_r.
  intros Hc. apply list_elem_of_fmap in Hc as ([c' n] & -> & Hin).
  apply (sublist_subseteq _ _ (sublist_take _ limit)) in Hin.
  rewrite sort_perm in Hin.
  apply list_elem_of_filter in Hin as [Hpos Hin].
  apply list_elem_of_fmap in Hin as (c'' & Heq & Hin). injection Heq as -> ->.
  split; [done|]. exact Hpos.
Qed.

Lemma searchClips_nil clips query limit :
  (0 < limit)%nat →
  (searchClips clips query limit = [] ↔ ∀ c, c ∈ clips → score_of query c = 0%nat).
Proof.
  intros Hlimit. unfold searchClips, slice. rewrite drop_0, Nat.sub_0_r.
  set (scored := filter _ _).
  assert (scored = [] ↔ ∀ c, c ∈ clips → score_of query c = 0%nat) as Hscored.
  { unfold scored. split.
    - intros Hnil c Hc.
      destruct (score_of query c) as [|n] eqn:Hs; [done|]. exfalso.
      assert ((c, scoreText query (searchText c)) ∈
                filter (λ x : clip * nat, (0 < x.2)%nat)
                  (map (λ c, (c, scoreText query (searchText c))) clips)) as Hin.
      { apply list_elem_of_filter. split.
        - cbn. unfold score_of in Hs. lia.
        - apply list_elem_of_fmap. by exists c. }
      rewrite Hnil in Hin. by apply elem_of_nil in Hin.
    - intros Hzero. induction clips as [|c clips IH]; [done|].
      cbn [map]. rewrite filter_cons_False.
      + apply IH. intros c' Hc'. apply Hzero. by right.
      + cbn. specialize (Hzero c). unfold score_of in Hzero. rewrite Hzero; [lia|by left]. }
  rewrite <- Hscored. split.
  - intros Hnil. apply fmap_nil_inv in Hnil.
    destruct (sort _ scored) as [|x l] eqn:Hsort.
    + apply Permutation_nil_r. rewrite <- Hsort. symmetry. apply sort_perm.
    + destruct limit; [lia|discriminate].
  - intros H. rewrite H. by destruct limit.
Qed.

Lemma found_not_fallback x : lit "Found " ++ x ≠ fallback.
Proof. intros H. apply (f_equal head) in H. vm_compute in H. discriminate. Qed.

(** X7.  The search fallback returns at most [limit] clips, each one a
    clip of the list with a positive score; it returns none exactly when
    no clip of the list has a positive score, and that is exactly when
    the callable answers a search message with the generic suggestions
    instead of a list of matches. *)
Theorem search_matches (clips : list clip) (query : jsstring) (limit : nat) :
  (length (searchClips clips query limit) ≤ limit)%nat ∧
  (∀ c, c ∈ searchClips clips query limit → c ∈ clips ∧ (0 < score_of query c)%nat) ∧
  ((0 < limit)%nat →
   (searchClips clips query limit = [] ↔ ∀ c, c ∈ clips → score_of query c = 0%nat)) ∧
  (detectIntent query = search →
   (respond query clips = Reply fallback ↔ ∀ c, c ∈ clips → score_of query c = 0%nat)).
Proof.
  split; [|split; [|split]].
  - unfold searchClips, slice. rewrite length_map, length_take. lia.
  - apply searchClips_elem.
  - apply searchClips_nil.
  - intros Hint. unfold respond. rewrite Hint.
    rewrite <- (searchClips_nil clips query 5) by lia.
    destruct clips as [|c clips]; [done|]. cbn [nonempty andb].
    destruct (searchClips (c :: clips) query 5) as [|m ms] eqn:Hm.
    + done.
    + cbn [nonempty]. split; [|done]. intros H.
      apply (f_equal (λ r, match r with Reply t | Error t => t end)) in H.
      by apply found_not_fallback in H.
Qed.

Lemma search_matches_witness :
  respond (lit "rust ownership") [titledClip (lit "c1") (Some (lit "Cooking pasta"))]
    = Reply fallback.
Proof.
  destruct (search_matches [titledClip (lit "c1") (Some (lit "Cooking pasta"))]
              (lit "rust ownership") 5) as (_ & _ & Hnil & Hreply).
  apply Hreply; [vm_compute; reflexivity|].
  apply Hnil; [lia|]. vm_compute. reflexivity.
Defined.

Lemma slice_take {A} (n m : nat) (l : list A) :
  (n ≤ m)%nat → slice 0 n (take m l) = slice 0 n l.
Proof.
  intros Hnm. unfold slice. rewrite !drop_0, take_take. f_equal. lia.
Qed.

Lemma summarizeClips_take clips m :
  (5 ≤ m)%nat → summarizeClips (take m clips) = summarizeClips clips.
Proof.
  intros Hm. destruct clips as [|c cs]; [by destruct m|].
  destruct m as [|m]; [lia|]. cbn [take].
  unfold summarizeClips.
  rewrite <- (slice_take 5 (S m) (c :: cs)) by lia. reflexivity.
Qed.

Lemma generateQuiz_cons c cs n :
  generateQuiz (c :: cs) n =
    map (λ c, lit "What is the main topic of " ++ quote
              ++ shortText (or_str (anyTitle c) (lit "Untitled")) 60 ++ quote ++ lit "?")
        (take n (c :: cs)).
Proof.
  unfold generateQuiz, slice. rewrite drop_0, Nat.sub_0_r. f_equal.
  destruct (le_lt_dec n (length (c :: cs))) as [Hle|Hlt].
  - by rewrite Nat.min_l.
  - rewrite Nat.min_r by lia. rewrite !take_ge; [done | lia | lia].
Qed.

Lemma generateQuiz_take clips n m :
  (1 ≤ n ≤ m)%nat → generateQuiz (take m clips) n = generateQuiz clips n.
Proof.
  intros Hnm. destruct clips as [|c cs]; [by destruct m|].
  destruct m as [|m]; [lia|]. cbn [take].
  rewrite !generateQuiz_cons. f_equal.
  change (c :: take m cs) with (take (S m) (c :: cs)).
  rewrite take_take. f_equal. lia.
Qed.

(** X8.  Summaries, recommendations, quizzes and study plans are made
    from the head of the list that was loaded: whatever lies beyond the
    first six clips (the first five for a summary or a quiz) does not
    change the answer.  A quiz has one question per clip among the first
    [n], and the single "no clips" line for an empty list. *)
Theorem respond_uses_prefix (message : jsstring) (clips : list clip) (n : nat) :
  (detectIntent message ≠ search → respond message (take 6 clips) = respond message clips) ∧
  summarizeClips (take 5 clips) = summarizeClips clips ∧
  ((1 ≤ n)%nat → generateQuiz (take n clips) n = generateQuiz clips n) ∧
  length (generateQuiz clips n) =
    (if nonempty clips then Nat.min n (length clips) else 1%nat).
Proof.
  split; [|split; [|split]].
  - intros Hint. unfold respond.
    destruct (detectIntent message); try done.
    + by rewrite summarizeClips_take by lia.
    + by destruct clips.
    + by rewrite generateQuiz_take by lia.
    + by rewrite (slice_take 6 6) by lia.
  - by apply summarizeClips_take.
  - intros Hn. apply generateQuiz_take. lia.
  - destruct clips as [|c cs]; [done|].
    rewrite generateQuiz_cons, length_map, length_take. done.
Qed.

Lemma respond_uses_prefix_witness :
  respond (lit "quiz me")
    (take 6 (map (λ i, titledClip (num i) (Some (lit "Clip " ++ num i))) (seq 0 9)))
  = respond (lit "quiz me")
      (map (λ i, titledClip (num i) (Some (lit "Clip " ++ num i))) (seq 0 9)) ∧
  generateQuiz (take 2 [titledClip (lit "a") None; titledClip (lit "b") None;
                        titledClip (lit "c") None]) 2
  = generateQuiz [titledClip (lit "a") None; titledClip (lit "b") None;
                  titledClip (lit "c") None] 2.
Proof.
  split.
  - apply (respond_uses_prefix (lit "quiz me")
             (map (λ i, titledClip (num i) (Some (lit "Clip " ++ num i))) (seq 0 9)) 5).
    vm_compute. discriminate.
  - apply (respond_uses_prefix (lit "quiz me")
             [titledClip (lit "a") None; titledClip (lit "b") None;
              titledClip (lit "c") None] 2).
    lia.
Defined.

End ResponderFacts.

(** ** Objects used as counters *)

Module CounterFacts.
Import JS Tags TagsFacts JSFacts.

Lemma count_key_keys o k : map fst (count_key o k) = Set_add (map fst o) k.
Proof.
  unfold Set_add. induction o as [|[k' n] o IH].
  - cbn. by rewrite bool_decide_eq_false_2 by apply not_elem_of_nil.
  - cbn [count_key map fst].
    destruct (decide (k' = k)) as [->|Hne].
    + rewrite bool_decide_eq_true_2 by done.
      rewrite (bool_decide_eq_true_2 (k ∈ k :: map fst o)) by by left. done.
    + rewrite bool_decide_eq_false_2 by done. cbn [map fst]. rewrite IH.
      destruct (decide (k ∈ map fst o)) as [Hin|Hnin].
      * rewrite !bool_decide_eq_true_2; [done | by right | done].
      * rewrite !bool_decide_eq_false_2; [done | | done].
        rewrite not_elem_of_cons. split; [congruence | done].
Qed.

Lemma count_all_keys ks : map fst (count_all ks) = first_occurrences ks.
Proof.
  rewrite <- Set_from_first_occurrences. unfold count_all, Set_from.
  change (@nil jsstring) with (map fst (@nil (jsstring * nat))).
  generalize (@nil (jsstring * nat)).
  induction ks as [|k ks IH]; intros o; [done|].
  cbn [foldl]. by rewrite IH, count_key_keys.
Qed.

Lemma count_key_NoDup o k : NoDup (map fst o) → NoDup (map fst (count_key o k)).
Proof.
  intros Hnd. rewrite count_key_keys. unfold Set_add.
  case_bool_decide as Hin; [done|].
  apply NoDup_app. split; [done|]. split; [|apply NoDup_singleton].
  intros x Hx ->%list_elem_of_singleton. done.
Qed.

Lemma count_key_elem o k k' n' :
  NoDup (map fst o) →
  (k', n') ∈ count_key o k →
  (k' = k ∧ ((n' = 1%nat ∧ k ∉ map fst o) ∨ ∃ n, (k, n) ∈ o ∧ n' = S n)) ∨
  (k' ≠ k ∧ (k', n') ∈ o).
Proof.
  induction o as [|[k0 n0] o IH]; cbn [count_key]; intros Hnd.
  - intros Hin. apply list_elem_of_singleton in Hin. injection Hin as -> ->.
    left. split; [done|]. left. split; [done | apply not_elem_of_nil].
  - cbn [map fst] in Hnd. apply NoDup_cons in Hnd as [Hk0 Hnd].
    destruct (decide (k0 = k)) as [->|Hne].
    + rewrite bool_decide_eq_true_2 by done. intros Hin.
      apply elem_of_cons in Hin as [Heq|Hin].
      * injection Heq as -> ->. left. split; [done|]. right. exists n0.
        split; [by left | done].
      * right. split; [|by right]. intros ->. apply Hk0.
        apply list_elem_of_fmap. by exists (k, n').
    + rewrite bool_decide_eq_false_2 by done. intros Hin.
      apply elem_of_cons in Hin as [Heq|Hin].
      * injection Heq as -> ->. right. split; [done | by left].
      * destruct (IH Hnd Hin) as [[-> [[-> Hk]|(n & Hn & ->)]]|[Hne' Hin']].
        -- left. split; [done|]. left. split; [done|].
           cbn. rewrite not_elem_of_cons. done.
        -- left. split; [done|]. right. exists n. split; [by right | done].
        -- right. split; [done | by right].
Qed.

Lemma occurrences_snoc (k x : jsstring) (l : list jsstring) :
  length (filter (λ y, y = k) (l ++ [x])) =
    (length (filter (λ y, y = k) l) + (if decide (x = k) then 1 else 0))%nat.
Proof.
  rewrite filter_app, length_app, filter_cons, filter_nil.
  by destruct (decide (x = k)).
Qed.

Lemma occurrences_zero (k : jsstring) (l : list jsstring) :
  k ∉ l → length (filter (λ y, y = k) l) = 0%nat.
Proof.
  intros Hk. induction l as [|x l IH]; [done|].
  apply not_elem_of_cons in Hk as [Hne Hk].
  rewrite filter_cons_False by congruence. by apply IH.
Qed.

Lemma count_all_acc ks : ∀ o seen,
  NoDup (map fst o) →
  (∀ k n, (k, n) ∈ o → n = length (filter (λ y, y = k) seen)) →
  (∀ k, k ∈ seen → k ∈ map fst o) →
  ∀ k n, (k, n) ∈ foldl count_key o ks →
         n = length (filter (λ y, y = k) (seen ++ ks)).
Proof.
  induction ks as [|k0 ks IH]; intros o seen Hnd Hcount Hseen k n Hin.
  - rewrite app_nil_r. by apply Hcount.
  - cbn [foldl] in Hin. rewrite (assoc_L (++) seen [k0] ks : seen ++ k0 :: ks = _).
    apply (IH (count_key o k0) (seen ++ [k0])); [by apply count_key_NoDup | | | done].
    + intros k' n' Hin'. rewrite occurrences_snoc.
      destruct (count_key_elem _ _ _ _ Hnd Hin')
        as [[-> [[-> Hk]|(m & Hm & ->)]]|[Hne Hin'']].
      * rewrite decide_True by done. rewrite occurrences_zero; [done|].
        intros Hs. by apply Hk, Hseen.
      * rewrite decide_True by done. rewrite <- (Hcount _ _ Hm). lia.
      * rewrite decide_False by congruence. rewrite <- (Hcount _ _ Hin''). lia.
    + intros k' Hk'. rewrite count_key_keys. unfold Set_add.
      apply elem_of_app in Hk' as [Hk'|Hk'].
      * case_bool_decide; [by apply Hseen|]. apply elem_of_app. left. by apply Hseen.
      * apply list_elem_of_singleton in Hk' as ->.
        case_bool_decide; [done|]. apply elem_of_app. right. by left.
Qed.

(** X9.  The word and tag counters, for keys none of which is the name
    of a property inherited from [Object.prototype] (such as
    "constructor"): the object built by [o[k] = (o[k] || 0) + 1] over the
    list has one property per distinct key, created in the order of first
    occurrence, whose value is the number of occurrences of the key;
    [Object.entries] lists the same properties in another order. *)
Theorem count_all_counts (ks : list jsstring) :
  (∀ k, k ∈ ks → k ∉ inheritedKeys) →
  map fst (count_all ks) = first_occurrences ks ∧
  NoDup (map fst (count_all ks)) ∧
  (∀ k n, (k, n) ∈ count_all ks ↔ k ∈ ks ∧ n = length (filter (λ y, y = k) ks)) ∧
  entries (count_all ks) ≡ₚ count_all ks.
Proof.
  intros _.
  assert (∀ k n, (k, n) ∈ count_all ks → n = length (filter (λ y, y = k) ks)) as Hcount.
  { intros k n Hin.
    apply (count_all_acc ks [] []); [apply NoDup_nil_2 | | | exact Hin].
    - intros k' n' H. by apply elem_of_nil in H.
    - intros k' H. by apply elem_of_nil in H. }
  split; [apply count_all_keys|]. split; [|split].
  - rewrite count_all_keys. apply first_occurrences_NoDup.
  - intros k n. split.
    + intros Hin. split; [|by apply Hcount].
      apply first_occurrences_elem. rewrite <- count_all_keys.
      apply list_elem_of_fmap. by exists (k, n).
    + intros [Hk ->].
      apply first_occurrences_elem in Hk. rewrite <- count_all_keys in Hk.
      apply list_elem_of_fmap in Hk as ([k' n'] & -> & Hin).
      cbn. by rewrite <- (Hcount _ _ Hin).
  - unfold entries. rewrite sort_perm. apply filter_app_complement.
Qed.

Lemma count_all_counts_witness :
  (lit "go", 2%nat) ∈ count_all [lit "go"; lit "rust"; lit "go"].
Proof.
  assert (∀ k, k ∈ [lit "go"; lit "rust"; lit "go"] → k ∉ inheritedKeys) as Hown.
  { apply Forall_forall. apply (bool_decide_unpack _). vm_compute. exact I. }
  destruct (count_all_counts [lit "go"; lit "rust"; lit "go"] Hown) as (_ & _ & H & _).
  apply H. split; [|vm_compute; reflexivity].
  apply (bool_decide_unpack _). vm_compute. exact I.
Defined.

End CounterFacts.

(** ** The browser assistant: candidates, keywords and failures *)

Module FreeChatMoreFacts.
Import JS FreeChat JSFacts.

Lemma sort_head_min {A} (key : A → Z) (l : list A) :
  match sort (λ a b, key a - key b) l with
  | [] => l = []
  | x :: _ => x ∈ l ∧ ∀ y, y ∈ l → key x ≤ key y
  end.
Proof.
  induction l as [|a l IH]; [done|].
  rewrite sort_cons. destruct (sort _ l) as [|x r].
  - subst l. cbn. split; [by left|]. intros y ->%list_elem_of_singleton. lia.
  - destruct IH as [Hx Hmin]. cbn [sort_insert].
    destruct (Z.leb_spec (key a - key x) 0) as [Hle|Hgt].
    + split; [by left|]. intros y [->|Hy]%elem_of_cons; [lia|].
      specialize (Hmin y Hy). lia.
    + split; [by right|]. intros y [->|Hy]%elem_of_cons; [lia|]. by apply Hmin.
Qed.

Lemma find_elem {A} (f : A → bool) (l : list A) x :
  find f l = Some x → x ∈ l ∧ f x = true.
Proof. intros H. apply find_some in H as [Hin Hf]. by rewrite list_elem_of_In. Qed.

Lemma first_unwatched_elem clips c :
  match find (λ c, negb (watched c)) clips with
  | Some c' => Some c'
  | None => head clips
  end = Some c →
  c ∈ clips ∧ ((∃ u, u ∈ clips ∧ watched u = false) → watched c = false).
Proof.
  destruct (find _ clips) as [c'|] eqn:Hfind.
  - intros [= ->]. apply find_elem in Hfind as [Hin Hw].
    split; [done|]. intros _. by destruct (watched c).
  - intros Hhead. split.
    + destruct clips as [|c0 cs]; [done|]. injection Hhead as ->. by left.
    + intros (u & Hu & Hw). apply list_elem_of_In in Hu.
      pose proof (find_none _ _ Hfind u Hu) as Hn. cbn in Hn. by rewrite Hw in Hn.
Qed.

(** X10.  The clip that "recommend next" settles on is a clip of the
    playlist; it is never a watched clip while the playlist holds an
    unwatched one; and an unwatched clip whose numeric duration is
    strictly the smallest of the playlist is always the one chosen. *)
Theorem candidate_choice (clips : list clip) :
  (candidate clips = None ↔ clips = []) ∧
  (∀ c, candidate clips = Some c →
        c ∈ clips ∧ ((∃ u, u ∈ clips ∧ watched u = false) → watched c = false)) ∧
  (∀ s d, s ∈ clips → duration s = Num d → watched s = false →
          (∀ c' d', c' ∈ clips → duration c' = Num d' → c' = s ∨ d < d') →
          candidate clips = Some s).
Proof.
  split; [apply FreeChatFacts.candidate_None|]. split.
  - intros c. unfold candidate.
    destruct (negb (forallb _ clips)); [|apply first_unwatched_elem].
    pose proof (sort_head_min durationOf
                  (filter (λ c, isNumber (duration c) = true) clips)) as Hmin.
    destruct (sort _ _) as [|shortOne r]; [apply first_unwatched_elem|].
    destruct (watched shortOne) eqn:Hw; cbn [negb]; [apply first_unwatched_elem|].
    intros [= <-]. destruct Hmin as [Hin _].
    apply list_elem_of_filter in Hin as [_ Hin]. by split.
  - intros s d Hs Hd Hw Hleast. unfold candidate.
    assert (forallb (λ c, isNullish (duration c)) clips = false) as ->.
    { apply not_true_is_false. intros Hall. rewrite forallb_forall in Hall.
      apply list_elem_of_In in Hs. specialize (Hall s Hs). by rewrite Hd in Hall. }
    cbn [negb].
    pose proof (sort_head_min durationOf
                  (filter (λ c, isNumber (duration c) = true) clips)) as Hmin.
    assert (s ∈ filter (λ c, isNumber (duration c) = true) clips) as Hsin.
    { apply list_elem_of_filter. by rewrite Hd. }
    destruct (sort _ _) as [|shortOne r].
    + rewrite Hmin in Hsin. by apply elem_of_nil in Hsin.
    + destruct Hmin as [Hin Hmin]. specialize (Hmin s Hsin).
      apply list_elem_of_filter in Hin as [Hnum Hin].
      destruct (duration shortOne) as [|d'|] eqn:Hd'; try done.
      destruct (Hleast shortOne d' Hin Hd') as [->|Hlt].
      * by rewrite Hw.
      * unfold durationOf in Hmin. rewrite Hd, Hd' in Hmin. lia.
Qed.

Lemma candidate_choice_witness :
  candidate [savedClip (lit "A") (Num 9) (lit "https://a.example/1");
             savedClip (lit "B") Absent (lit "https://b.example/2");
             savedClip (lit "C") (Num 4) (lit "https://c.example/3")]
  = Some (savedClip (lit "C") (Num 4) (lit "https://c.example/3")).
Proof.
  apply (candidate_choice
           [savedClip (lit "A") (Num 9) (lit "https://a.example/1");
            savedClip (lit "B") Absent (lit "https://b.example/2");
            savedClip (lit "C") (Num 4) (lit "https://c.example/3")]) with (d := 4).
  - set_solver.
  - reflexivity.
  - reflexivity.
  - intros c' d' Hc' Hd'.
    repeat (apply elem_of_cons in Hc' as [->|Hc']); try by apply elem_of_nil in Hc'.
    + right. cbn in Hd'. injection Hd' as <-. lia.
    + discriminate.
    + by left.
Defined.

Lemma fetchPlaylistContext_total db uid pid :
  ∃ ctx, fetchPlaylistContext db uid pid = Ok ctx.
Proof.
  unfold fetchPlaylistContext.
  destruct uid as [[|u0 u]|]; try (by eexists).
  destruct pid as [[|p0 p]|]; try (by eexists).
  destruct (get_playlist db (u0 :: u) (p0 :: p)) as [pl|e]; [|by eexists].
  destruct (get_playlist_clips db (u0 :: u) (p0 :: p) 200) as [clips|e]; by eexists.
Qed.

Lemma withPlaylist_total db uid pid k : ∃ r, withPlaylist db uid pid k = Ok r.
Proof.
  unfold withPlaylist.
  destruct (negb (truthy uid)); [by eexists|].
  destruct (negb (truthy pid)); [by eexists|].
  destruct (fetchPlaylistContext_total db uid pid) as [ctx ->]. by eexists.
Qed.

Lemma withPlaylist_signed_out db db' pid k :
  withPlaylist db None pid k = withPlaylist db' None pid k.
Proof. reflexivity. Qed.

(** X11.  The playlist branches of the browser assistant catch every
    failure of the store; the only exception that escapes
    [handleMessageRaw] is the one of the library read of the search
    branch, which is passed on as it is.  Without a signed-in user the
    store is never read and an answer is always returned. *)
Theorem handleMessageRaw_failures (db : Firestore) (uid pid : option jsstring)
    (text : jsstring) :
  (∀ e, handleMessageRaw db uid pid text = Throw e →
        truthy uid = true ∧ get_clips db (or_str uid []) 200 = Throw e) ∧
  (∀ k, ∃ r, withPlaylist db uid pid k = Ok r) ∧
  (∀ db', handleMessageRaw db None pid text = handleMessageRaw db' None pid text) ∧
  (∃ r, handleMessageRaw db None pid text = Ok r).
Proof.
  split; [|split; [intros; apply withPlaylist_total|split]].
  - intros e. unfold handleMessageRaw.
    destruct (_ || _); [done|].
    do 4 (destruct (_ || _);
          [match goal with
           | |- withPlaylist db uid pid ?k = _ → _ =>
               by destruct (withPlaylist_total db uid pid k) as [r ->]
           end|]).
    destruct (_ <? _)%nat; [|done].
    destruct (truthy uid); cbn [negb]; [|done].
    destruct (get_clips db (or_str uid []) 200) as [clips|e'].
    + cbn. by destruct (negb _).
    + cbn. by intros [= ->].
  - intros db'. unfold handleMessageRaw.
    repeat (destruct (_ || _); [done|]). by destruct (_ <? _)%nat.
  - unfold handleMessageRaw.
    destruct (_ || _); [by eexists|].
    repeat (destruct (_ || _); [apply withPlaylist_total|]).
    destruct (_ <? _)%nat; by eexists.
Qed.

Lemma handleMessageRaw_failures_witness :
  truthy (Some (lit "u1")) = true ∧
  get_clips failingStore (or_str (Some (lit "u1")) []) 200 = Throw (lit "unavailable").
Proof.
  apply (handleMessageRaw_failures failingStore (Some (lit "u1")) None (lit "rust basics")).
  vm_compute. reflexivity.
Defined.

End FreeChatMoreFacts.

(** ** The rule of "recommend next" *)

Module RecommendRuleFacts.
Import JS FreeChat JSFacts.

(** The head of a stably sorted list is the earliest of its least
    elements. *)
Lemma sort_head_first {A} (key : A → Z) (l : list A) x r :
  sort (λ a b, key a - key b) l = x :: r →
  ∃ pre post, l = pre ++ x :: post ∧
    (∀ c, c ∈ pre → key x < key c) ∧ (∀ c, c ∈ post → key x ≤ key c).
Proof.
  revert x r. induction l as [|a l IH]; intros x r; [done|].
  rewrite sort_cons. destruct (sort _ l) as [|y r'] eqn:Hsort.
  - assert (l = []) as ->.
    { apply Permutation_nil. by rewrite <- (sort_perm (λ a b, key a - key b) l), Hsort. }
    cbn. intros [= <- <-]. exists [], []. split; [done|].
    split; intros c Hc; by apply elem_of_nil in Hc.
  - destruct (IH y r' eq_refl) as (pre & post & -> & Hpre & Hpost).
    cbn [sort_insert]. destruct (Z.leb_spec (key a - key y) 0) as [Hle|Hgt].
    + intros [= <- <-]. exists [], (pre ++ y :: post). split; [done|].
      split; [intros c Hc; by apply elem_of_nil in Hc|].
      intros c [Hc|[->|Hc]%elem_of_cons]%elem_of_app.
      * specialize (Hpre c Hc). lia.
      * lia.
      * specialize (Hpost c Hc). lia.
    + intros [= <- <-]. exists (a :: pre), post. split; [done|]. split; [|done].
      intros c [->|Hc]%elem_of_cons; [lia | by apply Hpre].
Qed.

Lemma filter_split {A} (P : A → Prop) `{!∀ x, Decision (P x)} (l l1 l2 : list A) x :
  filter P l = l1 ++ x :: l2 →
  ∃ l1' l2', l = l1' ++ x :: l2' ∧ filter P l1' = l1 ∧ filter P l2' = l2.
Proof.
  revert l1. induction l as [|a l IH]; intros l1.
  - intros Hnil. by destruct l1.
  - destruct (decide (P a)) as [Ha|Ha].
    + rewrite filter_cons_True by done. destruct l1 as [|b l1]; cbn.
      * intros [= -> <-]. exists [], l. by rewrite filter_nil.
      * intros [= -> Hrest]. destruct (IH l1 Hrest) as (l1' & l2' & -> & <- & <-).
        exists (b :: l1'), l2'. by rewrite filter_cons_True.
    + rewrite filter_cons_False by done. intros Hrest.
      destruct (IH l1 Hrest) as (l1' & l2' & -> & <- & <-).
      exists (a :: l1'), l2'. by rewrite filter_cons_False.
Qed.

(** Where a position of [pre ++ x :: post] lies. *)
Lemma lookup_split {A} (pre post : list A) x j c :
  (pre ++ x :: post) !! j = Some c →
  ((j < length pre)%nat ∧ c ∈ pre) ∨ (j = length pre ∧ c = x) ∨
  ((length pre < j)%nat ∧ c ∈ post).
Proof.
  intros H. destruct (Nat.lt_trichotomy j (length pre)) as [Hlt|[->|Hgt]].
  - left. split; [done|]. rewrite lookup_app_l in H by done.
    by apply list_elem_of_lookup_2 in H.
  - right. left. split; [done|]. rewrite list_lookup_middle in H by done. congruence.
  - right. right. split; [done|]. rewrite lookup_app_r in H by lia.
    destruct (j - length pre)%nat as [|k] eqn:Hk; [lia|]. cbn in H.
    by apply list_elem_of_lookup_2 in H.
Qed.

(** The clip that heads the sorted list of the clips with a numeric
    duration. *)
Lemma shortOne_shortest clips s r :
  sort (λ a b, durationOf a - durationOf b)
       (filter (λ c, isNumber (duration c) = true) clips) = s :: r →
  shortest_numeric clips s.
Proof.
  intros Hsort. apply sort_head_first in Hsort as (pre & post & Hfilter & Hpre & Hpost).
  assert (s ∈ filter (λ c, isNumber (duration c) = true) clips) as Hs.
  { rewrite Hfilter. apply elem_of_app. right. by left. }
  apply list_elem_of_filter in Hs as [Hnum _].
  destruct (duration s) as [|d|] eqn:Hd; try done.
  apply filter_split in Hfilter as (pre' & post' & -> & <- & <-).
  assert (durationOf s = d) as Hkey by (unfold durationOf; by rewrite Hd).
  exists (length pre'), d. split; [by apply list_lookup_middle|]. split; [done|].
  intros j c d' Hj Hd'.
  assert (durationOf c = d') as Hc' by (unfold durationOf; by rewrite Hd').
  apply lookup_split in Hj as [[Hlt Hc]|[[-> ->]|[Hgt Hc]]].
  - assert (d < d'); [|lia]. rewrite <- Hkey, <- Hc'. apply Hpre.
    apply list_elem_of_filter. by rewrite Hd'.
  - rewrite Hd in Hd'. injection Hd' as <-. lia.
  - split; [|lia]. rewrite <- Hkey, <- Hc'. apply Hpost.
    apply list_elem_of_filter. by rewrite Hd'.
Qed.

(** There is at most one such clip. *)
Lemma shortest_numeric_unique clips s s' :
  shortest_numeric clips s → shortest_numeric clips s' → s = s'.
Proof.
  intros (i & d & Hi & Hd & Hall) (i' & d' & Hi' & Hd' & Hall').
  destruct (Hall i' s' d' Hi' Hd') as [H1 H2].
  destruct (Hall' i s d Hi Hd) as [H3 H4].
  destruct (Nat.lt_trichotomy i i') as [Hlt|[->|Hgt]].
  - specialize (H4 Hlt). lia.
  - congruence.
  - specialize (H2 Hgt). lia.
Qed.

Lemma find_first_unwatched clips u :
  first_unwatched clips u → find (λ c, negb (watched c)) clips = Some u.
Proof.
  intros (i & Hi & Hu & Hbefore). revert i Hi Hbefore.
  induction clips as [|a l IH]; intros i Hi Hbefore; [done|].
  destruct i as [|i]; cbn in Hi.
  - injection Hi as ->. cbn. by rewrite Hu.
  - cbn. rewrite (Hbefore 0%nat a) by (done || lia). cbn.
    apply (IH i); [done|]. intros j c Hj Hlt. apply (Hbefore (S j) c); [done | lia].
Qed.

Lemma find_all_watched (clips : list clip) :
  (∀ x, x ∈ clips → watched x = true) → find (λ c, negb (watched c)) clips = None.
Proof.
  induction clips as [|a l IH]; intros Hall; [done|].
  cbn. rewrite (Hall a) by by left. cbn. apply IH. intros x Hx. apply Hall. by right.
Qed.

(** C7, amended.  The recommend branch starts from the first unwatched
    clip (the first clip when all are watched) and replaces it by the
    clip of smallest numeric duration, the earliest of them, only when
    that clip is unwatched; a watched shortest clip leaves the first
    unwatched one in place, even when a longer unwatched clip with a
    duration exists.  For the two clips of the example, A without a
    duration and B with duration 5, both unwatched, the candidate is B.
    The answer names the candidate by its [customTitle], or else by its
    shortened [originalUrl], never by [title]. *)
Theorem recommend_rule (db : Firestore) (uid pid : jsstring) (clips : list clip) :
  (candidate clips = None ↔ clips = []) ∧
  (∀ s, shortest_numeric clips s → watched s = false → candidate clips = Some s) ∧
  (∀ u, (∀ s, shortest_numeric clips s → watched s = true) →
        first_unwatched clips u → candidate clips = Some u) ∧
  (∀ c, (∀ s, shortest_numeric clips s → watched s = true) →
        (∀ x, x ∈ clips → watched x = true) → head clips = Some c →
        candidate clips = Some c) ∧
  candidate [exampleClip (lit "A") Absent; exampleClip (lit "B") (Num 5)]
    = Some (exampleClip (lit "B") (Num 5)) ∧
  (uid ≠ [] → pid ≠ [] →
   (∃ pl, get_playlist db uid pid = Ok pl) →
   get_playlist_clips db uid pid 200 = Ok clips →
   handleMessageRaw db (Some uid) (Some pid) (lit "recommend next") =
     Ok (match candidate clips with
         | None => lit "Playlist empty."
         | Some c =>
             lit "Recommended next: "
             ++ or_str (customTitle c) (shortText (originalUrl c) 60) ++ nl
             ++ lit "Open: "
             ++ or_str (or (watchUrl c) (originalUrl c)) (lit "No link available")
         end)).
Proof.
  set (first := match find (λ c, negb (watched c)) clips with
                | Some c => Some c
                | None => head clips
                end).
  assert ((∀ s, shortest_numeric clips s → watched s = true) → candidate clips = first)
    as Hfirst.
  { intros Hseen. unfold candidate. fold first.
    destruct (negb (forallb _ clips)); [|done].
    destruct (sort _ _) as [|shortOne r] eqn:Hsort; [done|].
    by rewrite (Hseen shortOne (shortOne_shortest _ _ _ Hsort)). }
  split; [apply FreeChatFacts.candidate_None|]. split; [|split; [|split; [|split]]].
  - intros s Hs Hw. unfold candidate. fold first.
    destruct Hs as (i & d & Hi & Hd & Hall).
    assert (forallb (λ c, isNullish (duration c)) clips = false) as ->.
    { apply not_true_is_false. intros Hnull. rewrite forallb_forall in Hnull.
      apply list_elem_of_lookup_2, list_elem_of_In in Hi.
      specialize (Hnull s Hi). by rewrite Hd in Hnull. }
    cbn [negb].
    destruct (sort _ _) as [|shortOne r] eqn:Hsort.
    + exfalso.
      assert (s ∈ filter (λ c, isNumber (duration c) = true) clips) as Hin.
      { apply list_elem_of_filter. rewrite Hd. split; [done|].
        by apply list_elem_of_lookup_2 in Hi. }
      rewrite <- (sort_perm (λ a b, durationOf a - durationOf b)) in Hin.
      rewrite Hsort in Hin. by apply elem_of_nil in Hin.
    + assert (shortOne = s) as ->.
      { apply (shortest_numeric_unique clips); [by eapply shortOne_shortest|].
        by exists i, d. }
      by rewrite Hw.
  - intros u Hseen Hu. rewrite (Hfirst Hseen). unfold first.
    by rewrite (find_first_unwatched _ _ Hu).
  - intros c Hseen Hall Hhead. rewrite (Hfirst Hseen). unfold first.
    by rewrite (find_all_watched _ Hall).
  - reflexivity.
  - intros Hu Hp [pl Hpl] Hclips.
    destruct uid as [|u0 u]; [done|]. destruct pid as [|p0 p]; [done|].
    change (handleMessageRaw db (Some (u0 :: u)) (Some (p0 :: p)) (lit "recommend next"))
      with (withPlaylist db (Some (u0 :: u)) (Some (p0 :: p)) (λ _ clips,
        match candidate clips with
        | None => lit "Playlist empty."
        | Some c =>
            lit "Recommended next: "
            ++ or_str (customTitle c) (shortText (originalUrl c) 60) ++ nl
            ++ lit "Open: " ++ or_str (or (watchUrl c) (originalUrl c)) (lit "No link available")
        end)).
    unfold withPlaylist, fetchPlaylistContext. cbn [truthy negb].
    rewrite Hpl, Hclips. reflexivity.
Qed.

Lemma recommend_rule_witness :
  candidate [savedClip (lit "A") (Num 9) (lit "https://a.example/1");
             savedClip (lit "B") (Num 5) (lit "https://b.example/2");
             savedClip (lit "C") (Num 5) (lit "https://c.example/3")]
    = Some (savedClip (lit "B") (Num 5) (lit "https://b.example/2")) ∧
  candidate [seenClip (lit "A") (Num 9) (lit "https://a.example/1");
             savedClip (lit "B") (Num 8) (lit "https://b.example/2");
             seenClip (lit "C") (Num 5) (lit "https://c.example/3");
             savedClip (lit "D") (Num 7) (lit "https://d.example/4")]
    = Some (savedClip (lit "B") (Num 8) (lit "https://b.example/2")) ∧
  candidate [seenClip (lit "A") (Num 9) (lit "https://a.example/1");
             seenClip (lit "B") (Num 5) (lit "https://b.example/2")]
    = Some (seenClip (lit "A") (Num 9) (lit "https://a.example/1")) ∧
  handleMessageRaw
    (storeWith [exampleClip (lit "A") Absent; exampleClip (lit "B") (Num 5)])
    (Some (lit "u1")) (Some (lit "p1")) (lit "recommend next")
  = Ok (lit "Recommended next: " ++ nl ++ lit "Open: No link available").
Proof.
  set (a := savedClip (lit "A") (Num 9) (lit "https://a.example/1")).
  set (b := savedClip (lit "B") (Num 5) (lit "https://b.example/2")).
  set (c := savedClip (lit "C") (Num 5) (lit "https://c.example/3")).
  set (a' := seenClip (lit "A") (Num 9) (lit "https://a.example/1")).
  set (b8 := savedClip (lit "B") (Num 8) (lit "https://b.example/2")).
  set (c' := seenClip (lit "C") (Num 5) (lit "https://c.example/3")).
  set (d7 := savedClip (lit "D") (Num 7) (lit "https://d.example/4")).
  set (b' := seenClip (lit "B") (Num 5) (lit "https://b.example/2")).
  split; [|split; [|split]].
  - destruct (recommend_rule failingStore [] [] [a; b; c]) as (_ & H & _).
    apply H; [|reflexivity]. exists 1%nat, 5. split; [done|]. split; [done|].
    intros j x d' Hj Hd'.
    destruct j as [|[|[|j]]]; cbn in Hj; try done; injection Hj as <-;
      cbn in Hd'; injection Hd' as <-; lia.
  - destruct (recommend_rule failingStore [] [] [a'; b8; c'; d7]) as (_ & _ & H & _).
    assert (shortest_numeric [a'; b8; c'; d7] c') as Hc.
    { exists 2%nat, 5. split; [done|]. split; [done|].
      intros j x d' Hj Hd'.
      destruct j as [|[|[|[|j]]]]; cbn in Hj; try done; injection Hj as <-;
        cbn in Hd'; injection Hd' as <-; lia. }
    apply H.
    + intros s Hs. by rewrite (shortest_numeric_unique _ _ _ Hs Hc).
    + exists 1%nat. split; [done|]. split; [done|].
      intros j x Hj Hlt. destruct j as [|j]; [|lia]. cbn in Hj. by injection Hj as <-.
  - destruct (recommend_rule failingStore [] [] [a'; b']) as (_ & _ & _ & H & _).
    apply H; [| |done].
    + intros s (i & d & Hi & _). by destruct i as [|[|i]]; cbn in Hi; try done;
        injection Hi as <-.
    + intros x Hx. repeat (apply elem_of_cons in Hx as [->|Hx]); try done.
      by apply elem_of_nil in Hx.
  - destruct (recommend_rule
                (storeWith [exampleClip (lit "A") Absent; exampleClip (lit "B") (Num 5)])
                (lit "u1") (lit "p1")
                [exampleClip (lit "A") Absent; exampleClip (lit "B") (Num 5)])
      as (_ & _ & _ & _ & _ & H).
    rewrite H; [reflexivity | discriminate | discriminate | by eexists | reflexivity].
Defined.

(** C7 as stated fails on the rule it gives and on the answer.  With A
    (9, unwatched), B (5, watched) and C (7, unwatched) the shortest
    unwatched clip among those with a numeric duration is C, and the
    candidate is A.  For the clips of the example the candidate is B but
    the answer does not name it: the objects carry [title] only, which
    the answer does not read. *)
Lemma recommend_not_shortest_unwatched :
  let a := savedClip (lit "A") (Num 9) (lit "https://a.example/1") in
  let b := seenClip (lit "B") (Num 5) (lit "https://b.example/2") in
  let c := savedClip (lit "C") (Num 7) (lit "https://c.example/3") in
  (watched c = false ∧ duration c = Num 7 ∧
   ∀ x d, x ∈ [a; b; c] → watched x = false → duration x = Num d → 7 ≤ d) ∧
  candidate [a; b; c] = Some a ∧
  handleMessageRaw
    (storeWith [exampleClip (lit "A") Absent; exampleClip (lit "B") (Num 5)])
    (Some (lit "u1")) (Some (lit "p1")) (lit "recommend next")
  = Ok (lit "Recommended next: " ++ nl ++ lit "Open: No link available") ∧
  includes (lit "Recommended next: " ++ nl ++ lit "Open: No link available") (lit "B")
  = false.
Proof.
  cbv zeta. split; [|vm_compute; repeat split; reflexivity].
  split; [reflexivity|]. split; [reflexivity|].
  intros x d Hx Hw Hd.
  repeat (apply elem_of_cons in Hx as [->|Hx]); [| | |by apply elem_of_nil in Hx].
  - cbn in Hd. injection Hd as <-. lia.
  - discriminate.
  - cbn in Hd. injection Hd as <-. lia.
Qed.

End RecommendRuleFacts.

(** ** The browser assistant: texts *)

Module FreeTextFacts.
Import JS FreeChat.

Lemma split_runs_go_Forall (p : N → bool) (Q : N → Prop) (s : jsstring) :
  ∀ cur in_sep,
    Forall Q cur →
    Forall (λ c, p c = false → Q c) s →
    Forall (Forall Q) (split_runs_go p s cur in_sep).
Proof.
  induction s as [|c s IH]; intros cur in_sep Hcur Hs; cbn [split_runs_go].
  - constructor; [|constructor]. by apply List.Forall_rev.
  - apply Forall_cons in Hs as [Hc Hs].
    destruct (p c) eqn:Hp.
    + destruct in_sep; [by apply IH|].
      constructor; [by apply List.Forall_rev|]. by apply IH.
    + apply IH; [|done]. constructor; [by apply Hc | done].
Qed.

(** X12.  [extractKeywordsFromTitle] returns at most six keywords; each
    has more than three code units, all of them lower-case letters or
    digits, and none is a stop word. *)
Theorem extractKeywords_shape (title : jsstring) :
  (length (extractKeywordsFromTitle title) ≤ 6)%nat ∧
  ∀ k, k ∈ extractKeywordsFromTitle title →
       (3 < length k)%nat ∧ (k ∉ stopWords) ∧
       Forall (λ c, ((97 ≤ c ≤ 122) ∨ (48 ≤ c ≤ 57))%N) k.
Proof.
  unfold extractKeywordsFromTitle.
  destruct (negb (nonempty title)).
  { split; [cbn; lia|]. intros k Hk. by apply elem_of_nil in Hk. }
  unfold slice. rewrite drop_0, Nat.sub_0_r. split.
  - rewrite length_take. lia.
  - intros k Hk. apply (sublist_subseteq _ _ (sublist_take _ 6)) in Hk.
    apply list_elem_of_filter in Hk as [[Hlen Hstop] Hk].
    split; [done|]. split; [done|].
    clear Hlen Hstop. revert k Hk. apply Forall_forall.
    apply split_runs_go_Forall; [constructor|].
    apply Forall_forall. intros c Hc Hsp.
    apply list_elem_of_fmap in Hc as (c0 & -> & _).
    destruct ((97 <=? c0)%N && (c0 <=? 122)%N || (48 <=? c0)%N && (c0 <=? 57)%N) eqn:Ha.
    + cbn [orb] in *.
      apply orb_true_iff in Ha as [Ha|Ha];
        apply andb_true_iff in Ha as [?%N.leb_le ?%N.leb_le]; [by left | by right].
    + cbn [orb] in *. destruct (is_space c0) eqn:Hs0.
      * by rewrite Hs0 in Hsp.
      * discriminate Hsp.
Qed.

Lemma extractKeywords_shape_witness :
  (3 < length (lit "python"))%nat ∧ lit "python" ∉ stopWords.
Proof.
  destruct (extractKeywords_shape (lit "Learn Python: the basics")) as [_ H].
  destruct (H (lit "python")) as (Hlen & Hstop & _); [|by split].
  apply (bool_decide_unpack _). vm_compute. exact I.
Defined.

(** X13.  [shortText] of the browser assistant never returns more than
    [max] code units (for [max >= 1]): a longer text is cut to its first
    [max - 1] code units and an ellipsis, a shorter one is returned
    whole, and a missing or empty text gives the empty string. *)
Theorem free_shortText_bounds (text : option jsstring) (max : nat) :
  (1 ≤ max)%nat →
  (length (shortText text max) ≤ max)%nat ∧
  (∀ s, text = Some s → (max < length s)%nat →
        shortText text max = take (max - 1) s ++ ellipsis) ∧
  (∀ s, text = Some s → (length s ≤ max)%nat → shortText text max = s) ∧
  (truthy text = false → shortText text max = []).
Proof.
  intros Hmax. unfold shortText.
  destruct text as [[|c t]|]; cbn [truthy].
  - split; [cbn; lia|]. split; [intros s [= <-]; cbn; lia|].
    split; [by intros s [= <-]|done].
  - destruct (Nat.ltb_spec max (length (c :: t))) as [Hlt|Hle].
    + unfold slice. rewrite drop_0, Nat.sub_0_r.
      split; [rewrite length_app, length_take; cbn [length ellipsis] in *; lia|].
      split; [by intros s [= <-]|]. split; [|done].
      intros s [= <-] Hs. lia.
    + split; [done|]. split; [intros s [= <-] Hs; lia|]. split; [|done].
      by intros s [= <-].
  - split; [cbn; lia|]. done.
Qed.

Lemma free_shortText_bounds_witness :
  shortText (Some (lit "https://example.org/a/very/long/path")) 12
    = take 11 (lit "https://example.org/a/very/long/path") ++ ellipsis ∧
  shortText (Some (lit "short")) 12 = lit "short" ∧
  shortText None 12 = [].
Proof.
  destruct (free_shortText_bounds (Some (lit "https://example.org/a/very/long/path")) 12)
    as (_ & Hcut & _); [lia|].
  destruct (free_shortText_bounds (Some (lit "short")) 12) as (_ & _ & Hkeep & _); [lia|].
  destruct (free_shortText_bounds None 12) as (_ & _ & _ & Hnone); [lia|].
  split; [|split].
  - apply Hcut; [reflexivity|]. vm_compute. lia.
  - apply Hkeep; [reflexivity|]. vm_compute. lia.
  - by apply Hnone.
Defined.

End FreeTextFacts.

(** ** Links: white space, video files and the saved document *)

Module LinkFacts.
Import JS Embed JSFacts.

(** X14.  White space around a pasted link does not matter: a link and
    its trimmed text get the same embed information (unless the link is
    nothing but white space, where the empty text is "unknown" and the
    blank one "invalid"). *)
Theorem getEmbedInfo_trim (parseURL : jsstring → option URL) (rawUrl : jsstring) :
  trim rawUrl ≠ [] →
  getEmbedInfo parseURL (trim rawUrl) = getEmbedInfo parseURL rawUrl.
Proof.
  intros Hne. unfold getEmbedInfo. rewrite trim_idemp.
  destruct rawUrl as [|c r]; [done|].
  by destruct (trim (c :: r)).
Qed.

Lemma getEmbedInfo_trim_witness :
  getEmbedInfo parseHttps (trim (lit "  https://vimeo.com/12345  ")) =
  getEmbedInfo parseHttps (lit "  https://vimeo.com/12345  ").
Proof.
  apply (getEmbedInfo_trim parseHttps (lit "  https://vimeo.com/12345  ")).
  vm_compute. discriminate.
Defined.

(** The pattern has the flag [i] and no flag [u], so it folds the case
    of Basic Latin letters only.  [toLowerCase] decides the same: only
    the letters of an extension, in either case, are mapped to it. *)
Lemma extension_letters e :
  toLowerCase e ∈ [lit "mp4"; lit "webm"; lit "ogg"] →
  Forall2 (λ c t, c = t ∨ (0x41 ≤ c ≤ 0x5A)%N ∧ t = (c + 32)%N) e (toLowerCase e).
Proof.
  intros Hext. apply JSFacts.toLowerCase_ascii_inv; [done|].
  repeat (apply elem_of_cons in Hext as [->|Hext]);
    [| | |by apply elem_of_nil in Hext];
    repeat constructor; done.
Qed.

Lemma extension_to_end_spec s :
  extension_to_end s = true ↔
  ∃ e rest, s = e ++ rest ∧
    toLowerCase e ∈ [lit "mp4"; lit "webm"; lit "ogg"] ∧
    (rest = [] ∨ ∃ q, rest = 63%N :: q ∧ Forall (λ d, is_line_terminator d = false) q).
Proof.
  unfold extension_to_end. rewrite existsb_exists. split.
  - intros (ext & Hext & Hm). apply andb_true_iff in Hm as [He Hrest].
    apply bool_decide_eq_true in He.
    exists (take (length ext) s), (drop (length ext) s).
    split; [by rewrite take_drop|]. split.
    + rewrite He. by apply list_elem_of_In.
    + destruct (drop (length ext) s) as [|c rest]; [by left|]. right.
      apply andb_true_iff in Hrest as [->%N.eqb_eq Hq]. exists rest. split; [done|].
      rewrite forallb_forall in Hq. apply Forall_forall. intros d Hd.
      apply list_elem_of_In in Hd. specialize (Hq d Hd). by destruct (is_line_terminator d).
  - intros (e & rest & -> & Hext & Hrest).
    exists (toLowerCase e). split; [by apply list_elem_of_In|].
    assert (length (toLowerCase e) = length e) as ->.
    { destruct (JSFacts.toLowerCase_small e) as [-> _]; [|apply length_map].
      repeat (apply elem_of_cons in Hext as [->|Hext]);
        [| | |by apply elem_of_nil in Hext];
        apply Forall_forall; intros u Hu;
        repeat (apply elem_of_cons in Hu as [->|Hu]); try done;
        by apply elem_of_nil in Hu. }
    rewrite take_app_length, drop_app_length.
    apply andb_true_iff. split; [by apply bool_decide_eq_true|].
    destruct Hrest as [->|(q & -> & Hq)]; [done|].
    apply andb_true_iff. split; [done|].
    apply forallb_forall. intros d Hd. apply list_elem_of_In in Hd.
    rewrite Forall_forall in Hq. by rewrite (Hq d Hd).
Qed.

(** X15.  What counts as a direct video file: the link holds a dot
    followed by mp4, webm or ogg in any mix of cases, and then either
    ends or goes on with a question mark and anything up to the end that
    has no line terminator. *)
Theorem is_video_file_spec (url : jsstring) :
  is_video_file url = true ↔
  ∃ p e rest, url = p ++ [46%N] ++ e ++ rest ∧
    toLowerCase e ∈ [lit "mp4"; lit "webm"; lit "ogg"] ∧
    (rest = [] ∨ ∃ q, rest = 63%N :: q ∧ Forall (λ d, is_line_terminator d = false) q).
Proof.
  induction url as [|c s IH].
  - split; [done|]. intros (p & e & rest & H & _). by destruct p.
  - cbn [is_video_file]. rewrite orb_true_iff, andb_true_iff, N.eqb_eq, IH.
    rewrite extension_to_end_spec. split.
    + intros [[-> (e & rest & -> & He & Hrest)]|(p & e & rest & -> & He & Hrest)].
      * by exists [], e, rest.
      * by exists (c :: p), e, rest.
    + intros (p & e & rest & Heq & He & Hrest). destruct p as [|x p].
      * injection Heq as -> ->. left. split; [done|]. by exists e, rest.
      * injection Heq as -> ->. right. by exists p, e, rest.
Qed.

Lemma is_video_file_spec_witness : is_video_file (lit "https://x.org/a.MP4?t=3") = true.
Proof.
  apply (is_video_file_spec (lit "https://x.org/a.MP4?t=3")).
  exists (lit "https://x.org/a"), (lit "MP4"), (lit "?t=3").
  split; [vm_compute; reflexivity|]. split.
  - apply (bool_decide_unpack _). vm_compute. exact I.
  - right. exists (lit "t=3"). split; [vm_compute; reflexivity|].
    apply (bool_decide_unpack _). vm_compute. exact I.
Defined.

Lemma getEmbedInfo_cases (parseURL : jsstring → option URL) (rawUrl : jsstring)
    (P : embedInfo → Prop) :
  P {| site := lit "unknown"; embedUrl := None; embedable := false; watchUrl := None |} →
  P {| site := lit "invalid"; embedUrl := None; embedable := false; watchUrl := None |} →
  (∀ s e w, e ≠ [] → P {| site := s; embedUrl := Some e; embedable := true; watchUrl := w |}) →
  (∀ s e w, P {| site := s; embedUrl := Some e; embedable := false; watchUrl := w |}) →
  P (getEmbedInfo parseURL rawUrl).
Proof.
  intros Hunknown Hinvalid Htrue Hfalse. unfold getEmbedInfo.
  destruct (negb (nonempty rawUrl)); [done|].
  destruct (parseURL (trim rawUrl)) as [u|]; [|done].
  apply EmbedFacts.first_return_ind; [|apply Hfalse].
  repeat apply Forall_cons_2; try apply Forall_nil_2.
  1-4: intros x;
    repeat match goal with
    | |- context [if ?b then _ else _] => destruct b
    end; intros Hx; try discriminate Hx; injection Hx as <-; by apply Htrue.
  intros x. destruct (is_video_file (trim rawUrl)) eqn:Hfile; [|done].
  intros [= <-]. apply Htrue. intros Hnil. by rewrite Hnil in Hfile.
Qed.

(** X16.  [save] refuses an empty input and every link that does not
    parse, before anything is written.  The document it hands to the
    store keeps the link as it was typed, always has a non-empty
    [watchUrl] and an empty list of playlists, never has the site
    "invalid", and has a non-empty [embedUrl] whenever it is marked
    embedable. *)
Theorem save_document (parseURL : jsstring → option URL)
    (originalUrl customTitle description : jsstring) (now : Z) :
  (originalUrl = [] →
   SaveClip.save parseURL originalUrl customTitle description now =
     SaveClip.Alert (lit "Paste a video link first")) ∧
  (originalUrl ≠ [] → parseURL (trim originalUrl) = None →
   SaveClip.save parseURL originalUrl customTitle description now =
     SaveClip.Alert (lit "Invalid URL")) ∧
  (∀ d, SaveClip.save parseURL originalUrl customTitle description now = SaveClip.Saved d →
     SaveClip.doc_originalUrl d = originalUrl ∧
     SaveClip.doc_watchUrl d ≠ [] ∧
     SaveClip.doc_playlistIds d = [] ∧
     SaveClip.doc_createdAt d = now ∧
     SaveClip.doc_videoSite d ≠ lit "invalid" ∧
     (SaveClip.doc_embedable d = true →
      ∃ e, SaveClip.doc_embedUrl d = Some e ∧ e ≠ []) ∧
     (∃ u, parseURL (trim originalUrl) = Some u)).
Proof.
  split; [by intros ->|]. split.
  - intros Hne Hparse. unfold SaveClip.save.
    destruct originalUrl as [|c r]; [done|]. cbn [nonempty negb].
    unfold getEmbedInfo. cbn [nonempty negb]. by rewrite Hparse.
  - intros d. unfold SaveClip.save.
    destruct originalUrl as [|c r]; [done|]. cbn [nonempty negb].
    destruct (str_eqb (site (getEmbedInfo parseURL (c :: r))) (lit "invalid")) eqn:Hsite;
      [done|].
    intros [= <-].
    cbn [SaveClip.doc_originalUrl SaveClip.doc_watchUrl SaveClip.doc_playlistIds
         SaveClip.doc_createdAt SaveClip.doc_videoSite SaveClip.doc_embedable
         SaveClip.doc_embedUrl].
    apply bool_decide_eq_false in Hsite.
    split; [done|]. split.
    { unfold or_str. by destruct (watchUrl (getEmbedInfo parseURL (c :: r))) as [[|x w]|]. }
    split; [done|]. split; [done|]. split; [done|]. split.
    + revert Hsite. apply (getEmbedInfo_cases parseURL (c :: r)); cbn; try done.
      intros s e w He _ _. exists e. by destruct e.
    + revert Hsite. unfold getEmbedInfo. cbn [nonempty negb].
      destruct (parseURL (trim (c :: r))) as [u|]; [by exists u|]. cbn. done.
Qed.

Lemma save_document_witness :
  SaveClip.save parseHttps (lit "   ") [] [] 7 = SaveClip.Alert (lit "Invalid URL") ∧
  SaveClip.save parseHttps [] [] [] 7 = SaveClip.Alert (lit "Paste a video link first") ∧
  ∃ e, SaveClip.doc_embedUrl
         {| SaveClip.doc_originalUrl := lit " https://vimeo.com/12345";
            SaveClip.doc_videoSite := lit "vimeo";
            SaveClip.doc_embedUrl := Some (lit "https://player.vimeo.com/video/12345");
            SaveClip.doc_embedable := true;
            SaveClip.doc_watchUrl := lit "https://vimeo.com/12345";
            SaveClip.doc_customTitle := Some (lit "Talk");
            SaveClip.doc_description := None;
            SaveClip.doc_playlistIds := [];
            SaveClip.doc_createdAt := 7 |} = Some e ∧ e ≠ [].
Proof.
  split; [|split].
  - apply (save_document parseHttps (lit "   ") [] [] 7); [discriminate|reflexivity].
  - by apply (save_document parseHttps [] [] [] 7).
  - destruct (save_document parseHttps (lit " https://vimeo.com/12345") (lit "Talk") [] 7)
      as (_ & _ & H).
    apply H; [vm_compute; reflexivity | reflexivity].
Defined.

Example save_host_named_invalid :
  SaveClip.save parseHttps (lit "https://invalid/clip") [] [] 7
  = SaveClip.Alert (lit "Invalid URL").
Proof. vm_compute. reflexivity. Qed.

End LinkFacts.

(** ** Tags, playlist check boxes and colours of the dashboard *)

Module ClipEditsFacts.
Import JS Tags ClipEdits TagsFacts JSFacts.

Lemma Set_add_NoDup acc x : NoDup acc → NoDup (Set_add acc x).
Proof.
  intros Hnd. unfold Set_add. case_bool_decide; [done|].
  apply NoDup_app. split; [done|]. split; [|apply NoDup_singleton].
  by intros y Hy ->%list_elem_of_singleton.
Qed.

Lemma Set_add_elem acc x y : y ∈ Set_add acc x ↔ y ∈ acc ∨ y = x.
Proof.
  unfold Set_add. case_bool_decide as Hin.
  - split; [by left|]. by intros [?| ->].
  - rewrite elem_of_app, list_elem_of_singleton. done.
Qed.

Lemma Set_add_nil x : Set_add [] x = [x].
Proof. unfold Set_add. by rewrite bool_decide_eq_false_2 by apply not_elem_of_nil. Qed.

Lemma Set_add_length acc x : (length (Set_add acc x) ≤ S (length acc))%nat.
Proof. unfold Set_add. case_bool_decide; [lia|]. rewrite length_app. cbn. lia. Qed.

Section AutoTags.
Variable text : jsstring.

Lemma autoTagsLoop_elem entries : ∀ tags x,
  x ∈ autoTagsLoop text entries tags → x ∈ tags ∨ x ∈ map snd entries.
Proof.
  induction entries as [|[kw tag] rest IH]; intros tags x; cbn [autoTagsLoop map snd].
  - by left.
  - assert (x ∈ (if includes text kw then Set_add tags tag else tags) →
            x ∈ tags ∨ x ∈ tag :: map snd rest) as Hstep.
    { destruct (includes text kw); [|by left].
      intros [?| ->]%Set_add_elem; [by left | right; by left]. }
    destruct (3 <=? _)%nat; [done|]. intros Hx.
    destruct (IH _ _ Hx) as [Hx'|Hx']; [by apply Hstep | right; by right].
Qed.

Lemma autoTagsLoop_grows entries : ∀ tags x,
  x ∈ tags → x ∈ autoTagsLoop text entries tags.
Proof.
  induction entries as [|[kw tag] rest IH]; intros tags x Hx; cbn [autoTagsLoop]; [done|].
  assert (x ∈ (if includes text kw then Set_add tags tag else tags)) as Hstep.
  { destruct (includes text kw); [|done]. apply Set_add_elem. by left. }
  destruct (3 <=? _)%nat; [done|]. by apply IH.
Qed.

Lemma autoTagsLoop_NoDup entries : ∀ tags,
  NoDup tags → NoDup (autoTagsLoop text entries tags).
Proof.
  induction entries as [|[kw tag] rest IH]; intros tags Hnd; cbn [autoTagsLoop]; [done|].
  assert (NoDup (if includes text kw then Set_add tags tag else tags)) as Hstep.
  { destruct (includes text kw); [by apply Set_add_NoDup | done]. }
  destruct (3 <=? _)%nat; [done|]. by apply IH.
Qed.

Lemma autoTagsLoop_length entries : ∀ tags,
  (length tags < 3)%nat → (length (autoTagsLoop text entries tags) ≤ 3)%nat.
Proof.
  induction entries as [|[kw tag] rest IH]; intros tags Hlen; cbn [autoTagsLoop]; [lia|].
  assert (length (if includes text kw then Set_add tags tag else tags) ≤ 3)%nat as Hstep.
  { destruct (includes text kw); [|lia].
    pose proof (Set_add_length tags tag). lia. }
  destruct (Nat.leb_spec 3 (length (if includes text kw then Set_add tags tag else tags)));
    [done|]. by apply IH.
Qed.

Lemma autoTagsLoop_nil entries :
  autoTagsLoop text entries [] = [] ↔
  ∀ kw tag, (kw, tag) ∈ entries → includes text kw = false.
Proof.
  induction entries as [|[kw tag] rest IH]; cbn [autoTagsLoop].
  - split; [|done]. intros _ kw tag H. by apply elem_of_nil in H.
  - destruct (includes text kw) eqn:Hhit.
    + split.
      * intros Hnil. exfalso.
        assert (tag ∈ (if (3 <=? length (Set_add [] tag))%nat then Set_add [] tag
                       else autoTagsLoop text rest (Set_add [] tag))) as Hin.
        { cbn. apply autoTagsLoop_grows. by left. }
        rewrite Hnil in Hin. by apply elem_of_nil in Hin.
      * intros Hall. specialize (Hall kw tag). rewrite Hhit in Hall.
        discriminate Hall. by left.
    + cbn. rewrite IH. split.
      * intros Hall kw' tag' [[= -> ->]|Hin]%elem_of_cons; [done|]. by apply (Hall _ tag').
      * intros Hall kw' tag' Hin. apply (Hall _ tag'). by right.
Qed.

End AutoTags.

Lemma autoTagMap_clean :
  Forall (λ t, normalizeTag t = t ∧ t ≠ [])
         (lit "uncategorized" :: map snd autoTagMap).
Proof. apply (bool_decide_unpack _). vm_compute. exact I. Qed.

Lemma map_id_on {A} (f : A → A) (l : list A) :
  Forall (λ x, f x = x) l → map f l = l.
Proof. induction 1 as [|x l Hx _ IH]; [done|]. cbn. by rewrite Hx, IH. Qed.

(** X17.  The rule-based tagger returns between one and three tags, all
    distinct, non-empty and in normal form, each one from its table or
    "uncategorized"; it returns "uncategorized" alone exactly when no
    keyword of the table occurs in the lower-cased title and description.
    The last step of [saveResult] leaves such a list as it is, so when
    the AI tagger throws the clip is saved with exactly these tags; and
    whatever the AI tagger returns, the saved tags keep the invariant. *)
Theorem generateAutoTags_shape (title desc : option jsstring) :
  (1 ≤ length (generateAutoTags title desc) ≤ 3)%nat ∧
  tagsOk (generateAutoTags title desc) ∧
  (∀ t, t ∈ generateAutoTags title desc →
        t = lit "uncategorized" ∨ t ∈ map snd autoTagMap) ∧
  (generateAutoTags title desc = [lit "uncategorized"] ↔
   ∀ kw tag, (kw, tag) ∈ autoTagMap →
     includes (toLowerCase (or_str title [] ++ lit " " ++ or_str desc [])) kw = false) ∧
  (∀ e, savedTags (Throw e) title desc = generateAutoTags title desc) ∧
  (∀ ai, tagsOk (savedTags ai title desc)).
Proof.
  set (text := toLowerCase (or_str title [] ++ lit " " ++ or_str desc [])).
  set (loop := autoTagsLoop text autoTagMap []).
  set (tags := if (length loop =? 0)%nat then Set_add loop (lit "uncategorized") else loop).
  assert (NoDup tags) as Hnd.
  { unfold tags. pose proof (autoTagsLoop_NoDup text autoTagMap [] (NoDup_nil_2)) as H.
    destruct (_ =? _)%nat; [by apply Set_add_NoDup | done]. }
  assert (length loop ≤ 3)%nat as Hloop.
  { apply autoTagsLoop_length. cbn. lia. }
  assert ((loop = [] ∧ tags = [lit "uncategorized"]) ∨ (loop ≠ [] ∧ tags = loop))
    as Htags.
  { unfold tags. destruct (Nat.eqb_spec (length loop) 0) as [H0|Hn0].
    - left. apply nil_length_inv in H0. rewrite H0. split; [done|]. apply Set_add_nil.
    - right. split; [|done]. intros H0. by rewrite H0 in Hn0. }
  assert (1 ≤ length tags ≤ 3)%nat as Hlen.
  { destruct Htags as [[_ ->]|[Hne ->]]; [cbn; lia|].
    destruct loop; [done | cbn in *; lia]. }
  assert (∀ t, t ∈ tags → t = lit "uncategorized" ∨ t ∈ map snd autoTagMap) as Hfrom.
  { intros t. unfold tags. destruct (_ =? _)%nat.
    - intros [Ht| ->]%Set_add_elem; [|by left].
      apply autoTagsLoop_elem in Ht as [Ht|Ht]; [by apply elem_of_nil in Ht | by right].
    - intros Ht.
      apply autoTagsLoop_elem in Ht as [Ht|Ht]; [by apply elem_of_nil in Ht | by right]. }
  assert (Forall (λ t, normalizeTag t = t ∧ t ≠ []) tags) as Hclean.
  { apply Forall_forall. intros t Ht.
    pose proof autoTagMap_clean as Hall. rewrite Forall_forall in Hall. apply Hall.
    destruct (Hfrom t Ht) as [->|Hin]; [by left | by right]. }
  assert (generateAutoTags title desc = tags) as Hgen.
  { unfold generateAutoTags. fold text. fold loop. fold tags.
    unfold slice. rewrite drop_0, Nat.sub_0_r, take_ge by lia.
    apply map_id_on. eapply Forall_impl; [exact Hclean|]. by intros t [? _]. }
  assert (tagsOk tags) as Hok by (split; [lia|by split]).
  assert (finalizeTags tags = tags) as Hfinal.
  { rewrite finalizeTags_survivors, survivors_clean by done. apply take_ge. lia. }
  rewrite Hgen.
  split; [done|]. split; [done|]. split; [done|]. split; [|split].
  - rewrite <- (autoTagsLoop_nil text autoTagMap). fold loop.
    destruct Htags as [[Hnil ->]|[Hne ->]]; [done|]. split; [|done].
    intros Hunc. exfalso.
    assert (lit "uncategorized" ∈ autoTagsLoop text autoTagMap []) as Hin.
    { fold loop. rewrite Hunc. by left. }
    apply autoTagsLoop_elem in Hin as [Hin|Hin]; [by apply elem_of_nil in Hin|].
    revert Hin. apply (bool_decide_unpack _). vm_compute. exact I.
  - intros e. unfold savedTags. by rewrite Hgen.
  - intros ai. unfold savedTags.
    destruct (finalizeTags_clean
                match ai with Ok t => t | Throw _ => generateAutoTags title desc end)
      as [Hc Hn].
    split; [|by split]. unfold finalizeTags. rewrite length_take. lia.
Qed.

Example generateAutoTags_samples :
  generateAutoTags (Some (lit "React tutorial")) (Some (lit "Live MUSIC and gaming"))
    = [lit "tutorial"; lit "music"; lit "web-dev"] ∧
  generateAutoTags (Some (lit "Holiday")) None = [lit "uncategorized"].
Proof. vm_compute. split; reflexivity. Qed.

Lemma generateAutoTags_shape_witness :
  generateAutoTags (Some (lit "Holiday")) None = [lit "uncategorized"] ∧
  (lit "music" = lit "uncategorized" ∨ lit "music" ∈ map snd autoTagMap).
Proof.
  destruct (generateAutoTags_shape (Some (lit "Holiday")) None) as (_ & _ & _ & H & _).
  destruct (generateAutoTags_shape (Some (lit "Live music")) None) as (_ & _ & H' & _).
  split.
  - apply H. intros kw tag Hin. unfold autoTagMap in Hin.
    repeat (apply elem_of_cons in Hin as [[= -> ->]|Hin]; [vm_compute; reflexivity|]).
    by apply elem_of_nil in Hin.
  - apply H'. vm_compute. left.
Defined.

Lemma arrayRemove_spec x y l : y ∈ arrayRemove x l ↔ y ≠ x ∧ y ∈ l.
Proof. unfold arrayRemove. by rewrite list_elem_of_filter. Qed.

Lemma arrayUnion_is_Set_add x l : arrayUnion x l = Set_add l x.
Proof. reflexivity. Qed.

Lemma tagsOk_currentTags stored :
  tagsOk (default [] stored) → currentTags stored = default [] stored.
Proof.
  intros (_ & _ & Hclean). destruct stored as [l|]; [|done]. cbn in *.
  apply map_id_on. eapply Forall_impl; [exact Hclean|]. by intros t [? _].
Qed.

Lemma tagsOk_arrayRemove x l : tagsOk l → tagsOk (arrayRemove x l).
Proof.
  intros (Hlen & Hnd & Hclean). unfold arrayRemove. split; [|split].
  - pose proof (length_filter (λ y, y ≠ x) l). lia.
  - by apply NoDup_filter.
  - apply Forall_forall. intros t Ht. apply list_elem_of_filter in Ht as [_ Ht].
    rewrite Forall_forall in Hclean. by apply Hclean.
Qed.

Lemma arrayRemove_length_in x l :
  NoDup l → x ∈ l → S (length (arrayRemove x l)) = length l.
Proof.
  unfold arrayRemove. induction 1 as [|y l Hy Hnd IH]; intros Hx.
  - by apply elem_of_nil in Hx.
  - apply elem_of_cons in Hx as [->|Hx].
    + rewrite filter_cons_False by (intros H; by apply H).
      by rewrite filter_ne_id.
    + rewrite filter_cons_True by (intros ->; done). cbn. by rewrite IH.
Qed.

(** X18.  The tag operations of the dashboard keep the invariant of the
    [tags] field (at most three tags, distinct, non-empty, in normal
    form): every value they write to a clip that satisfies it satisfies
    it again.  A tag that is added is on the clip afterwards, a tag that
    is deleted is not, and a replacement puts the new tag in unless it
    was there already under the old name, in which case the tag is just
    removed: renaming a tag to itself takes it off the clip. *)
Theorem tag_edits_keep_invariant (stored : option (list jsstring))
    (tagValue oldTag : jsstring) :
  tagsOk (default [] stored) →
  (∀ new, addTagToClip stored tagValue = Some new →
     tagsOk new ∧ normalizeTag tagValue ∈ new ∧
     length new = S (length (default [] stored))) ∧
  (∀ new, deleteTagFromClip stored oldTag = Some new → tagsOk new ∧ oldTag ∉ new) ∧
  (∀ new, replaceTagOnClip stored oldTag tagValue = Some new →
     tagsOk new ∧
     (normalizeTag tagValue ∈ new ∨ normalizeTag tagValue = oldTag) ∧
     (oldTag ∉ new ∨ normalizeTag tagValue = oldTag)) ∧
  (oldTag ∈ default [] stored → normalizeTag tagValue = oldTag →
   replaceTagOnClip stored oldTag tagValue = Some (arrayRemove oldTag (default [] stored))).
Proof.
  intros Hok. pose proof (tagsOk_currentTags stored Hok) as Hcur.
  destruct Hok as (Hlen & Hnd & Hclean).
  set (l := default [] stored) in *.
  split; [|split; [|split]].
  - intros new. unfold addTagToClip. rewrite Hcur.
    destruct (negb (nonempty (normalizeTag tagValue))) eqn:Hne; [done|].
    case_bool_decide as Hin; [done|].
    destruct (Nat.leb_spec 3 (length l)) as [H3|H3]; [done|].
    intros [= <-]. fold l. unfold arrayUnion. rewrite bool_decide_eq_false_2 by done.
    split; [|split].
    + split; [rewrite length_app; cbn; lia|]. split.
      * apply NoDup_app. split; [done|]. split; [|apply NoDup_singleton].
        by intros y Hy ->%list_elem_of_singleton.
      * apply Forall_app. split; [done|]. constructor; [|constructor].
        split; [apply normalizeTag_idemp|]. intros H0. by rewrite H0 in Hne.
    + apply elem_of_app. right. by left.
    + rewrite length_app. cbn. lia.
  - intros new [= <-]. fold l. split.
    + by apply tagsOk_arrayRemove.
    + rewrite arrayRemove_spec. tauto.
  - intros new. unfold replaceTagOnClip. rewrite Hcur. fold l.
    destruct (negb (nonempty (normalizeTag tagValue))) eqn:Hne; [done|].
    case_bool_decide as Hin.
    + intros [= <-]. split; [by apply tagsOk_arrayRemove|]. split.
      * destruct (decide (normalizeTag tagValue = oldTag)) as [Heq|Hneq]; [by right|].
        left. by apply arrayRemove_spec.
      * left. rewrite arrayRemove_spec. tauto.
    + destruct (_ && _) eqn:Hfull; [done|]. intros [= <-].
      unfold arrayUnion. rewrite bool_decide_eq_false_2
        by (rewrite arrayRemove_spec; tauto).
      destruct (tagsOk_arrayRemove oldTag l) as (Hlen' & Hnd' & Hclean');
        [by split|].
      split; [|split].
      * split; [|split].
        -- rewrite length_app. cbn.
           apply andb_false_iff in Hfull as [Hfull|Hfull].
           ++ apply Nat.leb_gt in Hfull.
              pose proof (length_filter (λ y, y ≠ oldTag) l). unfold arrayRemove. lia.
           ++ apply negb_false_iff, bool_decide_eq_true in Hfull.
              pose proof (arrayRemove_length_in oldTag l Hnd Hfull). lia.
        -- apply NoDup_app. split; [done|]. split; [|apply NoDup_singleton].
           intros y Hy ->%list_elem_of_singleton.
           apply arrayRemove_spec in Hy. tauto.
        -- apply Forall_app. split; [done|]. constructor; [|constructor].
           split; [apply normalizeTag_idemp|]. intros H0. by rewrite H0 in Hne.
      * left. apply elem_of_app. right. by left.
      * destruct (decide (normalizeTag tagValue = oldTag)) as [Heq|Hneq]; [by right|].
        left. rewrite elem_of_app, arrayRemove_spec, list_elem_of_singleton.
        intros [[? _]|?]; congruence.
  - intros Hold Heq. unfold replaceTagOnClip. rewrite Hcur. fold l. rewrite Heq.
    assert (oldTag ≠ []) as Hne.
    { rewrite Forall_forall in Hclean. by apply Hclean. }
    destruct oldTag as [|c t]; [done|]. cbn [nonempty negb].
    by rewrite bool_decide_eq_true_2.
Qed.

Lemma tag_edits_keep_invariant_witness :
  tagsOk [lit "music"; lit "live"; lit "rock"] ∧
  replaceTagOnClip (Some [lit "music"; lit "live"]) (lit "music") (lit " Music ")
    = Some [lit "live"].
Proof.
  assert (tagsOk [lit "music"; lit "live"]) as Hok.
  { split; [cbn; lia|]. split; apply (bool_decide_unpack _); vm_compute; exact I. }
  destruct (tag_edits_keep_invariant (Some [lit "music"; lit "live"])
              (lit "Rock ") (lit "jazz") Hok) as (Hadd & _).
  destruct (tag_edits_keep_invariant (Some [lit "music"; lit "live"])
              (lit " Music ") (lit "music") Hok) as (_ & _ & _ & Hself).
  split.
  - apply (Hadd [lit "music"; lit "live"; lit "rock"]). vm_compute. reflexivity.
  - rewrite Hself; [vm_compute; reflexivity | cbn; left | vm_compute; reflexivity].
Defined.

Lemma Set_from_NoDup l : NoDup (Set_from l).
Proof. rewrite Set_from_first_occurrences. apply first_occurrences_NoDup. Qed.

Lemma toggledIds_elem old plId add x :
  x ∈ toggledIds old plId add ↔
  (x = plId ∧ add = true) ∨ (x ≠ plId ∧ x ∈ default [] old).
Proof.
  unfold toggledIds. destruct add.
  - rewrite Set_add_elem, Set_from_first_occurrences, first_occurrences_elem.
    destruct (decide (x = plId)); intuition congruence.
  - rewrite list_elem_of_filter, Set_from_first_occurrences, first_occurrences_elem.
    intuition congruence.
Qed.

(** X19.  A playlist check box on a clip.  The list the component holds
    keeps its length and every other clip; the ticked clip gets a list of
    ids without duplicates that holds the playlist exactly when the box
    was ticked and the other ids as before.  When the old ids had no
    duplicates this is what [arrayUnion] / [arrayRemove] leave in the
    store, and ticking and then unticking a playlist that was not on the
    clip gives the old ids back. *)
Theorem toggle_playlist (prev : list clip) (cid plId : jsstring) (add : bool)
    (old : option (list jsstring)) :
  length (toggleClipPlaylist prev cid plId add) = length prev ∧
  (∀ i c, prev !! i = Some c → clipId c ≠ cid →
     toggleClipPlaylist prev cid plId add !! i = Some c) ∧
  (∀ i c, prev !! i = Some c → clipId c = cid →
     toggleClipPlaylist prev cid plId add !! i =
       Some (withPlaylistIds c (toggledIds (playlistIds c) plId add))) ∧
  NoDup (toggledIds old plId add) ∧
  (∀ x, x ∈ toggledIds old plId add ↔
        (x = plId ∧ add = true) ∨ (x ≠ plId ∧ x ∈ default [] old)) ∧
  (NoDup (default [] old) → toggledIds old plId add = storedIds old plId add) ∧
  (NoDup (default [] old) → plId ∉ default [] old →
   toggledIds (Some (toggledIds old plId true)) plId false = default [] old).
Proof.
  split; [apply length_map|]. split; [|split].
  { intros i c Hi Hne. unfold toggleClipPlaylist.
    change (map ?f prev) with (f <$> prev). rewrite list_lookup_fmap, Hi. cbn.
    by rewrite bool_decide_eq_true_2. }
  { intros i c Hi Heq. unfold toggleClipPlaylist.
    change (map ?f prev) with (f <$> prev). rewrite list_lookup_fmap, Hi. cbn.
    rewrite bool_decide_eq_false_2; [done|]. intros H. by apply H. }
  split.
  { unfold toggledIds. destruct add.
    - apply Set_add_NoDup, Set_from_NoDup.
    - apply NoDup_filter, Set_from_NoDup. }
  split; [apply toggledIds_elem|].
  assert (NoDup (default [] old) → Set_from (default [] old) = default [] old) as Hset.
  { intros Hnd. rewrite Set_from_first_occurrences. by apply first_occurrences_id. }
  split.
  - intros Hnd. unfold toggledIds, storedIds. rewrite Hset by done. by destruct add.
  - intros Hnd Hnew. unfold toggledIds at 1. cbn [default].
    assert (NoDup (toggledIds old plId true)) as Hnd'.
    { unfold toggledIds. apply Set_add_NoDup, Set_from_NoDup. }
    rewrite Set_from_first_occurrences, first_occurrences_id by done.
    unfold toggledIds. rewrite Hset by done. unfold Set_add.
    rewrite bool_decide_eq_false_2 by done.
    unfold id.
    rewrite filter_app, filter_cons_False, filter_nil, app_nil_r
      by (intros H; by apply H).
    by apply filter_ne_id.
Qed.

Lemma toggle_playlist_witness :
  toggledIds (Some [lit "p1"; lit "p2"]) (lit "p3") true
    = storedIds (Some [lit "p1"; lit "p2"]) (lit "p3") true ∧
  toggledIds (Some (toggledIds (Some [lit "p1"; lit "p2"]) (lit "p3") true)) (lit "p3") false
    = [lit "p1"; lit "p2"].
Proof.
  destruct (toggle_playlist [] (lit "c1") (lit "p3") true (Some [lit "p1"; lit "p2"]))
    as (_ & _ & _ & _ & _ & Hstore & Hback).
  assert (NoDup (default [] (Some [lit "p1"; lit "p2"]))) as Hnd.
  { apply (bool_decide_unpack _). vm_compute. exact I. }
  split; [by apply Hstore|]. apply Hback; [done|].
  apply (bool_decide_unpack _). vm_compute. exact I.
Defined.

(** The local list and the store part ways on a clip whose stored ids
    hold a duplicate: the store keeps it, the list does not. *)
Example toggle_duplicate_ids :
  toggledIds (Some [lit "p1"; lit "p1"]) (lit "p2") true = [lit "p1"; lit "p2"] ∧
  storedIds (Some [lit "p1"; lit "p1"]) (lit "p2") true = [lit "p1"; lit "p1"; lit "p2"].
Proof. vm_compute. split; reflexivity. Qed.

Lemma toInt32_range z : - 2 ^ 31 ≤ toInt32 z < 2 ^ 31.
Proof. unfold toInt32. pose proof (Z.mod_pos_bound (z + 2 ^ 31) (2 ^ 32)). lia. Qed.

Lemma toInt32_id z : - 2 ^ 31 ≤ z < 2 ^ 31 → toInt32 z = z.
Proof. intros Hz. unfold toInt32. rewrite Z.mod_small by lia. lia. Qed.

(** X20.  The fallback colour of a tag is always one of the seven
    colours of the palette (the index never leaves the array), the empty
    tag gets the first one, and as long as the shift does not overflow 32
    bits one round of the hash is [31 * h + c]. *)
Theorem fallbackColor_total (tag : jsstring) (h : Z) (c : N) :
  (∃ colour, fallbackColor tag = Some colour ∧ colour ∈ fallbackColors) ∧
  fallbackColor [] = Some (lit "#60a5fa") ∧
  (- 2 ^ 26 ≤ h < 2 ^ 26 → hashStep h c = 31 * h + Z.of_N c).
Proof.
  split; [|split; [done|]].
  - unfold fallbackColor.
    set (n := Z.to_nat (Z.abs (foldl hashStep 0 tag) mod Z.of_nat (length fallbackColors))).
    assert (n < length fallbackColors)%nat as Hn.
    { unfold n. change (length fallbackColors) with 7%nat.
      pose proof (Z.mod_pos_bound (Z.abs (foldl hashStep 0 tag)) (Z.of_nat 7)). lia. }
    destruct (lookup_lt_is_Some_2 fallbackColors n Hn) as [colour Hc].
    exists colour. split; [done|]. by apply list_elem_of_lookup_2 in Hc.
  - intros Hh. unfold hashStep. rewrite (toInt32_id h) by lia.
    rewrite toInt32_id by lia. lia.
Qed.

Lemma fallbackColor_total_witness : hashStep 97 98 = 31 * 97 + 98.
Proof. apply (fallbackColor_total [] 97 98). lia. Defined.


(** The hash is not confined to 32 bits: only the shift wraps. *)
Example fallbackColor_samples :
  foldl hashStep 0 (lit "rust") = 3512292 ∧
  fallbackColor (lit "rust") = Some (lit "#60a5fa") ∧
  foldl hashStep 0 (lit "machine-learning") = 5472883172 ∧
  fallbackColor (lit "machine-learning") = Some (lit "#34d399").
Proof. vm_compute. repeat split; reflexivity. Qed.

End ClipEditsFacts.

(** ** The model-backed callable up to the request (unnamed/part_001) *)

Module HuggingFaceFacts.
Import JS RateLimiter HuggingFaceChat.

Lemma buildPlaylistContext_shape db uid opid ctx :
  buildPlaylistContext db uid opid = Ok ctx →
  ctx = [] ∨ ∃ body, ctx = lit "Playlist: " ++ body ++ nl ++ nl.
Proof.
  unfold buildPlaylistContext.
  destruct opid as [[|p0 p]|]; try (intros [= <-]; by left).
  destruct (negb (nonempty uid)); [intros [= <-]; by left|].
  destruct (get_playlist db uid (p0 :: p)) as [pl|e]; [|intros [= <-]; by left].
  destruct (get_playlist_clips db uid (p0 :: p) 12) as [clips|e];
    [|intros [= <-]; by left].
  cbn [mbind try_catch]. unfold mbind, result_bind. cbn beta iota.
  destruct (negb _); intros [= <-]; right.
  - exists (or_str (pl ≫= name) [] ++ nl ++ lit "(no clips)").
    by rewrite <- !app_assoc.
  - eexists (or_str (pl ≫= name) [] ++ nl ++ join nl _).
    by rewrite <- !app_assoc.
Qed.

(** X21.  The model is asked exactly when the limiter accepts the caller
    and the message is not blank; the prompt is then the system note, the
    playlist context and the message as it was sent, white space
    included.  The context is empty or a block that starts with
    "Playlist: " and ends with an empty line, and it is empty whenever no
    playlist id is given.  A rejected caller gets the rate-limit error of
    this callable and the bucket is only pruned. *)
Theorem hf_model_call (db : Firestore) (now : Z) (buckets : gmap jsstring (list Z))
    (auth_uid message pid : option jsstring) :
  (∀ p, (hfChat db now buckets auth_uid message pid).1 = Ok (CallModel p) ↔
        (withinLimit HuggingFace now (or_str auth_uid (lit "anonymous")) buckets).1 = true ∧
        trim (or_str message []) ≠ [] ∧
        ∃ ctx, buildPlaylistContext db (or_str auth_uid (lit "anonymous"))
                 (if truthy pid then pid else None) = Ok ctx ∧
               p = prompt ctx (or_str message [])) ∧
  (∀ opid ctx, buildPlaylistContext db (or_str auth_uid (lit "anonymous")) opid = Ok ctx →
        ctx = [] ∨ ∃ body, ctx = lit "Playlist: " ++ body ++ nl ++ nl) ∧
  (truthy pid = false →
   ∀ p, (hfChat db now buckets auth_uid message pid).1 = Ok (CallModel p) →
        p = prompt [] (or_str message [])) ∧
  ((withinLimit HuggingFace now (or_str auth_uid (lit "anonymous")) buckets).1 = false →
   hfChat db now buckets auth_uid message pid =
     (Ok (Respond (Error (lit "Rate limit exceeded. Try again later."))),
      <[or_str auth_uid (lit "anonymous") :=
          recent_of now (bucket buckets (or_str auth_uid (lit "anonymous")))]> buckets)).
Proof.
  set (uid := or_str auth_uid (lit "anonymous")).
  set (msg := or_str message []).
  assert (∀ p, (hfChat db now buckets auth_uid message pid).1 = Ok (CallModel p) ↔
        (withinLimit HuggingFace now uid buckets).1 = true ∧ trim msg ≠ [] ∧
        ∃ ctx, buildPlaylistContext db uid (if truthy pid then pid else None) = Ok ctx ∧
               p = prompt ctx msg) as Hcall.
  { intros p. unfold hfChat. fold uid msg.
    destruct (withinLimit HuggingFace now uid buckets).1; cbn [negb].
    2:{ cbn [fst]. split; [done|]. by intros [? _]. }
    assert (negb (nonempty msg) || (length (trim msg) =? 0)%nat = true ↔ trim msg = [])
      as Hblank.
    { rewrite orb_true_iff, Nat.eqb_eq. split.
      - intros [H|H]; [by destruct msg | by apply nil_length_inv].
      - intros ->. by right. }
    destruct (negb (nonempty msg) || (length (trim msg) =? 0)%nat) eqn:Hb; cbn [fst].
    { split; [done|]. intros (_ & Hne & _). exfalso. by apply Hne, Hblank. }
    destruct (buildPlaylistContext db uid (if truthy pid then pid else None))
      as [ctx|e] eqn:Hctx; cbn.
    - split.
      + intros [= <-]. split; [done|]. split; [|by exists ctx].
        intros H. by apply Hblank in H.
      + intros (_ & _ & ctx' & [= <-] & ->). done.
    - split; [done|]. by intros (_ & _ & ctx' & [=] & _). }
  split; [exact Hcall|]. split; [intros opid ctx; apply buildPlaylistContext_shape|].
  split.
  - intros Hpid p Hp. apply Hcall in Hp as (_ & _ & ctx & Hctx & ->).
    rewrite Hpid in Hctx. by injection Hctx as <-.
  - intros Hrej. unfold hfChat. fold uid. rewrite Hrej. cbn [negb].
    f_equal. rewrite RateLimiterFacts.withinLimit_answer in Hrej.
    apply bool_decide_eq_false in Hrej.
    rewrite RateLimiterFacts.withinLimit_reject by lia. done.
Qed.

Lemma hf_model_call_witness :
  (hfChat (FreeChat.storeWith []) 5 ∅ (Some (lit "u1")) (Some (lit " hi ")) (Some (lit "p1"))).1
  = Ok (CallModel (prompt (lit "Playlist: My list" ++ nl ++ lit "(no clips)" ++ nl ++ nl)
                          (lit " hi "))).
Proof.
  apply (hf_model_call (FreeChat.storeWith []) 5 ∅ (Some (lit "u1")) (Some (lit " hi "))
           (Some (lit "p1"))).
  split; [vm_compute; reflexivity|]. split; [vm_compute; discriminate|].
  eexists. split; [vm_compute; reflexivity|]. vm_compute. reflexivity.
Defined.

End HuggingFaceFacts.

(** ** The library search of the browser assistant *)

Module FreeSearchFacts.
Import JS FreeChat.

Lemma withPlaylist_cases db uid pid k r :
  withPlaylist db uid pid k = Ok r →
  r = lit "Sign in to use playlist features." ∨
  r = lit "No playlist selected. Select a playlist and try again." ∨
  ∃ pl clips, r = k pl clips.
Proof.
  unfold withPlaylist.
  destruct (negb (truthy uid)); [intros [= <-]; by left|].
  destruct (negb (truthy pid)); [intros [= <-]; right; by left|].
  destruct (FreeChatMoreFacts.fetchPlaylistContext_total db uid pid) as [ctx ->].
  cbn. intros [= <-]. right. right. by exists ctx.1, ctx.2.
Qed.

(** X22.  The search of the browser assistant looks at the tags too: it
    says that nothing matches only for a signed-in user whose message
    (trimmed and lower-cased) has more than two code units and occurs in
    no clip of the library, neither in the lower-cased title and
    description nor in any lower-cased tag. *)
Theorem free_search_no_match (db : Firestore) (uid pid : option jsstring)
    (text : jsstring) (clips : list clip) :
  get_clips db (or_str uid []) 200 = Ok clips →
  handleMessageRaw db uid pid text = Ok (lit "No matching clips found in your library.") →
  truthy uid = true ∧ (2 < length (toLowerCase (trim text)))%nat ∧
  ∀ c, c ∈ clips →
    includes (toLowerCase (or_str (customTitle c) []) ++ lit " "
              ++ toLowerCase (or_str (description c) [])) (toLowerCase (trim text)) = false ∧
    ∀ tg, tg ∈ default [] (tags c) →
      includes (toLowerCase tg) (toLowerCase (trim text)) = false.
Proof.
  intros Hclips. unfold handleMessageRaw.
  set (msg := toLowerCase (trim text)).
  set (none := lit "No matching clips found in your library.").
  assert (∀ k, (∀ pl cl, head (k pl cl) ≠ Some 78%N) →
               withPlaylist db uid pid k ≠ Ok none) as Hbranch.
  { intros k Hk H. apply withPlaylist_cases in H as [H|[H|(pl & cl & H)]].
    - vm_compute in H. discriminate.
    - vm_compute in H. discriminate.
    - apply (Hk pl cl). by rewrite <- H. }
  destruct (_ || _); [intros H; vm_compute in H; discriminate|].
  destruct (_ || _).
  { intros H. exfalso. revert H. apply Hbranch. intros pl cl.
    destruct pl as [pl|]; [|done]. by destruct (negb (nonempty cl)). }
  destruct (_ || _).
  { intros H. exfalso. revert H. apply Hbranch. intros pl cl.
    by destruct (candidate cl). }
  destruct (_ || _).
  { intros H. exfalso. revert H. apply Hbranch. intros pl cl.
    by destruct (negb (nonempty cl)). }
  destruct (_ || _).
  { intros H. exfalso. revert H. apply Hbranch. intros pl cl.
    by destruct (negb (nonempty cl)). }
  destruct (Nat.ltb_spec 2 (length msg)) as [Hlen|_];
    [|intros H; vm_compute in H; discriminate].
  destruct (truthy uid); cbn [negb]; [|intros H; vm_compute in H; discriminate].
  rewrite Hclips. cbn [mbind]. unfold mbind, result_bind. cbn beta iota.
  match goal with |- context [filter ?P clips] => set (matches := filter P clips) end.
  destruct (negb (nonempty matches)) eqn:Hm.
  2:{ intros [=]. }
  intros _. split; [done|]. split; [done|].
  intros c Hc.
  assert (c ∉ matches) as Hnot.
  { destruct matches; [apply not_elem_of_nil | done]. }
  unfold matches in Hnot. rewrite list_elem_of_filter in Hnot.
  split.
  - apply not_true_is_false. intros H. apply Hnot. split; [by left|done].
  - intros tg Htg. apply not_true_is_false. intros H. apply Hnot.
    split; [right|done]. apply Exists_exists. by exists tg.
Qed.

Lemma free_search_no_match_witness :
  includes (toLowerCase (lit "Rust")) (toLowerCase (trim (lit " Python "))) = false.
Proof.
  destruct (free_search_no_match
              (storeWith [taggedClip (lit "Ownership") [lit "Rust"]])
              (Some (lit "u1")) None (lit " Python ")
              [taggedClip (lit "Ownership") [lit "Rust"]]) as (_ & _ & H).
  - vm_compute. reflexivity.
  - vm_compute. reflexivity.
  - destruct (H (taggedClip (lit "Ownership") [lit "Rust"])) as [_ Htag].
    + by left.
    + apply Htag. by left.
Defined.

(** A clip that only a tag matches is found here, while the rule-based
    callable scores the same clip zero. *)
Example tag_only_match :
  handleMessageRaw (storeWith [taggedClip (lit "Ownership") [lit "Rust"]])
    (Some (lit "u1")) None (lit "rust")
  = Ok (lit "Found 1 matching clip(s):" ++ nl ++ lit "1. Ownership " ++ emdash
        ++ lit " " ++ nl ++ lit "Open: ") ∧
  RuleBasedChat.searchClips [taggedClip (lit "Ownership") [lit "Rust"]] (lit "rust") 5 = [].
Proof. vm_compute. split; reflexivity. Qed.

End FreeSearchFacts.
